(** * display.py: the styled-line decoder, the colour encoder, the frame
      resampler and the playback loop, embedded in Rocq.

    Python values are embedded as follows.
    - [str] is a list of 8-bit code points (the frames are ASCII art with
      ANSI escapes; the only non-ASCII characters that matter to the code
      are the two Latin-1 spaces that [int()] strips).
    - [int] is [Z].
    - [float] is IEEE-754 binary64, through the executable specification
      [spec_float] of the standard library (precision 53, emax 1024).
    - A call that may raise returns [result]: [Ok v] or [Raise e]. *)

From Stdlib Require Import ZArith List Ascii Bool Lia PeanoNat.
From Stdlib Require String.
Import String.StringSyntax.
From Stdlib Require Decimal DecimalString DecimalZ.
From Stdlib Require Import SpecFloat.
From Equations Require Import Equations.
Import ListNotations.

Delimit Scope string_scope with string.
Local Open Scope list_scope.
Local Open Scope Z_scope.

(* ===================================================================== *)
(** * Python built-ins used by display.py                                 *)
(* ===================================================================== *)

Module Py.

(** ** Exceptions and results *)

Inductive exn : Type :=
| IndexError
| ValueError
| OverflowError
| ZeroDivisionError
| KeyboardInterrupt
| OSError.

Inductive result (A : Type) : Type :=
| Ok (a : A)
| Raise (e : exn).
Arguments Ok {A} a.
Arguments Raise {A} e.

Definition bind {A B : Type} (m : result A) (k : A -> result B) : result B :=
  match m with
  | Ok a => k a
  | Raise e => Raise e
  end.

Definition is_ok {A : Type} (m : result A) : bool :=
  match m with Ok _ => true | Raise _ => false end.

(** ** Strings *)

Definition str : Type := list ascii.

Definition lit (s : String.string) : str := String.list_ascii_of_string s.
Arguments lit s%_string.

Definition str_eq_dec : forall a b : str, {a = b} + {a <> b} :=
  list_eq_dec ascii_dec.

Definition str_eqb (a b : str) : bool :=
  if str_eq_dec a b then true else false.

Definition strs_eq_dec : forall a b : list str, {a = b} + {a <> b} :=
  list_eq_dec str_eq_dec.

(** [s.split(sep)] for a one-character separator: never the empty list. *)
Fixpoint split (sep : ascii) (s : str) : list str :=
  match s with
  | [] => [[]]
  | c :: t =>
      if Ascii.eqb c sep then [] :: split sep t
      else match split sep t with
           | h :: r => (c :: h) :: r
           | [] => [[c]]
           end
  end.

(** ["".join(parts)] *)
Definition join (parts : list str) : str := List.concat parts.

(** ** [int(s)] on a string, base 10.

    CPython skips white space at both ends, reads an optional sign and
    then digits, where single underscores may separate digits; anything
    else is a [ValueError].  White space is the ASCII set
    (tab, LF, VT, FF, CR, space) and, below code point 256, NEL (0x85)
    and NBSP (0xA0).  The configurable cap on the number of digits of
    recent CPython versions is not part of the model. *)

Definition is_space (c : ascii) : bool :=
  let n := nat_of_ascii c in
  ((9 <=? n) && (n <=? 13))%nat || (n =? 32)%nat || (n =? 133)%nat || (n =? 160)%nat.

Fixpoint lstrip (s : str) : str :=
  match s with
  | c :: t => if is_space c then lstrip t else s
  | [] => []
  end.

Definition rstrip (s : str) : str := rev (lstrip (rev s)).

Definition strip (s : str) : str := rstrip (lstrip s).

Definition digit_of (c : ascii) : option (Decimal.uint -> Decimal.uint) :=
  match nat_of_ascii c with
  | 48%nat => Some Decimal.D0
  | 49%nat => Some Decimal.D1
  | 50%nat => Some Decimal.D2
  | 51%nat => Some Decimal.D3
  | 52%nat => Some Decimal.D4
  | 53%nat => Some Decimal.D5
  | 54%nat => Some Decimal.D6
  | 55%nat => Some Decimal.D7
  | 56%nat => Some Decimal.D8
  | 57%nat => Some Decimal.D9
  | _ => None
  end.

(** digit+ ("_" digit+)*, to the end of the string *)
Fixpoint digits (s : str) : option Decimal.uint :=
  match s with
  | [] => None
  | c :: t =>
      match digit_of c with
      | None => None
      | Some d =>
          match t with
          | [] => Some (d Decimal.Nil)
          | u :: t' =>
              if Ascii.eqb u "_" then option_map d (digits t')
              else option_map d (digits t)
          end
      end
  end.

Definition signed_digits (s : str) : option Decimal.int :=
  match s with
  | c :: t =>
      if Ascii.eqb c "-" then option_map Decimal.Neg (digits t)
      else if Ascii.eqb c "+" then option_map Decimal.Pos (digits t)
      else option_map Decimal.Pos (digits s)
  | [] => None
  end.

Definition int_of_str (s : str) : result Z :=
  match signed_digits (strip s) with
  | Some d => Ok (Z.of_int d)
  | None => Raise ValueError
  end.

(** [f"{n}"] for an [int]: decimal digits, with a leading minus sign for a
    negative number. *)
Definition str_of_int (n : Z) : str :=
  String.list_ascii_of_string (DecimalString.NilZero.string_of_int (Z.to_int n)).

(** ** Floats: IEEE-754 binary64 *)

Definition prec : Z := 53.
Definition emax : Z := 1024.

Definition float : Type := spec_float.

Definition fmul : float -> float -> float := SFmul prec emax.
Definition fdiv : float -> float -> float := SFdiv prec emax.
Definition fsub : float -> float -> float := SFsub prec emax.
Definition fadd : float -> float -> float := SFadd prec emax.
Definition fabs : float -> float := SFabs.
Definition flt : float -> float -> bool := SFltb.
Definition fle : float -> float -> bool := SFleb.

Definition is_zero (x : float) : bool :=
  match x with S754_zero _ => true | _ => false end.

(** [float(n)] for an [int]: round to nearest, ties to even;
    [OverflowError] when the integer is too large. *)
Definition float_of_int (n : Z) : result float :=
  match binary_normalize prec emax n 0 false with
  | S754_infinity _ => Raise OverflowError
  | f => Ok f
  end.

(** [int(x)] for a [float]: truncation toward zero; [OverflowError] on an
    infinity and [ValueError] on a NaN. *)
Definition int_of_float (x : float) : result Z :=
  match x with
  | S754_nan => Raise ValueError
  | S754_infinity _ => Raise OverflowError
  | S754_zero _ => Ok 0
  | S754_finite s m e =>
      let v := if 0 <=? e then Zpos m * 2 ^ e else Zpos m / 2 ^ (- e) in
      Ok (if s then - v else v)
  end.

(** [n * x] with [n : int] and [x : float] *)
Definition int_mul_float (n : Z) (x : float) : result float :=
  bind (float_of_int n) (fun f => Ok (fmul f x)).

(** [n / x] with [n : int] and [x : float] *)
Definition int_div_float (n : Z) (x : float) : result float :=
  bind (float_of_int n) (fun f =>
    if is_zero x then Raise ZeroDivisionError else Ok (fdiv f x)).

(** [a / b] with [a b : int]: the exact quotient, rounded once. *)
Definition int_truediv (a b : Z) : result float :=
  if b =? 0 then Raise ZeroDivisionError
  else if a =? 0 then Ok (S754_zero (b <? 0))
  else
    let '(q, e, l) := SFdiv_core_binary prec emax (Z.abs a) 0 (Z.abs b) 0 in
    match binary_round_aux prec emax (xorb (a <? 0) (b <? 0)) q e l with
    | S754_infinity _ => Raise OverflowError
    | f => Ok f
    end.

(** [max(a, b)] and [min(a, b)] on floats: the first argument is kept
    unless the second compares strictly greater (smaller). *)
Definition fmax (a b : float) : float := if flt a b then b else a.
Definition fmin (a b : float) : float := if flt b a then b else a.

(** The float literals of display.py. *)
Definition f_0 : float := S754_zero false.
Definition f_1 : float := S754_finite false 0x10000000000000 (-52).
Definition f_2 : float := S754_finite false 0x10000000000000 (-51).
Definition f_0_01 : float := S754_finite false 0x147ae147ae147b (-59).
Definition f_1em6 : float := S754_finite false 0x10c6f7a0b5ed8d (-72).

(** ** Lists and loops *)

(** [l[i]]: a negative index counts from the end; [IndexError] outside. *)
Definition index {A : Type} (l : list A) (i : Z) : result A :=
  let n := Z.of_nat (length l) in
  let j := if i <? 0 then i + n else i in
  if (0 <=? j) && (j <? n) then
    match nth_error l (Z.to_nat j) with
    | Some a => Ok a
    | None => Raise IndexError
    end
  else Raise IndexError.

(** [range(n)] *)
Definition range (n : Z) : list Z := map Z.of_nat (seq 0 (Z.to_nat n)).

(** [for x in xs: body], threading the variables the body assigns. *)
Fixpoint for_each {A S : Type} (xs : list A) (body : A -> S -> result S) (st : S)
  : result S :=
  match xs with
  | [] => Ok st
  | x :: t => bind (body x st) (for_each t body)
  end.

End Py.

Import Py.

(* ===================================================================== *)
(** * display.py                                                          *)
(* ===================================================================== *)

Module Display.

Definition ESC : ascii := "027".
Definition NL : ascii := "010".

Definition RESET : str := ESC :: lit "[0m".
Definition HIDE_CURSOR : str := ESC :: lit "[?25l".
Definition SHOW_CURSOR : str := ESC :: lit "[?25h".
Definition CLS : str := ESC :: lit "[2J".
Definition HOME : str := ESC :: lit "[H".

(** A foreground colour: [None], [('truecolor', r, g, b)] or
    [('ansi256', idx)]. *)
Inductive color : Type :=
| truecolor (r g b : Z)
| ansi256 (idx : Z).

Definition fg : Type := option color.

Definition color_eq_dec : forall a b : color, {a = b} + {a <> b}.
Proof. decide equality; apply Z.eq_dec. Defined.

Definition fg_eq_dec : forall a b : fg, {a = b} + {a <> b}.
Proof. decide equality; apply color_eq_dec. Defined.

(** ** parse_ansi_line *)

(** The inner loop [while j < n and ln[j] != "m": j += 1], run on
    [ln[i+2:]]: the offset of the first ["m"], or [None] when the loop
    ends with [j >= n]. *)
Fixpoint find_m (s : str) : option nat :=
  match s with
  | [] => None
  | c :: t => if Ascii.eqb c "m" then Some 0%nat else option_map S (find_m t)
  end.

(** [parts[k]] where the code has checked [len(parts) > k] *)
Definition part (parts : list str) (k : nat) : str := nth k parts [].

(** The [if parts == ["0"] ... elif ... elif ...] chain: the new value of
    [active]. *)
Definition sgr (active : fg) (parts : list str) : fg :=
  if strs_eq_dec parts [lit "0"] then None
  else if (3 <=? length parts)%nat
          && str_eqb (part parts 0) (lit "38")
          && str_eqb (part parts 1) (lit "5")
  then
    match int_of_str (part parts 2) with
    | Ok idx => Some (ansi256 idx)
    | Raise _ => active
    end
  else if (5 <=? length parts)%nat
          && str_eqb (part parts 0) (lit "38")
          && str_eqb (part parts 1) (lit "2")
  then
    match
      bind (int_of_str (part parts 2)) (fun r =>
      bind (int_of_str (part parts 3)) (fun g =>
      bind (int_of_str (part parts 4)) (fun b =>
      Ok (truecolor r g b))))
    with
    | Ok c => Some c
    | Raise _ => active
    end
  else active.

(** [parts = params.split(";") if params else []] *)
Definition parts_of (params : str) : list str :=
  match params with
  | [] => []
  | _ => split ";" params
  end.

(** [ch == "\x1b" and i + 1 < n and ln[i + 1] == "["], with [rest = ln[i+1:]] *)
Definition introducer (ch : ascii) (rest : str) : bool :=
  Ascii.eqb ch ESC &&
  match rest with
  | c :: _ => Ascii.eqb c "["
  | [] => false
  end.

(** The outer [while i < n] loop, on the suffix [ln[i:]], with the state
    [active], [chars], [fgs]. *)
Equations? parse_loop (ln : str) (active : fg) (chars : list ascii) (fgs : list fg)
  : list ascii * list fg by wf (length ln) lt :=
  parse_loop [] active chars fgs := (chars, fgs);
  parse_loop (ch :: rest) active chars fgs :=
    if introducer ch rest then
      match find_m (tl rest) with
      | None => (chars, fgs)
      | Some k =>
          parse_loop (skipn (S k) (tl rest))
                     (sgr active (parts_of (firstn k (tl rest)))) chars fgs
      end
    else if Ascii.eqb ch NL then parse_loop rest active chars fgs
    else parse_loop rest active (chars ++ [ch]) (fgs ++ [active]).
Proof.
  all: try (simpl; lia).
  change (length (skipn (S k) (tl rest)) < S (length rest))%nat.
  rewrite length_skipn. destruct rest; simpl; lia.
Qed.

Definition parse_ansi_line (ln : str) : list ascii * list fg :=
  parse_loop ln None [] [].

(** ** color_code_from_fg *)

Definition color_code_from_fg (c : fg) : str :=
  match c with
  | None => []
  | Some (truecolor r g b) =>
      ESC :: lit "[38;2;" ++ str_of_int r ++ lit ";" ++ str_of_int g
          ++ lit ";" ++ str_of_int b ++ lit "m"
  | Some (ansi256 idx) =>
      ESC :: lit "[38;5;" ++ str_of_int idx ++ lit "m"
  end.

(** ** scale_lines *)

(** The result of [shutil.get_terminal_size(fallback=(80, 24))]. *)
Record terminal_size : Type := { term_columns : Z; term_lines : Z }.

(** Lines 80-88: the scale [s]. *)
Definition decide_scale (width height : Z) (scale : float)
    (fit_to_terminal : bool) (term : terminal_size) : result float :=
  if fit_to_terminal then
    bind (int_truediv (term_columns term) (Z.max 1 width)) (fun s_w =>
    bind (int_truediv (Z.max 1 (term_lines term - 1)) (Z.max 1 height)) (fun s_h =>
    let s := fmin s_w s_h in
    Ok (if fle s f_0 then f_1 else s)))
  else Ok (fmax f_0_01 scale).

(** [int(n * s)] and [int(n / s)] *)
Definition int_mul (n : Z) (s : float) : result Z :=
  bind (int_mul_float n s) int_of_float.
Definition int_div (n : Z) (s : float) : result Z :=
  bind (int_div_float n s) int_of_float.

(** The body of [for co in range(tgt_w_row)], on the state [(parts, prev_fg)]. *)
Definition col_step (s : float) (chars_row : list ascii) (fgs_row : list fg)
    (row_w : Z) (co : Z) (st : list str * fg) : result (list str * fg) :=
  let '(parts, prev_fg) := st in
  bind (int_div co s) (fun q =>
  let cs := Z.min (row_w - 1) q in
  bind (index fgs_row cs) (fun fg =>
  bind (index chars_row cs) (fun ch =>
  let '(parts, prev_fg) :=
    if fg_eq_dec fg prev_fg then (parts, prev_fg)
    else (parts ++ [match fg with
                    | None => RESET
                    | Some _ => color_code_from_fg fg
                    end], fg) in
  Ok (parts ++ [[ch]], prev_fg)))).

(** Lines 112-123: the list [parts] of one non-empty row, up to and
    including the trailing [RESET]. *)
Definition row_parts (s : float) (chars_row : list ascii) (fgs_row : list fg)
  : result (list str) :=
  let row_w := Z.of_nat (length chars_row) in
  bind (int_mul row_w s) (fun w =>
  let tgt_w_row := Z.max 1 w in
  bind (for_each (range tgt_w_row) (col_step s chars_row fgs_row row_w)
                 ([], None)) (fun st =>
  Ok (fst st ++ [RESET]))).

(** The body of [for ro in range(tgt_h)], on the state [new_lines]. *)
Definition row_step (s : float) (parsed : list (list ascii * list fg))
    (src_h : Z) (ro : Z) (new_lines : list str) : result (list str) :=
  bind (int_div ro s) (fun q =>
  let rs := Z.min (src_h - 1) q in
  bind (index parsed rs) (fun row =>
  let '(chars_row, fgs_row) := row in
  if (length chars_row =? 0)%nat then Ok (new_lines ++ [RESET])
  else
    bind (row_parts s chars_row fgs_row) (fun parts =>
    Ok (new_lines ++ [join parts])))).

(** Lines 93-125: the resampling pass at scale [s]. *)
Definition resample (lines : list str) (width height : Z) (s : float)
  : result (list str) :=
  let parsed := map parse_ansi_line lines in
  let src_h := Z.of_nat (length parsed) in
  let src_w := match parsed with
               | row :: _ => Z.of_nat (length (fst row))
               | [] => 0
               end in
  let src_w := if src_w =? 0 then Z.max 1 width else src_w in
  let src_h := if src_h =? 0 then Z.max 1 height else src_h in
  bind (int_mul src_w s) (fun w =>
  let tgt_w := Z.max 1 w in
  bind (int_mul src_h s) (fun h =>
  let tgt_h := Z.max 1 h in
  for_each (range tgt_h) (row_step s parsed src_h) [])).

Definition scale_lines (lines : list str) (width height : Z) (scale : float)
    (fit_to_terminal : bool) (term : terminal_size) : result (list str) :=
  bind (decide_scale width height scale fit_to_terminal term) (fun s =>
  if flt (fabs (fsub s f_1)) f_1em6 then Ok lines
  else resample lines width height s).

(** ** main: the playback loop (lines 153-194)

    What the loop does to the outside is a list of [event]s.  The outside
    acts on the loop through a [world]: the readings of
    [time.perf_counter()], the terminal size seen by each call of
    [scale_lines], and [faults], which says at which step an exception
    arrives from outside the program text: [KeyboardInterrupt] when the
    user interrupts, [OSError] when a write fails.  Steps are counted in
    [ticks]; every call the loop makes is one step. *)

Inductive event : Type :=
| Write (s : str)
| Flush
| Sleep (d : float).

Record world : Type := {
  faults : nat -> option exn;
  perf_counter : nat -> float;
  get_terminal_size : nat -> terminal_size
}.

Record io : Type := { ticks : nat; written : list event }.

Definition M (A : Type) : Type := io -> io * result A.

Definition ret {A : Type} (a : A) : M A := fun o => (o, Ok a).

Definition mbind {A B : Type} (m : M A) (k : A -> M B) : M B :=
  fun o =>
    match m o with
    | (o', Ok a) => k a o'
    | (o', Raise e) => (o', Raise e)
    end.

Notation "x <- m ;; k" := (mbind m (fun x => k))
  (at level 61, m at next level, right associativity).
Notation "m ;;; k" := (mbind m (fun _ => k))
  (at level 61, right associativity).

Section Playback.

Variable w : world.

(** One step: the exception that arrives at this step, if any, is raised
    in place of the call. *)
Definition call {A : Type} (f : io -> io * result A) : M A :=
  fun o =>
    let o' := {| ticks := S (ticks o); written := written o |} in
    match faults w (ticks o) with
    | Some e => (o', Raise e)
    | None => f o'
    end.

Definition emit (e : event) : M unit :=
  call (fun o => ({| ticks := ticks o; written := written o ++ [e] |}, Ok tt)).

Definition out_write (s : str) : M unit := emit (Write s).
Definition out_flush : M unit := emit Flush.
Definition time_sleep (d : float) : M unit := emit (Sleep d).

Definition time_perf_counter : M float :=
  fun o => call (fun o' => (o', Ok (perf_counter w (ticks o)))) o.

(** A computation of the program itself, which may raise. *)
Definition compute {A : Type} (f : terminal_size -> result A) : M A :=
  fun o => call (fun o' => (o', f (get_terminal_size w (ticks o)))) o.

Fixpoint mfor_each {A : Type} (xs : list A) (body : A -> M unit) : M unit :=
  match xs with
  | [] => ret tt
  | x :: t => body x ;;; mfor_each t body
  end.

(** A frame record: [frame.get("lines", [])]. *)
Record frame : Type := { get_lines : option (list str) }.

Record config : Type := {
  frames : list frame;
  width : Z;
  height : Z;
  frame_dt : float;
  args_loop : bool;
  args_scale : float;
  args_fit : bool;
  args_no_clear : bool
}.

Variable c : config.

(** One iteration of [while True]: [None] is [break], [Some (idx,
    start_time)] goes round again.  [pace] is lines 184-187. *)
Definition iteration (idx : Z) (start_time : float) : M (option (Z * float)) :=
  frame <- compute (fun _ => index (frames c) idx) ;;
  let lines := match get_lines frame with Some l => l | None => [] end in
  lines <- (if args_fit c || flt f_1em6 (fabs (fsub (args_scale c) f_1))
            then compute (scale_lines lines (width c) (height c)
                                      (args_scale c) (args_fit c))
            else ret lines) ;;
  out_write HOME ;;;
  mfor_each lines (fun ln => out_write ln ;;; out_write [NL]) ;;;
  out_flush ;;;
  let idx := idx + 1 in
  let pace (idx : Z) (start_time : float) : M (option (Z * float)) :=
    d <- compute (fun _ => int_mul_float idx (frame_dt c)) ;;
    let next_time := fadd start_time d in
    now <- time_perf_counter ;;
    let sleep_for := fsub next_time now in
    (if flt f_0 sleep_for then time_sleep sleep_for else ret tt) ;;;
    ret (Some (idx, start_time)) in
  if Z.of_nat (length (frames c)) <=? idx then
    if args_loop c then
      start_time <- time_perf_counter ;;
      pace 0 start_time
    else ret None
  else pace idx start_time.

(** [while True], for at most [fuel] iterations: [None] when the loop is
    still running after them. *)
Fixpoint while_true (fuel : nat) (idx : Z) (start_time : float) (o : io)
  : option (io * result unit) :=
  match fuel with
  | O => None
  | S fuel' =>
      match iteration idx start_time o with
      | (o', Raise e) => Some (o', Raise e)
      | (o', Ok None) => Some (o', Ok tt)
      | (o', Ok (Some (idx', start_time'))) => while_true fuel' idx' start_time' o'
      end
  end.

(** The body of [try]. *)
Definition try_body (fuel : nat) (o : io) : option (io * result unit) :=
  match time_perf_counter o with
  | (o', Raise e) => Some (o', Raise e)
  | (o', Ok start_time) => while_true fuel 0 start_time o'
  end.

(** The [finally] block. *)
Definition cleanup : M unit :=
  out_write RESET ;;; out_write SHOW_CURSOR ;;; out_flush.

(** [try: ... except KeyboardInterrupt: pass finally: ...]: the handler
    swallows an interrupt, the [finally] block runs on every exit of the
    body, and an exception that is not handled is raised again after it
    unless the block itself raises. *)
Definition playback (fuel : nat) (o : io) : option (io * result unit) :=
  match try_body fuel o with
  | None => None
  | Some (o', r) =>
      let r' := match r with
                | Raise KeyboardInterrupt => Ok tt
                | _ => r
                end in
      match cleanup o' with
      | (o'', Ok _) => Some (o'', r')
      | (o'', Raise e) => Some (o'', Raise e)
      end
  end.

(** Lines 153-158, then the [try] statement. *)
Definition main (fuel : nat) : option (io * result unit) :=
  let setup :=
    out_write HIDE_CURSOR ;;;
    (if args_no_clear c then ret tt else out_write CLS) ;;;
    out_write HOME ;;;
    out_flush in
  match setup {| ticks := O; written := [] |} with
  | (o, Raise e) => Some (o, Raise e)
  | (o, Ok _) => playback fuel o
  end.

End Playback.

End Display.

Import Display.

(* ===================================================================== *)
(** * Vocabulary of the statements                                        *)
(* ===================================================================== *)

(** ** Lines and escape sequences *)

(** A plain glyph: any character but [ESC] and the newline. *)
Definition plain_char (ch : ascii) : Prop := ch <> ESC /\ ch <> NL.

Definition plain (glyphs : str) : Prop := Forall plain_char glyphs.

(** A field is numeric when [int()] accepts it. *)
Definition numeric (s : str) : Prop := exists z, int_of_str s = Ok z.

(** The two recognised forms, with anything after them. *)
Definition indexed_prefix (parts : list str) : Prop :=
  exists idx more, parts = lit "38" :: lit "5" :: idx :: more /\ numeric idx.

Definition truecolor_prefix (parts : list str) : Prop :=
  exists r g b more,
    parts = lit "38" :: lit "2" :: r :: g :: b :: more /\
    numeric r /\ numeric g /\ numeric b.

(** ** Positions of the decoder *)

(** On any line that starts with [pre] followed by an [ESC], the decoder
    reads [pre] and arrives at this [ESC] with the colour [active] and
    the lists [chars] and [fgs], whatever follows the [ESC]. *)
Definition scans (pre : str) (active : fg) (chars : list ascii) (fgs : list fg)
  : Prop :=
  forall tail,
    parse_loop (pre ++ ESC :: tail) None [] []
    = parse_loop (ESC :: tail) active chars fgs.

(** The colour [c] is what [int()] reads from the fields of [params]:
    the third field after ["38"] and ["5"], or the third, fourth and
    fifth after ["38"] and ["2"], each field taken whole. *)
Definition read_from (params : str) (c : color) : Prop :=
  match c with
  | ansi256 idx =>
      exists I more,
        parts_of params = lit "38" :: lit "5" :: I :: more /\
        int_of_str I = Ok idx
  | truecolor r g b =>
      exists R G B more,
        parts_of params = lit "38" :: lit "2" :: R :: G :: B :: more /\
        int_of_str R = Ok r /\ int_of_str G = Ok g /\ int_of_str B = Ok b
  end.

(** The line [ln] holds an escape sequence [ESC [ params m] that the
    decoder arrives at and that [c] is read from. *)
Definition set_by_sequence (ln : str) (c : color) : Prop :=
  exists pre params post active chars fgs,
    ln = pre ++ ESC :: "["%char :: params ++ "m"%char :: post /\
    ~ In "m"%char params /\
    scans pre active chars fgs /\
    read_from params c.

(** ** Decimal numerals *)

Definition digit_char (c : ascii) : Prop := exists d, digit_of c = Some d.

(** The characters of a decimal numeral: digits and the minus sign. *)
Definition numeral_char (c : ascii) : Prop := digit_char c \/ c = "-"%char.

(** The characters of the decimal numeral [u]. *)
Definition uint_chars (u : Decimal.uint) : str :=
  String.list_ascii_of_string (DecimalString.NilEmpty.string_of_uint u).

(** ** Rows, glyphs and colour runs *)

(** The escape code written on a change of colour. *)
Definition transition (f : fg) : str :=
  match f with
  | None => RESET
  | Some _ => color_code_from_fg f
  end.

(** What the column loop appends for a sequence of cells, the cursor
    being [prev]. *)
Fixpoint emit_cells (prev : fg) (cells : list (ascii * fg)) : list str :=
  match cells with
  | [] => []
  | (ch, f) :: t =>
      if fg_eq_dec f prev then [ch] :: emit_cells prev t
      else transition f :: [ch] :: emit_cells f t
  end.

(** Every element twice in a row. *)
Definition twice {A : Type} (l : list A) : list A := flat_map (fun x => [x; x]) l.

(** One source row at scale 2.0, as the row loop writes it. *)
Definition row_two (row : list ascii * list fg) : str :=
  match fst row with
  | [] => RESET
  | _ => join (emit_cells None (twice (combine (fst row) (snd row))) ++ [RESET])
  end.

(** A decoded row of a size that fits the exact range of binary64. *)
Definition small_row (row : list ascii * list fg) : Prop :=
  length (fst row) = length (snd row) /\ Z.of_nat (length (fst row)) < 2 ^ 52.

(** A part that is one character long is a glyph; the escape codes are
    longer. *)
Definition is_glyph (p : str) : bool :=
  match p with
  | [_] => true
  | _ => false
  end.

Definition glyphs (parts : list str) : list str := filter is_glyph parts.

Definition codes (parts : list str) : list str :=
  filter (fun p => negb (is_glyph p)) parts.

(** The number of colour runs: maximal blocks of equal neighbours. *)
Fixpoint runs (fgs : list fg) : nat :=
  match fgs with
  | [] => 0
  | f :: t =>
      match t with
      | [] => 1
      | g :: _ => if fg_eq_dec f g then runs t else S (runs t)
      end
  end.

(** The number of cells whose colour differs from the one before, the
    colour before the first cell being [prev]. *)
Fixpoint changes (prev : fg) (fgs : list fg) : nat :=
  match fgs with
  | [] => 0
  | f :: t => (if fg_eq_dec f prev then 0 else 1) + changes f t
  end.

(** ** Steps of the playback loop *)

(** Nothing arrives from outside during the steps [n], [n+1], ..., [n+k-1]. *)
Definition quiet (w : world) (n k : nat) : Prop :=
  forall j, (n <= j < n + k)%nat -> faults w j = None.

(** A computation only moves the step counter forward, and when it
    returns normally nothing has arrived at the steps it took. *)
Definition advances (w : world) {A : Type} (m : M A) : Prop :=
  forall o o' r, m o = (o', r) ->
    (ticks o <= ticks o')%nat /\
    (forall a, r = Ok a -> quiet w (ticks o) (ticks o' - ticks o)).

(** A single call takes one step. *)
Definition one_step (w : world) {A : Type} (m : M A) : Prop :=
  forall o o' r, m o = (o', r) ->
    ticks o' = S (ticks o) /\ (forall a, r = Ok a -> faults w (ticks o) = None).

(** ** Concrete inputs *)

(** 1.0000005, which is within 1e-6 of 1.0 *)
Definition f_1_0000005 : float := S754_finite false 0x1000008637bd06 (-52).

Definition term80x24 : terminal_size := {| term_columns := 80; term_lines := 24 |}.

(** A two-frame video, played at scale 2.0 and 30 frames per second. *)
Definition demo_frames : list frame :=
  [ {| get_lines := Some [lit "ab"] |}; {| get_lines := Some [lit "cd"] |} ].

Definition demo_config (loop : bool) (frs : list frame) : config :=
  {| frames := frs; width := 2; height := 1;
     frame_dt := S754_finite false 0x11111111111111 (-57);
     args_loop := loop; args_scale := f_2; args_fit := false;
     args_no_clear := false |}.

(** The clock stands still and the user interrupts at step [k]. *)
Definition interrupt_at (k : nat) : world :=
  {| faults := fun j => if (j =? k)%nat then Some KeyboardInterrupt else None;
     perf_counter := fun _ => f_0;
     get_terminal_size := fun _ => term80x24 |}.

(** Nothing arrives from outside. *)
Definition no_faults : world :=
  {| faults := fun _ => None;
     perf_counter := fun _ => f_0;
     get_terminal_size := fun _ => term80x24 |}.

(** The clock stands still and the user interrupts at the steps [k1] and
    [k2]. *)
Definition interrupt_twice (k1 k2 : nat) : world :=
  {| faults := fun j => if ((j =? k1) || (j =? k2))%nat
                        then Some KeyboardInterrupt else None;
     perf_counter := fun _ => f_0;
     get_terminal_size := fun _ => term80x24 |}.

(** The output fails from step [k] on: every call raises [OSError]. *)
Definition broken_output (k : nat) : world :=
  {| faults := fun j => if (k <=? j)%nat then Some OSError else None;
     perf_counter := fun _ => f_0;
     get_terminal_size := fun _ => term80x24 |}.

Definition start : io := {| ticks := 0; written := [] |}.

(** ** More vocabulary *)

(** [g] is [l] with some elements left out. *)
Inductive subseq {A : Type} : list A -> list A -> Prop :=
| subseq_nil : subseq [] []
| subseq_keep (x : A) (g l : list A) : subseq g l -> subseq (x :: g) (x :: l)
| subseq_skip (x : A) (g l : list A) : subseq g l -> subseq g (x :: l).

(** A line with its newlines taken out. *)
Definition without_newlines (ln : str) : str :=
  filter (fun ch => negb (Ascii.eqb ch NL)) ln.

(** The cursor of the column loop after the cells [cells], started at
    [prev]. *)
Fixpoint cursor (prev : fg) (cells : list (ascii * fg)) : fg :=
  match cells with
  | [] => prev
  | (_, f) :: t => cursor f t
  end.

(** The cells of a decoded row: each glyph with its colour. *)
Definition cells_of (row : list ascii * list fg) : list (ascii * fg) :=
  combine (fst row) (snd row).

(** What the row loop can write for the decoded source row [src] at
    scale [s]: a lone reset code for a row without glyphs, and otherwise
    the run-length encoding of max(1, int(W * s)) cells picked from the
    row, closed by a reset code. *)
Definition resampled_from (s : float) (src : list ascii * list fg) (row : str)
  : Prop :=
  (fst src = [] /\ row = RESET) \/
  (fst src <> [] /\
   exists w picked,
     int_mul (Z.of_nat (length (fst src))) s = Ok w /\
     length picked = Z.to_nat (Z.max 1 w) /\
     Forall (fun cell => In cell (cells_of src)) picked /\
     row = join (emit_cells None picked ++ [RESET])).

Definition ends_with_reset (row : str) : Prop := exists pre, row = pre ++ RESET.

(** The test of line 90. *)
Definition near_one (s : float) : bool := flt (fabs (fsub s f_1)) f_1em6.

(** [x] is a zero, a finite number or an infinity of sign [b]. *)
Definition signed (b : bool) (x : float) : Prop :=
  match x with
  | S754_zero s | S754_infinity s | S754_finite s _ _ => s = b
  | S754_nan => False
  end.

(** [x] is a number: not an infinity and not a NaN. *)
Definition is_number (x : float) : Prop :=
  match x with
  | S754_zero _ | S754_finite _ _ _ => True
  | _ => False
  end.

(** 0.5 *)
Definition f_half : float := S754_finite false 0x10000000000000 (-53).

(** The elements at the even positions 0, 2, 4, ..., as many as half the
    length rounded down, and at least the first one. *)
Definition every_second {A : Type} (l : list A) : list A :=
  flat_map (fun i => match nth_error l (2 * i) with
                     | Some x => [x]
                     | None => []
                     end)
           (seq 0 (Nat.max 1 (length l / 2))).

(** One source row at scale 0.5, as the row loop writes it. *)
Definition row_half (row : list ascii * list fg) : str :=
  match fst row with
  | [] => RESET
  | _ => join (emit_cells None (every_second (cells_of row)) ++ [RESET])
  end.

(** ** More vocabulary for the playback loop *)

(** Everything but a sleep. *)
Definition is_output (e : event) : bool :=
  match e with
  | Sleep _ => false
  | _ => true
  end.

(** Lines 165-168: the lines of a frame as they are displayed, the
    terminal being [term] when [scale_lines] is called. *)
Definition display_lines (c : config) (term : terminal_size) (fr : frame)
  : result (list str) :=
  let lines := match get_lines fr with Some l => l | None => [] end in
  if args_fit c || flt f_1em6 (fabs (fsub (args_scale c) f_1))
  then scale_lines lines (width c) (height c) (args_scale c) (args_fit c) term
  else Ok lines.

(** What lines 170-174 write for the lines [ls]. *)
Definition render (ls : list str) : list event :=
  Write HOME :: flat_map (fun ln => [Write ln; Write [NL]]) ls ++ [Flush].

(** What lines 154-158 write. *)
Definition setup_events (c : config) : list event :=
  Write HIDE_CURSOR ::
  (if args_no_clear c then [] else [Write CLS]) ++ [Write HOME; Flush].

(** A sleep is asked for a duration above zero only. *)
Definition sound_event (e : event) : Prop :=
  match e with
  | Sleep d => flt f_0 d = true
  | _ => True
  end.

(** A computation that leaves the written events sound. *)
Definition keeps_sound {A : Type} (m : M A) : Prop :=
  forall o o' r, m o = (o', r) ->
    Forall sound_event (written o) -> Forall sound_event (written o').

(** The lines [ls] are what the frame [fr] is displayed as at the
    terminal size of some step. *)
Definition displayed (w : world) (c : config) (fr : frame) (ls : list str) : Prop :=
  exists k, display_lines c (get_terminal_size w k) fr = Ok ls.

(** The two-frame video played with [--fit]. *)
Definition fit_config (loop : bool) : config :=
  {| frames := demo_frames; width := 2; height := 1;
     frame_dt := S754_finite false 0x11111111111111 (-57);
     args_loop := loop; args_scale := f_1; args_fit := true;
     args_no_clear := false |}.

(** Nothing is raised, and the terminal is resized from 4x3 to 8x5 at
    step [k]. *)
Definition resized_at (k : nat) : world :=
  {| faults := fun _ => None;
     perf_counter := fun _ => f_0;
     get_terminal_size := fun j =>
       if (j <? k)%nat then {| term_columns := 4; term_lines := 3 |}
       else {| term_columns := 8; term_lines := 5 |} |}.

(* ===================================================================== *)
(** * Properties                                                          *)
(* ===================================================================== *)

(** ** The built-ins on concrete inputs *)

Example int_of_str_ex1 : int_of_str (lit " 12 ") = Ok 12.
Proof. reflexivity. Qed.
Example int_of_str_ex2 : int_of_str (lit "-5") = Ok (-5).
Proof. reflexivity. Qed.
Example int_of_str_ex3 : int_of_str (lit "1_0_0") = Ok 100.
Proof. reflexivity. Qed.
Example int_of_str_ex4 : int_of_str (lit "1__0") = Raise ValueError.
Proof. reflexivity. Qed.
Example int_of_str_ex5 : int_of_str (lit "1_") = Raise ValueError.
Proof. reflexivity. Qed.
Example int_of_str_ex6 : int_of_str (lit "+ 5") = Raise ValueError.
Proof. reflexivity. Qed.
Example int_of_str_ex7 : int_of_str (lit "007") = Ok 7.
Proof. reflexivity. Qed.
Example int_of_str_ex8 : int_of_str (lit "") = Raise ValueError.
Proof. reflexivity. Qed.
Example str_of_int_ex1 : str_of_int (-5) = lit "-5" /\ str_of_int 0 = lit "0" /\ str_of_int 255 = lit "255".
Proof. repeat split; reflexivity. Qed.
Example split_ex1 : split ";" (lit "a;;b") = [lit "a"; lit ""; lit "b"] /\ split ";" (lit "") = [lit ""].
Proof. split; reflexivity. Qed.

Example float_literals :
  float_of_int 1 = Ok f_1 /\ float_of_int 2 = Ok f_2 /\
  int_truediv 1 100 = Ok f_0_01 /\ int_truediv 1 1000000 = Ok f_1em6 /\
  float_of_int 0 = Ok f_0.
Proof. repeat split; vm_compute; reflexivity. Qed.
Example int_of_float_ex1 :
  bind (int_truediv 29 10) int_of_float = Ok 2 /\
  bind (int_truediv (-29) 10) int_of_float = Ok (-2) /\
  bind (int_truediv (-1) 2) int_of_float = Ok 0 /\
  bind (int_mul_float 3 f_0_01) int_of_float = Ok 0 /\
  bind (bind (int_div_float 7 f_2) int_of_float) (fun n => Ok n) = Ok 3 /\
  bind (int_div_float 150 f_0_01) int_of_float = Ok 15000 /\
  int_div_float 1 f_0 = Raise ZeroDivisionError /\
  int_of_float (S754_infinity false) = Raise OverflowError.
Proof. repeat split; vm_compute; reflexivity. Qed.
Example int_truediv_ex1 :
  int_truediv 19 40 = Ok (S754_finite false 0x1e666666666666 (-54)) /\
  int_truediv (10 ^ 30) 7 = Ok (S754_finite false 0x1cd98a8b00a10b 44) /\
  int_truediv 40 80 = Ok (S754_finite false 0x10000000000000 (-53)) /\
  int_truediv 1 3 = Ok (S754_finite false 0x15555555555555 (-54)).
Proof. repeat split; vm_compute; reflexivity. Qed.

Example parse_ex1 :
  parse_ansi_line (lit "ab" ++ ESC :: lit "[38;5;7mc" ++ ESC :: lit "[0md" ++ [NL])
  = (lit "abcd", [None; None; Some (ansi256 7); None]).
Proof. reflexivity. Qed.

Example decide_scale_fit :
  decide_scale 80 40 f_1 true {| term_columns := 40; term_lines := 20 |}
  = int_truediv 19 40.
Proof. vm_compute. reflexivity. Qed.

Example scale_ex1 :
  scale_lines [lit "ab" ++ ESC :: lit "[38;5;7mc"] 3 1 f_2 false term80x24
  = Ok [lit "aabb" ++ ESC :: lit "[38;5;7mcc" ++ RESET;
        lit "aabb" ++ ESC :: lit "[38;5;7mcc" ++ RESET].
Proof. vm_compute. reflexivity. Qed.

(** ** The decoder: how one scanning step rewrites the loop *)

Lemma parse_loop_nil (active : fg) chars fgs :
  parse_loop [] active chars fgs = (chars, fgs).
Proof. now rewrite parse_loop_equation_1. Qed.

Lemma parse_loop_introducer (body : str) (active : fg) chars fgs :
  parse_loop (ESC :: "["%char :: body) active chars fgs =
  match find_m body with
  | Some k =>
      parse_loop (skipn (S k) body)
                 (sgr active (parts_of (firstn k body))) chars fgs
  | None => (chars, fgs)
  end.
Proof. now rewrite parse_loop_equation_2. Qed.

Lemma parse_loop_glyph (ch : ascii) (rest : str) (active : fg) chars fgs :
  introducer ch rest = false -> ch <> NL ->
  parse_loop (ch :: rest) active chars fgs =
  parse_loop rest active (chars ++ [ch]) (fgs ++ [active]).
Proof.
  intros Hi Hn. rewrite parse_loop_equation_2, Hi.
  apply Ascii.eqb_neq in Hn. now rewrite Hn.
Qed.

Lemma parse_loop_newline (rest : str) (active : fg) chars fgs :
  parse_loop (NL :: rest) active chars fgs = parse_loop rest active chars fgs.
Proof. now rewrite parse_loop_equation_2. Qed.

Lemma find_m_app (params rest : str) :
  ~ In "m"%char params ->
  find_m (params ++ "m"%char :: rest) = Some (length params).
Proof.
  induction params as [|c t IH]; simpl; intros H.
  - reflexivity.
  - destruct (Ascii.eqb_spec c "m") as [->|_].
    + exfalso. apply H. now left.
    + rewrite IH; [reflexivity|]. intros Hin. apply H. now right.
Qed.

Lemma find_m_none (s : str) : ~ In "m"%char s -> find_m s = None.
Proof.
  induction s as [|c t IH]; simpl; intros H.
  - reflexivity.
  - destruct (Ascii.eqb_spec c "m") as [->|_].
    + exfalso. apply H. now left.
    + rewrite IH; [reflexivity|]. intros Hin. apply H. now right.
Qed.

Lemma find_m_some (s : str) (k : nat) :
  find_m s = Some k ->
  exists rest, s = firstn k s ++ "m"%char :: rest /\ skipn (S k) s = rest /\
               ~ In "m"%char (firstn k s) /\ length (firstn k s) = k.
Proof.
  revert k. induction s as [|c t IH]; simpl; intros k H.
  - discriminate.
  - destruct (Ascii.eqb_spec c "m") as [->|Hc].
    + injection H as <-. exists t. simpl. auto.
    + destruct (find_m t) as [k'|] eqn:E; [|discriminate].
      injection H as <-. destruct (IH k' eq_refl) as (rest & H1 & H2 & H3 & H4).
      exists rest. simpl. repeat split.
      * now rewrite <- H1.
      * exact H2.
      * intros [Hm|Hm]; [now apply Hc|now apply H3].
      * now rewrite H4.
Qed.

Lemma firstn_length_app {A : Type} (p r : list A) :
  firstn (length p) (p ++ r) = p.
Proof. induction p as [|x p IH]; simpl; [now destruct r|now rewrite IH]. Qed.

Lemma skipn_length_app {A : Type} (p r : list A) (x : A) :
  skipn (S (length p)) (p ++ x :: r) = r.
Proof. induction p as [|y p IH]; simpl; [reflexivity|exact IH]. Qed.

(** A terminated sequence is consumed whole and only changes [active]. *)
Lemma parse_loop_sequence (params rest : str) (active : fg) chars fgs :
  ~ In "m"%char params ->
  parse_loop (ESC :: "["%char :: params ++ "m"%char :: rest) active chars fgs =
  parse_loop rest (sgr active (parts_of params)) chars fgs.
Proof.
  intros H. rewrite parse_loop_introducer, (find_m_app _ _ H).
  now rewrite firstn_length_app, skipn_length_app.
Qed.

Lemma introducer_plain (ch : ascii) (rest : str) :
  ch <> ESC -> introducer ch rest = false.
Proof.
  intros H. unfold introducer. apply Ascii.eqb_neq in H. now rewrite H.
Qed.

(** Plain text is copied glyph by glyph under the active colour. *)
Lemma parse_loop_plain (glyphs rest : str) (active : fg) chars fgs :
  plain glyphs ->
  parse_loop (glyphs ++ rest) active chars fgs =
  parse_loop rest active (chars ++ glyphs) (fgs ++ repeat active (length glyphs)).
Proof.
  intros H. revert chars fgs.
  induction H as [|ch t [He Hn] _ IH]; intros chars fgs; simpl.
  - now rewrite !app_nil_r.
  - rewrite parse_loop_glyph by (auto using introducer_plain).
    rewrite IH, <- !app_assoc. reflexivity.
Qed.

(** ** Claims about the decoder *)

(** C2, as stated, fails.  After [ESC[38;5;1m], the sequence [ESC[m] does
    not reset the colour: the glyph [b] that follows it is still paired
    with palette colour 1, where the claim wants [None]. *)
Lemma empty_params_counterexample :
  let ln := ESC :: lit "[38;5;1ma" ++ ESC :: lit "[mb" in
  parse_ansi_line ln = (lit "ab", [Some (ansi256 1); Some (ansi256 1)]) /\
  snd (parse_ansi_line ln) <> [Some (ansi256 1); None].
Proof. split; [reflexivity|discriminate]. Qed.

(** C2, amended.  A sequence with an empty parameter list is consumed
    and leaves the active colour as it was: the glyphs that follow it are
    paired with the colour that was active before it.  The parameter list
    ["0"] is the one that resets: the glyphs that follow it are paired
    with [None]. *)
Theorem empty_params_keep_active (glyphs rest : str) (active : fg) chars fgs :
  plain glyphs ->
  parse_loop (ESC :: lit "[m" ++ glyphs ++ rest) active chars fgs =
    parse_loop rest active (chars ++ glyphs)
               (fgs ++ repeat active (length glyphs))
  /\
  parse_loop (ESC :: lit "[0m" ++ glyphs ++ rest) active chars fgs =
    parse_loop rest None (chars ++ glyphs)
               (fgs ++ repeat None (length glyphs)).
Proof.
  intros H. split.
  - change (ESC :: lit "[m" ++ glyphs ++ rest)
      with (ESC :: "["%char :: [] ++ "m"%char :: glyphs ++ rest).
    rewrite parse_loop_sequence by (intros []).
    change (sgr active (parts_of [])) with active.
    now apply parse_loop_plain.
  - change (ESC :: lit "[0m" ++ glyphs ++ rest)
      with (ESC :: "["%char :: lit "0" ++ "m"%char :: glyphs ++ rest).
    rewrite parse_loop_sequence by (simpl; intros [H0|[]]; discriminate).
    change (sgr active (parts_of (lit "0"))) with (@None color).
    now apply parse_loop_plain.
Qed.

Lemma plain_b : plain (lit "b").
Proof. repeat constructor; discriminate. Defined.

Lemma empty_params_keep_active_witness :
  plain (lit "b") /\
  parse_loop (ESC :: lit "[m" ++ lit "b" ++ []) (Some (ansi256 1)) (lit "a")
             [Some (ansi256 1)]
  = (lit "ab", [Some (ansi256 1); Some (ansi256 1)]).
Proof.
  split; [exact plain_b|].
  exact (proj1 (empty_params_keep_active (lit "b") [] (Some (ansi256 1))
                  (lit "a") [Some (ansi256 1)] plain_b)).
Defined.

(** C4, as stated, fails.  [ESC[38;5;7;99m] is not exactly
    ["38","5",idx], yet it sets the colour to palette entry 7; and
    [ESC[38;2;1;2;3;4m] sets the colour to (1,2,3).  The claim wants the
    prior colour, [None], in both cases. *)
Lemma trailing_params_counterexample :
  parse_ansi_line (ESC :: lit "[38;5;7;99mx") = (lit "x", [Some (ansi256 7)]) /\
  parse_ansi_line (ESC :: lit "[38;2;1;2;3;4mx")
    = (lit "x", [Some (truecolor 1 2 3)]) /\
  parts_of (lit "38;5;7;99") <> [lit "38"; lit "5"; lit "7"] /\
  snd (parse_ansi_line (ESC :: lit "[38;5;7;99mx")) <> [None].
Proof. repeat split; try reflexivity; discriminate. Qed.

Lemma str_eqb_eq (a b : str) : str_eqb a b = true <-> a = b.
Proof. unfold str_eqb. destruct (str_eq_dec a b); split; congruence. Qed.

Lemma sgr_unrecognized (active : fg) (parts : list str) :
  parts <> [lit "0"] -> ~ indexed_prefix parts -> ~ truecolor_prefix parts ->
  sgr active parts = active.
Proof.
  intros H0 H5 H2. unfold sgr.
  destruct (strs_eq_dec parts [lit "0"]) as [E|_]; [contradiction|].
  destruct ((3 <=? length parts)%nat && str_eqb (part parts 0) (lit "38")
            && str_eqb (part parts 1) (lit "5")) eqn:E5.
  - apply andb_prop in E5 as [E5 Eb]. apply andb_prop in E5 as [El Ea].
    apply str_eqb_eq in Ea, Eb.
    destruct parts as [|p0 [|p1 [|p2 more]]]; try discriminate.
    unfold part in *. simpl in *. subst p0 p1.
    destruct (int_of_str p2) as [z|e] eqn:Ez; [|reflexivity].
    exfalso. apply H5. exists p2, more. split; [reflexivity|now exists z].
  - destruct ((5 <=? length parts)%nat && str_eqb (part parts 0) (lit "38")
              && str_eqb (part parts 1) (lit "2")) eqn:E2; [|reflexivity].
    apply andb_prop in E2 as [E2 Eb]. apply andb_prop in E2 as [El Ea].
    apply str_eqb_eq in Ea, Eb.
    destruct parts as [|p0 [|p1 [|p2 [|p3 [|p4 more]]]]]; try discriminate.
    unfold part in *. simpl in *. subst p0 p1.
    destruct (int_of_str p2) as [r|e] eqn:Er; [|reflexivity].
    destruct (int_of_str p3) as [g|e] eqn:Eg; [|reflexivity].
    destruct (int_of_str p4) as [b|e] eqn:Eb; [|reflexivity].
    exfalso. apply H2. exists p2, p3, p4, more.
    repeat split; [now exists r|now exists g|now exists b].
Qed.

(** C4, amended.  A terminated sequence whose parameter list is not
    empty, is not ["0"], does not begin with "38","5",idx for a numeric
    idx and does not begin with "38","2",r,g,b for numeric r, g, b leaves
    the active colour unchanged and contributes no glyph.  Parameters
    after a recognised 38;5 or 38;2 prefix do not make a sequence
    unrecognised. *)
Theorem unrecognized_sequence_ignored (params rest : str) (active : fg) chars fgs :
  ~ In "m"%char params ->
  params <> [] ->
  parts_of params <> [lit "0"] ->
  ~ indexed_prefix (parts_of params) ->
  ~ truecolor_prefix (parts_of params) ->
  parse_loop (ESC :: "["%char :: params ++ "m"%char :: rest) active chars fgs =
  parse_loop rest active chars fgs.
Proof.
  intros Hm _ H0 H5 H2.
  rewrite parse_loop_sequence by exact Hm.
  now rewrite sgr_unrecognized.
Qed.

Lemma unrecognized_sequence_ignored_witness :
  parse_loop (ESC :: "["%char :: lit "38;5;x" ++ "m"%char :: lit "b")
             (Some (ansi256 1)) (lit "a") [Some (ansi256 1)]
  = parse_loop (lit "b") (Some (ansi256 1)) (lit "a") [Some (ansi256 1)].
Proof.
  apply (unrecognized_sequence_ignored (lit "38;5;x") (lit "b")).
  - simpl. intros [H|[H|[H|[H|[H|[H|[]]]]]]]; discriminate H.
  - discriminate.
  - discriminate.
  - intros (idx & more & E & z & Hz). injection E as <- <-. discriminate Hz.
  - intros (r & g & b & more & E & _). discriminate E.
Defined.

(** *** Unterminated introducers *)

Lemma find_m_app_some (s t : str) (k : nat) :
  find_m s = Some k -> find_m (s ++ t) = Some k.
Proof.
  revert k. induction s as [|c s IH]; simpl; intros k H; [discriminate|].
  destruct (Ascii.eqb c "m"); [exact H|].
  destruct (find_m s) as [k'|]; [|discriminate].
  now rewrite (IH k' eq_refl).
Qed.

Lemma find_m_app_none (s t : str) :
  find_m s = None -> find_m t = None -> find_m (s ++ t) = None.
Proof.
  intros Hs Ht. induction s as [|c s IH]; simpl in *; [exact Ht|].
  destruct (Ascii.eqb c "m"); [discriminate|].
  destruct (find_m s); [discriminate|]. now rewrite IH.
Qed.

Lemma find_m_lt (s : str) (k : nat) : find_m s = Some k -> (k < length s)%nat.
Proof.
  revert k. induction s as [|c s IH]; simpl; intros k H; [discriminate|].
  destruct (Ascii.eqb c "m").
  - injection H as <-. lia.
  - destruct (find_m s) as [k'|]; [|discriminate].
    injection H as <-. specialize (IH k' eq_refl). lia.
Qed.

Lemma introducer_app (ch : ascii) (rest tail : str) :
  introducer ch (rest ++ ESC :: tail) = introducer ch rest.
Proof.
  unfold introducer. destruct rest; simpl; [|reflexivity].
  now rewrite !andb_false_r.
Qed.

Lemma introducer_true (ch : ascii) (rest : str) :
  introducer ch rest = true ->
  ch = ESC /\ exists body, rest = "["%char :: body.
Proof.
  unfold introducer. intros H. apply andb_prop in H as [H1 H2].
  apply Ascii.eqb_eq in H1. split; [exact H1|].
  destruct rest as [|c body]; [discriminate|].
  apply Ascii.eqb_eq in H2. subst c. now exists body.
Qed.

Lemma unterminated_tail (n : nat) (tail : str) :
  ~ In "m"%char tail ->
  forall (pre : str) (active : fg) chars fgs,
    (length pre <= n)%nat ->
    parse_loop (pre ++ ESC :: "["%char :: tail) active chars fgs =
    parse_loop pre active chars fgs.
Proof.
  intros Hm. induction n as [|n IH]; intros pre active chars fgs Hn.
  - destruct pre; [|simpl in Hn; lia]. simpl.
    now rewrite parse_loop_introducer, (find_m_none _ Hm), parse_loop_nil.
  - destruct pre as [|ch rest].
    + simpl.
      now rewrite parse_loop_introducer, (find_m_none _ Hm), parse_loop_nil.
    + simpl in Hn. simpl app. rewrite !parse_loop_equation_2, introducer_app.
      destruct (introducer ch rest) eqn:Ei.
      * apply introducer_true in Ei as [-> [body ->]]. simpl tl.
        destruct (find_m body) as [k|] eqn:Ek.
        -- rewrite (find_m_app_some _ _ _ Ek).
           pose proof (find_m_lt _ _ Ek) as Hk.
           rewrite firstn_app, skipn_app.
           replace (k - length body)%nat with 0%nat by lia.
           replace (S k - length body)%nat with 0%nat by lia.
           simpl firstn at 2. simpl skipn at 2. rewrite app_nil_r.
           apply IH. rewrite length_skipn. simpl in Hn. lia.
        -- rewrite find_m_app_none; [reflexivity|exact Ek|].
           apply find_m_none. simpl. intros [H|[H|H]]; try discriminate H.
           now apply Hm.
      * destruct (Ascii.eqb ch NL); apply IH; lia.
Qed.

(** C9.  When the line holds an introducer [ESC[] with no ["m"] after it,
    the decoder returns what it returns for the part of the line before
    that introducer: the glyphs decoded before it are kept and nothing
    from the introducer to the end of the line becomes a glyph.  At the
    introducer itself the loop ends with the lists built so far.  The
    decoder is a total function: nothing is raised. *)
Theorem unterminated_introducer_stops (pre tail : str) :
  ~ In "m"%char tail ->
  parse_ansi_line (pre ++ ESC :: "["%char :: tail) = parse_ansi_line pre /\
  forall (active : fg) chars fgs,
    parse_loop (ESC :: "["%char :: tail) active chars fgs = (chars, fgs).
Proof.
  intros Hm. split.
  - unfold parse_ansi_line. now apply (unterminated_tail (length pre)).
  - intros active chars fgs.
    now rewrite parse_loop_introducer, (find_m_none _ Hm).
Qed.

Lemma unterminated_introducer_stops_witness :
  parse_ansi_line (lit "ab" ++ ESC :: "["%char :: lit "38;5;7cd")
  = parse_ansi_line (lit "ab").
Proof.
  apply (unterminated_introducer_stops (lit "ab") (lit "38;5;7cd")).
  simpl. intros [H|[H|[H|[H|[H|[H|[H|[H|[]]]]]]]]]; discriminate H.
Defined.

(** ** The encoder, and what the decoder makes of its output *)

Lemma uint_chars_digits (u : Decimal.uint) : Forall digit_char (uint_chars u).
Proof.
  unfold uint_chars.
  induction u; simpl; constructor; try assumption; eexists; reflexivity.
Qed.

Lemma digit_char_not_underscore (c : ascii) :
  digit_char c -> Ascii.eqb c "_" = false.
Proof.
  intros [d Hd]. destruct (Ascii.eqb_spec c "_") as [->|]; [discriminate|reflexivity].
Qed.

Lemma digits_uint_chars (u : Decimal.uint) :
  u <> Decimal.Nil -> digits (uint_chars u) = Some u.
Proof.
  induction u as [|u IH|u IH|u IH|u IH|u IH|u IH|u IH|u IH|u IH|u IH];
    intros Hn; [now elim Hn|..].
  all: unfold uint_chars in *; simpl DecimalString.NilEmpty.string_of_uint;
    simpl String.list_ascii_of_string;
    pose proof (uint_chars_digits u) as Hd; unfold uint_chars in Hd;
    destruct u as [|u'|u'|u'|u'|u'|u'|u'|u'|u'|u'];
    [reflexivity|..].
  all: match goal with
       | |- digits (?c :: ?s) = _ =>
           assert (E : digits s = Some _) by (apply IH; discriminate);
           simpl in E |- *; simpl in E; rewrite E; reflexivity
       end.
Qed.

Lemma str_of_int_shape (z : Z) :
  exists u, u <> Decimal.Nil /\
    ((Z.to_int z = Decimal.Pos u /\ str_of_int z = uint_chars u) \/
     (Z.to_int z = Decimal.Neg u /\ str_of_int z = "-"%char :: uint_chars u)).
Proof.
  unfold str_of_int. destruct z as [|p|p]; simpl Z.to_int.
  - exists (Decimal.D0 Decimal.Nil). split; [discriminate|]. left. now split.
  - exists (Pos.to_uint p). split; [apply DecimalPos.Unsigned.to_uint_nonnil|].
    left. split; [reflexivity|].
    pose proof (DecimalPos.Unsigned.to_uint_nonnil p) as Hn.
    simpl. unfold DecimalString.NilZero.string_of_uint, uint_chars.
    now destruct (Pos.to_uint p).
  - exists (Pos.to_uint p). split; [apply DecimalPos.Unsigned.to_uint_nonnil|].
    right. split; [reflexivity|].
    pose proof (DecimalPos.Unsigned.to_uint_nonnil p) as Hn.
    simpl. unfold DecimalString.NilZero.string_of_uint, uint_chars.
    now destruct (Pos.to_uint p).
Qed.

Lemma str_of_int_numeral (z : Z) : Forall numeral_char (str_of_int z).
Proof.
  destruct (str_of_int_shape z) as (u & _ & [[_ ->]|[_ ->]]).
  - eapply Forall_impl; [|apply uint_chars_digits]. intros c H. now left.
  - constructor; [now right|].
    eapply Forall_impl; [|apply uint_chars_digits]. intros c H. now left.
Qed.

Lemma numeral_char_facts (c : ascii) :
  numeral_char c ->
  c <> "m"%char /\ c <> ";"%char /\ c <> ESC /\ c <> NL /\ is_space c = false.
Proof.
  intros [[d Hd]| ->].
  - repeat split; try (intros ->; discriminate Hd).
    destruct c as [[] [] [] [] [] [] [] []]; try reflexivity; discriminate Hd.
  - repeat split; discriminate.
Qed.

Lemma lstrip_head (c : ascii) (s : str) : is_space c = false -> lstrip (c :: s) = c :: s.
Proof. intros H. simpl. now rewrite H. Qed.

Lemma strip_numeral (s : str) : Forall numeral_char s -> strip s = s.
Proof.
  intros H. unfold strip, rstrip.
  assert (L : forall t, Forall numeral_char t -> lstrip t = t).
  { intros [|c t] Ht; [reflexivity|]. apply lstrip_head.
    inversion Ht; subst. now apply numeral_char_facts. }
  rewrite (L s H), L, rev_involutive; [reflexivity|].
  now apply Forall_rev.
Qed.

Lemma signed_digits_str_of_int (z : Z) :
  signed_digits (str_of_int z) = Some (Z.to_int z).
Proof.
  destruct (str_of_int_shape z) as (u & Hu & [[-> ->]|[-> ->]]).
  - pose proof (digits_uint_chars u Hu) as Hd.
    pose proof (uint_chars_digits u) as Hc.
    destruct (uint_chars u) as [|c t] eqn:E; [discriminate Hd|].
    inversion Hc as [|? ? [d Hc1] _]; subst. unfold signed_digits.
    destruct (Ascii.eqb_spec c "-") as [->|_]; [discriminate Hc1|].
    destruct (Ascii.eqb_spec c "+") as [->|_]; [discriminate Hc1|].
    now rewrite Hd.
  - unfold signed_digits. rewrite Ascii.eqb_refl.
    now rewrite (digits_uint_chars u Hu).
Qed.

(** [int(f"{z}") == z] *)
Lemma int_of_str_str_of_int (z : Z) : int_of_str (str_of_int z) = Ok z.
Proof.
  unfold int_of_str.
  rewrite strip_numeral by apply str_of_int_numeral.
  now rewrite signed_digits_str_of_int, DecimalZ.of_to.
Qed.

Lemma split_single (sep : ascii) (s : str) : ~ In sep s -> split sep s = [s].
Proof.
  induction s as [|c t IH]; simpl; intros H; [reflexivity|].
  destruct (Ascii.eqb_spec c sep) as [->|_]; [exfalso; apply H; now left|].
  rewrite IH; [reflexivity|]. intros Hin. apply H. now right.
Qed.

Lemma split_app (sep : ascii) (s rest : str) :
  ~ In sep s -> split sep (s ++ sep :: rest) = s :: split sep rest.
Proof.
  induction s as [|c t IH]; simpl; intros H.
  - now rewrite Ascii.eqb_refl.
  - destruct (Ascii.eqb_spec c sep) as [->|_]; [exfalso; apply H; now left|].
    rewrite IH; [reflexivity|]. intros Hin. apply H. now right.
Qed.

Lemma str_of_int_no (c : ascii) (z : Z) :
  ~ numeral_char c -> ~ In c (str_of_int z).
Proof.
  intros Hc Hin. apply Hc.
  pose proof (str_of_int_numeral z) as H. rewrite Forall_forall in H. now apply H.
Qed.

Lemma not_numeral_m : ~ numeral_char "m".
Proof. intros [[d H]|H]; discriminate H. Qed.

Lemma not_numeral_semicolon : ~ numeral_char ";".
Proof. intros [[d H]|H]; discriminate H. Qed.

Lemma sgr_truecolor (active : fg) (R G B : str) (r g b : Z) :
  int_of_str R = Ok r -> int_of_str G = Ok g -> int_of_str B = Ok b ->
  sgr active [lit "38"; lit "2"; R; G; B] = Some (truecolor r g b).
Proof.
  intros Hr Hg Hb. unfold sgr.
  destruct (strs_eq_dec _ _) as [E|_]; [discriminate E|].
  unfold part. simpl nth. simpl length.
  change (str_eqb (lit "38") (lit "38")) with true.
  change (str_eqb (lit "2") (lit "5")) with false.
  change (str_eqb (lit "2") (lit "2")) with true.
  simpl. now rewrite Hr, Hg, Hb.
Qed.

Lemma sgr_ansi256 (active : fg) (I : str) (idx : Z) :
  int_of_str I = Ok idx ->
  sgr active [lit "38"; lit "5"; I] = Some (ansi256 idx).
Proof.
  intros Hi. unfold sgr.
  destruct (strs_eq_dec _ _) as [E|_]; [discriminate E|].
  unfold part. simpl nth. simpl length.
  change (str_eqb (lit "38") (lit "38")) with true.
  change (str_eqb (lit "5") (lit "5")) with true.
  simpl. now rewrite Hi.
Qed.

Lemma not_in_app {A : Type} (x : A) (l1 l2 : list A) :
  ~ In x l1 -> ~ In x l2 -> ~ In x (l1 ++ l2).
Proof. intros H1 H2 H. apply in_app_or in H as [H|H]; auto. Qed.

Lemma not_in_cons {A : Type} (x y : A) (l : list A) :
  y <> x -> ~ In x l -> ~ In x (y :: l).
Proof. intros H1 H2 [H|H]; auto. Qed.

(** [~ In c s] for a string built from literals and numerals *)
Ltac absent :=
  repeat first
    [ apply str_of_int_no; first [apply not_numeral_m | apply not_numeral_semicolon]
    | apply not_in_app
    | apply not_in_cons; [discriminate|]
    | apply in_nil ].

Lemma parts_of_nonempty (params : str) :
  params <> [] -> parts_of params = split ";" params.
Proof. destruct params; [now intros H; elim H|reflexivity]. Qed.

(** What the decoder does with the code of a colour, from any state. *)
Lemma parse_loop_color_code (c : color) (rest : str) (active : fg) chars fgs :
  parse_loop (color_code_from_fg (Some c) ++ rest) active chars fgs =
  parse_loop rest (Some c) chars fgs.
Proof.
  destruct c as [r g b|idx]; unfold color_code_from_fg.
  - replace ((ESC :: lit "[38;2;" ++ str_of_int r ++ lit ";" ++ str_of_int g
                ++ lit ";" ++ str_of_int b ++ lit "m") ++ rest)
      with (ESC :: "["%char ::
              (lit "38" ++ ";"%char :: lit "2" ++ ";"%char :: str_of_int r ++
               ";"%char :: str_of_int g ++ ";"%char :: str_of_int b)
              ++ "m"%char :: rest)
      by (simpl; repeat (rewrite <- app_assoc; simpl); reflexivity).
    rewrite parse_loop_sequence.
    + rewrite parts_of_nonempty by discriminate.
      rewrite !split_app, split_single by absent.
      now rewrite (sgr_truecolor _ _ _ _ r g b) by apply int_of_str_str_of_int.
    + absent.
  - replace ((ESC :: lit "[38;5;" ++ str_of_int idx ++ lit "m") ++ rest)
      with (ESC :: "["%char ::
              (lit "38" ++ ";"%char :: lit "5" ++ ";"%char :: str_of_int idx)
              ++ "m"%char :: rest)
      by (simpl; repeat (rewrite <- app_assoc; simpl); reflexivity).
    rewrite parse_loop_sequence.
    + rewrite parts_of_nonempty by discriminate.
      rewrite !split_app, split_single by absent.
      now rewrite (sgr_ansi256 _ _ idx) by apply int_of_str_str_of_int.
    + absent.
Qed.

Lemma parse_loop_reset (rest : str) (active : fg) chars fgs :
  parse_loop (RESET ++ rest) active chars fgs = parse_loop rest None chars fgs.
Proof.
  change (RESET ++ rest) with (ESC :: "["%char :: lit "0" ++ "m"%char :: rest).
  now rewrite parse_loop_sequence by (simpl; intros [H|[]]; discriminate H).
Qed.

(** C7.  The decoder reads back what the encoder writes: the code of a
    colour [c] followed by plain glyphs decodes to those glyphs, each
    paired with [c], and the reset code followed by plain glyphs decodes
    to those glyphs, each paired with [None]. *)
Theorem encode_decode_round_trip (c : color) (glyphs : str) :
  plain glyphs ->
  parse_ansi_line (color_code_from_fg (Some c) ++ glyphs)
    = (glyphs, repeat (Some c) (length glyphs)) /\
  parse_ansi_line (RESET ++ glyphs)
    = (glyphs, repeat None (length glyphs)).
Proof.
  intros H. unfold parse_ansi_line. split.
  - rewrite parse_loop_color_code.
    rewrite <- (app_nil_r glyphs) at 1.
    now rewrite parse_loop_plain, parse_loop_nil.
  - rewrite parse_loop_reset.
    rewrite <- (app_nil_r glyphs) at 1.
    now rewrite parse_loop_plain, parse_loop_nil.
Qed.

Lemma plain_ab : plain (lit "ab").
Proof. repeat constructor; discriminate. Defined.

Lemma encode_decode_round_trip_witness :
  parse_ansi_line (color_code_from_fg (Some (truecolor 12 200 7)) ++ lit "ab")
    = (lit "ab", repeat (Some (truecolor 12 200 7)) (length (lit "ab"))) /\
  parse_ansi_line (RESET ++ lit "ab")
    = (lit "ab", repeat None (length (lit "ab"))).
Proof.
  exact (encode_decode_round_trip (truecolor 12 200 7) (lit "ab") plain_ab).
Defined.

(** ** Binary64 arithmetic at scale 2.0

    Below 2^53 the conversion [float(n)] is exact, and so are the
    product with 2.0 and the quotient by 2.0. *)

Lemma digits2_pos_size (p : positive) : digits2_pos p = Pos.size p.
Proof. induction p; simpl; congruence. Qed.

Lemma digits2_pos_bounds (p : positive) :
  2 ^ (Zpos (digits2_pos p) - 1) <= Zpos p < 2 ^ Zpos (digits2_pos p).
Proof.
  induction p as [p IH|p IH|]; simpl digits2_pos.
  - rewrite Pos2Z.inj_succ.
    replace (Z.succ (Zpos (digits2_pos p)) - 1) with (Zpos (digits2_pos p)) by lia.
    rewrite Z.pow_succ_r by lia.
    assert (0 < 2 ^ (Zpos (digits2_pos p) - 1)) by (apply Z.pow_pos_nonneg; lia).
    replace (2 ^ Zpos (digits2_pos p)) with (2 * 2 ^ (Zpos (digits2_pos p) - 1)) in *
      by (rewrite <- Z.pow_succ_r by lia; f_equal; lia).
    lia.
  - rewrite Pos2Z.inj_succ.
    replace (Z.succ (Zpos (digits2_pos p)) - 1) with (Zpos (digits2_pos p)) by lia.
    rewrite Z.pow_succ_r by lia.
    replace (2 ^ Zpos (digits2_pos p)) with (2 * 2 ^ (Zpos (digits2_pos p) - 1)) in *
      by (rewrite <- Z.pow_succ_r by lia; f_equal; lia).
    lia.
  - simpl. lia.
Qed.

Lemma digits2_pos_le (p : positive) (k : Z) :
  0 <= k -> Zpos p < 2 ^ k -> Zpos (digits2_pos p) <= k.
Proof.
  intros Hk H. destruct (digits2_pos_bounds p) as [Hl _].
  destruct (Z_le_gt_dec (Zpos (digits2_pos p)) k) as [|Hgt]; [assumption|].
  exfalso. assert (2 ^ k <= 2 ^ (Zpos (digits2_pos p) - 1)) by (apply Z.pow_le_mono_r; lia).
  lia.
Qed.

Lemma iter_xO_digits (p q : positive) :
  digits2_pos (Pos.iter xO p q) = (digits2_pos p + q)%positive.
Proof.
  induction q as [|q IH] using Pos.peano_ind.
  - simpl. now rewrite Pos.add_1_r.
  - rewrite Pos.iter_succ. simpl. rewrite IH. lia.
Qed.

Lemma iter_xO_value (p q : positive) :
  Zpos (Pos.iter xO p q) = Zpos p * 2 ^ Zpos q.
Proof.
  induction q as [|q IH] using Pos.peano_ind.
  - simpl. lia.
  - rewrite Pos.iter_succ, Pos2Z.inj_succ, Z.pow_succ_r by lia.
    rewrite Pos2Z.inj_xO, IH. lia.
Qed.

(** A 53-bit mantissa with an exponent in range is left as it is. *)
Lemma round_canonical (s : bool) (m : positive) (e : Z) :
  digits2_pos m = 53%positive -> -1074 <= e <= 971 ->
  binary_round_aux prec emax s (Zpos m) e loc_Exact = S754_finite s m e.
Proof.
  intros Hd He.
  unfold binary_round_aux, shr_fexp, fexp, emin, prec, emax.
  cbn [Zdigits2 shr_record_of_loc]. rewrite Hd.
  replace (Z.max (53 + e - 53) (3 - 1024 - 53) - e) with 0 by lia.
  cbn [shr shr_m loc_of_shr_record round_nearest_even Zdigits2 shr_record_of_loc].
  rewrite Hd.
  replace (Z.max (53 + e - 53) (3 - 1024 - 53) - e) with 0 by lia.
  cbn [shr shr_m].
  replace (e <=? 1024 - 53) with true by (symmetry; apply Z.leb_le; lia).
  reflexivity.
Qed.

(** [float(n)] is exact below 2^53. *)
Lemma float_of_int_exact (n : Z) :
  0 < n < 2 ^ 53 ->
  exists m e,
    float_of_int n = Ok (S754_finite false m e) /\
    digits2_pos m = 53%positive /\ -52 <= e <= 0 /\ Zpos m = n * 2 ^ (- e).
Proof.
  intros [Hp Hn]. destruct n as [|p|p]; try lia.
  pose proof (digits2_pos_le p 53 ltac:(lia) Hn) as Hd.
  unfold float_of_int, binary_normalize, binary_round, shl_align, fexp, emin, prec, emax.
  replace (Z.max (Zpos (digits2_pos p) + 0 - 53) (3 - 1024 - 53) - 0)
    with (Zpos (digits2_pos p) - 53) by lia.
  destruct (Zpos (digits2_pos p) - 53) as [|q|q] eqn:Eq; try lia.
  - exists p, 0. assert (Hd53 : digits2_pos p = 53%positive) by lia.
    replace (Z.max (Zpos (digits2_pos p) + 0 - 53) (3 - 1024 - 53)) with 0 by lia.
    change (binary_round_aux 53 1024) with (binary_round_aux prec emax).
    rewrite round_canonical by (assumption || lia).
    repeat split; try lia.
  - exists (Pos.iter xO p q), (Zpos (digits2_pos p) - 53).
    assert (Hd53 : digits2_pos (Pos.iter xO p q) = 53%positive)
      by (rewrite iter_xO_digits; lia).
    replace (Z.max (Zpos (digits2_pos p) + 0 - 53) (3 - 1024 - 53))
      with (Zpos (digits2_pos p) - 53) by lia.
    change (binary_round_aux 53 1024) with (binary_round_aux prec emax).
    rewrite round_canonical by (assumption || lia).
    repeat split; try lia.
    rewrite iter_xO_value. f_equal. f_equal. lia.
Qed.

Lemma fmul_two (m : positive) (e : Z) :
  digits2_pos m = 53%positive -> -1074 <= e <= 970 ->
  fmul (S754_finite false m e) f_2 = S754_finite false m (e + 1).
Proof.
  intros Hd He. unfold fmul, f_2, SFmul. cbn [xorb].
  rewrite Pos.mul_comm. cbn [Pos.mul].
  unfold binary_round_aux, shr_fexp, fexp, emin, prec, emax.
  cbn [Zdigits2 shr_record_of_loc digits2_pos]. rewrite Hd.
  cbn [Pos.succ].
  match goal with |- context [Z.max ?a ?b - ?c] =>
    replace (Z.max a b - c) with 52 by lia end.
  cbn [shr iter_pos shr_1 orb shr_m loc_of_shr_record round_nearest_even
       Zdigits2 shr_record_of_loc shr_r shr_s].
  rewrite Hd.
  match goal with |- context [Z.max ?a ?b - ?c] =>
    replace (Z.max a b - c) with 0 by lia end.
  cbn [shr shr_m].
  replace (e + -51 + 52 <=? 1024 - 53) with true by (symmetry; apply Z.leb_le; lia).
  f_equal. lia.
Qed.

Lemma fdiv_two (m : positive) (e : Z) :
  digits2_pos m = 53%positive -> -1072 <= e <= 971 ->
  fdiv (S754_finite false m e) f_2 = S754_finite false m (e - 1).
Proof.
  intros Hd He. unfold fdiv, f_2, SFdiv, SFdiv_core_binary. cbn [xorb].
  unfold fexp, emin, prec, emax.
  cbn [Zdigits2 digits2_pos]. rewrite Hd. cbn [Pos.succ].
  match goal with |- context [Z.min ?a ?b] =>
    replace (Z.min a b) with (e - 2) by lia end.
  replace (e - -51 - (e - 2)) with 53 by lia.
  cbn [Z.shiftl Pos.iter Z.mul Pos.mul].
  assert (Hq : Z.div_eucl (Zpos m * 2 ^ 53) 4503599627370496 = (Zpos m~0, 0)).
  { pose proof (Z.div_eucl_eq (Zpos m * 2 ^ 53) 4503599627370496 ltac:(lia)) as H.
    pose proof (Z.mod_pos_bound (Zpos m * 2 ^ 53) 4503599627370496 ltac:(lia)) as Hb.
    unfold Z.modulo in Hb.
    destruct (Z.div_eucl (Zpos m * 2 ^ 53) 4503599627370496) as [q r].
    change (2 ^ 53) with 9007199254740992 in *.
    f_equal; lia. }
  match goal with |- context [Z.div_eucl ?a ?b] =>
    replace a with (Zpos m * 2 ^ 53) by (change (2 ^ 53) with 9007199254740992; lia)
  end.
  rewrite Hq.
  cbn [new_location Z.even new_location_even Z.eqb].
  unfold binary_round_aux, shr_fexp, fexp, emin, prec, emax.
  cbn [Zdigits2 shr_record_of_loc digits2_pos]. rewrite Hd.
  cbn [Pos.succ].
  match goal with |- context [Z.max ?a ?b - ?c] =>
    replace (Z.max a b - c) with 1 by lia end.
  cbn [shr iter_pos shr_1 orb shr_m loc_of_shr_record round_nearest_even
       Zdigits2 shr_record_of_loc shr_r shr_s].
  rewrite Hd.
  match goal with |- context [Z.max ?a ?b - ?c] =>
    replace (Z.max a b - c) with 0 by lia end.
  cbn [shr shr_m].
  replace (e - 2 + 1 <=? 1024 - 53) with true by (symmetry; apply Z.leb_le; lia).
  f_equal. lia.
Qed.

Lemma int_mul_two (n : Z) : 0 <= n < 2 ^ 53 -> int_mul n f_2 = Ok (2 * n).
Proof.
  intros [H0 Hn]. destruct (Z.eq_dec n 0) as [->|Hz]; [reflexivity|].
  destruct (float_of_int_exact n ltac:(lia)) as (m & e & Hf & Hd & He & Hv).
  unfold int_mul, int_mul_float. rewrite Hf. cbn [bind].
  rewrite fmul_two by (assumption || lia).
  unfold int_of_float. f_equal.
  destruct (0 <=? e + 1) eqn:E.
  - apply Z.leb_le in E. rewrite Hv.
    assert (e = 0 \/ e = -1) as [-> | ->] by lia.
    + change (2 ^ (- 0)) with 1. change (2 ^ (0 + 1)) with 2. lia.
    + change (2 ^ (- -1)) with 2. change (2 ^ (-1 + 1)) with 1. lia.
  - apply Z.leb_gt in E. rewrite Hv.
    replace (- e) with (1 + - (e + 1)) by lia.
    rewrite Z.pow_add_r by lia. change (2 ^ 1) with 2.
    rewrite Z.mul_assoc, Z.div_mul; [lia|].
    apply Z.pow_nonzero; lia.
Qed.

Lemma int_div_two (n : Z) : 0 <= n < 2 ^ 53 -> int_div n f_2 = Ok (n / 2).
Proof.
  intros [H0 Hn]. destruct (Z.eq_dec n 0) as [->|Hz]; [reflexivity|].
  destruct (float_of_int_exact n ltac:(lia)) as (m & e & Hf & Hd & He & Hv).
  unfold int_div, int_div_float. rewrite Hf. cbn [bind is_zero f_2].
  change (S754_finite false 4503599627370496 (-51)) with f_2.
  rewrite fdiv_two by (assumption || lia).
  unfold int_of_float. f_equal.
  replace (0 <=? e - 1) with false by (symmetry; apply Z.leb_gt; lia).
  rewrite Hv.
  replace (- (e - 1)) with (- e + 1) by lia.
  rewrite Z.pow_add_r by lia. change (2 ^ 1) with 2.
  rewrite Z.mul_comm, Z.div_mul_cancel_l; [reflexivity|lia|].
  apply Z.pow_nonzero; lia.
Qed.

(** ** The resampler at scale 2.0 *)

Lemma index_nth {A : Type} (l : list A) (i : nat) (x : A) :
  nth_error l i = Some x -> index l (Z.of_nat i) = Ok x.
Proof.
  intros H. unfold index.
  assert (i < length l)%nat by (apply nth_error_Some; congruence).
  replace (Z.of_nat i <? 0) with false by (symmetry; apply Z.ltb_ge; lia).
  replace (0 <=? Z.of_nat i) with true by (symmetry; apply Z.leb_le; lia).
  replace (Z.of_nat i <? Z.of_nat (length l)) with true
    by (symmetry; apply Z.ltb_lt; lia).
  simpl. now rewrite Nat2Z.id, H.
Qed.

Lemma for_each_app {A S : Type} (xs ys : list A) (body : A -> S -> result S) (st : S) :
  for_each (xs ++ ys) body st = bind (for_each xs body st) (for_each ys body).
Proof.
  revert st. induction xs as [|x xs IH]; intros st; simpl; [reflexivity|].
  destruct (body x st); simpl; [apply IH|reflexivity].
Qed.

Lemma seq_double (a n : nat) :
  seq (2 * a) (2 * S n) = (2 * a)%nat :: S (2 * a) :: seq (2 * S a) (2 * n).
Proof.
  replace (2 * S n)%nat with (S (S (2 * n))) by lia.
  replace (2 * S a)%nat with (S (S (2 * a))) by lia. reflexivity.
Qed.

Lemma col_step_cell (chars : list ascii) (fgs : list fg) (d : nat) (co : Z)
    (ch : ascii) (f prev : fg) (parts : list str) :
  Z.of_nat (length chars) < 2 ^ 52 ->
  nth_error chars d = Some ch -> nth_error fgs d = Some f ->
  co = 2 * Z.of_nat d \/ co = 2 * Z.of_nat d + 1 ->
  col_step f_2 chars fgs (Z.of_nat (length chars)) co (parts, prev) =
  Ok (parts ++ emit_cells prev [(ch, f)], f).
Proof.
  intros Hw Hc Hf Hco.
  assert (d < length chars)%nat by (apply nth_error_Some; congruence).
  unfold col_step.
  rewrite int_div_two by (change (2 ^ 53) with (2 * 2 ^ 52); lia).
  replace (co / 2) with (Z.of_nat d)
    by (destruct Hco as [-> | ->];
        [now rewrite Z.mul_comm, Z.div_mul by lia
        |rewrite Z.mul_comm, Z.div_add_l by lia; now rewrite Z.add_0_r]).
  cbn [bind]. rewrite Z.min_r by lia.
  rewrite (index_nth _ _ _ Hf), (index_nth _ _ _ Hc). cbn [bind emit_cells].
  destruct (fg_eq_dec f prev) as [->|Hne]; [reflexivity|].
  unfold transition. destruct f; now rewrite <- app_assoc.
Qed.

Lemma col_loop_two (chars : list ascii) (fgs : list fg) :
  length chars = length fgs ->
  Z.of_nat (length chars) < 2 ^ 52 ->
  forall (todo done : list (ascii * fg)) (parts : list str) (prev : fg),
    combine chars fgs = done ++ todo ->
    exists prev',
      for_each (map Z.of_nat (seq (2 * length done) (2 * length todo)))
               (col_step f_2 chars fgs (Z.of_nat (length chars))) (parts, prev)
      = Ok (parts ++ emit_cells prev (twice todo), prev').
Proof.
  intros Hl Hw. induction todo as [|[ch f] todo IH]; intros done parts prev Hc.
  - exists prev. simpl. now rewrite app_nil_r.
  - assert (Hn : nth_error (combine chars fgs) (length done) = Some (ch, f)).
    { rewrite Hc, nth_error_app2, Nat.sub_diag by lia. reflexivity. }
    assert (Hch : nth_error chars (length done) = Some ch /\
                  nth_error fgs (length done) = Some f).
    { clear - Hn. revert fgs Hn. generalize (length done) as k.
      induction chars as [|c cs IHc]; intros k fgs Hn.
      - destruct k; discriminate.
      - destruct fgs as [|g gs]; [destruct k; discriminate|].
        destruct k as [|k]; simpl in *; [now injection Hn as -> ->|].
        now apply IHc. }
    destruct Hch as [Hch Hfg].
    cbn [length]. rewrite seq_double. cbn [map for_each].
    rewrite (col_step_cell chars fgs (length done) _ ch f prev parts Hw Hch Hfg)
      by (left; lia).
    cbn [bind].
    rewrite (col_step_cell chars fgs (length done) _ ch f f _ Hw Hch Hfg)
      by (right; lia).
    cbn [bind].
    destruct (IH (done ++ [(ch, f)])
                 ((parts ++ emit_cells prev [(ch, f)]) ++ emit_cells f [(ch, f)]) f) as [prev' E].
    { now rewrite <- app_assoc. }
    rewrite length_app in E. cbn [length] in E.
    replace (2 * S (length done))%nat with (2 * (length done + 1))%nat by lia.
    rewrite E. exists prev'. f_equal. f_equal.
    rewrite <- !app_assoc. f_equal.
    change (twice ((ch, f) :: todo)) with ((ch, f) :: (ch, f) :: twice todo).
    cbn [emit_cells].
    destruct (fg_eq_dec f f) as [_|Hff]; [|now elim Hff].
    destruct (fg_eq_dec f prev) as [->|Hne]; reflexivity.
Qed.

Lemma range_double (n : nat) :
  (n >= 1)%nat ->
  range (Z.max 1 (2 * Z.of_nat n)) = map Z.of_nat (seq 0 (2 * n)).
Proof.
  intros H. unfold range. rewrite Z.max_r by lia.
  replace (Z.to_nat (2 * Z.of_nat n)) with (2 * n)%nat by lia. reflexivity.
Qed.

(** The parts of a resampled row at scale 2.0. *)
Lemma row_parts_two (chars : list ascii) (fgs : list fg) :
  length chars = length fgs ->
  (1 <= length chars)%nat -> Z.of_nat (length chars) < 2 ^ 52 ->
  row_parts f_2 chars fgs
  = Ok (emit_cells None (twice (combine chars fgs)) ++ [RESET]).
Proof.
  intros Hl H1 Hw. unfold row_parts.
  rewrite int_mul_two by (change (2 ^ 53) with (2 * 2 ^ 52); lia).
  cbn [bind]. rewrite range_double by lia.
  destruct (col_loop_two chars fgs Hl Hw (combine chars fgs) [] [] None eq_refl)
    as [prev' E].
  cbn [length] in E. rewrite length_combine, <- Hl, Nat.min_id in E.
  change (2 * 0)%nat with 0%nat in E.
  match goal with
  | |- bind ?x _ = _ =>
      replace x with (Ok (emit_cells None (twice (combine chars fgs)), prev'))
        by (symmetry; exact E)
  end.
  reflexivity.
Qed.

Lemma parse_loop_lengths (n : nat) :
  forall (ln : str) (active : fg) chars fgs,
    (length ln <= n)%nat -> length chars = length fgs ->
    length (fst (parse_loop ln active chars fgs))
    = length (snd (parse_loop ln active chars fgs)).
Proof.
  induction n as [|n IH]; intros ln active chars fgs Hn Hl.
  - destruct ln; [|simpl in Hn; lia]. now rewrite parse_loop_nil.
  - destruct ln as [|ch rest]; [now rewrite parse_loop_nil|].
    simpl in Hn. rewrite parse_loop_equation_2.
    destruct (introducer ch rest).
    + destruct (find_m (tl rest)) as [k|]; [|exact Hl].
      apply IH; [|exact Hl]. rewrite length_skipn. destruct rest; simpl in *; lia.
    + destruct (Ascii.eqb ch NL); apply IH; try lia; try exact Hl.
      rewrite !length_app. simpl. lia.
Qed.

Lemma parse_ansi_line_lengths (ln : str) :
  length (fst (parse_ansi_line ln)) = length (snd (parse_ansi_line ln)).
Proof. now apply (parse_loop_lengths (length ln)). Qed.

Lemma row_step_two (parsed : list (list ascii * list fg)) (d : nat) (ro : Z)
    (row : list ascii * list fg) (new_lines : list str) :
  Z.of_nat (length parsed) < 2 ^ 52 ->
  nth_error parsed d = Some row -> small_row row ->
  ro = 2 * Z.of_nat d \/ ro = 2 * Z.of_nat d + 1 ->
  row_step f_2 parsed (Z.of_nat (length parsed)) ro new_lines
  = Ok (new_lines ++ [row_two row]).
Proof.
  intros Hh Hr [Hl Hw] Hro.
  assert (d < length parsed)%nat by (apply nth_error_Some; congruence).
  unfold row_step.
  rewrite int_div_two by (change (2 ^ 53) with (2 * 2 ^ 52); lia).
  replace (ro / 2) with (Z.of_nat d)
    by (destruct Hro as [-> | ->];
        [now rewrite Z.mul_comm, Z.div_mul by lia
        |rewrite Z.mul_comm, Z.div_add_l by lia; now rewrite Z.add_0_r]).
  cbn [bind]. rewrite Z.min_r by lia. rewrite (index_nth _ _ _ Hr). cbn [bind].
  destruct row as [chars_row fgs_row]. unfold row_two. cbn [fst snd] in *.
  destruct chars_row as [|c cs]; [reflexivity|].
  cbn [length Nat.eqb].
  rewrite row_parts_two by (assumption || (cbn [length]; lia)).
  reflexivity.
Qed.

Lemma row_loop_two (parsed : list (list ascii * list fg)) :
  Z.of_nat (length parsed) < 2 ^ 52 ->
  Forall small_row parsed ->
  forall (todo done : list (list ascii * list fg)) (new_lines : list str),
    parsed = done ++ todo ->
    for_each (map Z.of_nat (seq (2 * length done) (2 * length todo)))
             (row_step f_2 parsed (Z.of_nat (length parsed))) new_lines
    = Ok (new_lines ++ twice (map row_two todo)).
Proof.
  intros Hh Hs. induction todo as [|row todo IH]; intros done new_lines Hp.
  - simpl. now rewrite app_nil_r.
  - assert (Hn : nth_error parsed (length done) = Some row).
    { rewrite Hp, nth_error_app2, Nat.sub_diag by lia. reflexivity. }
    assert (Hrow : small_row row).
    { rewrite Forall_forall in Hs. apply Hs. rewrite Hp. apply in_elt. }
    cbn [length]. rewrite seq_double. cbn [map for_each].
    rewrite (row_step_two parsed (length done) _ row new_lines Hh Hn Hrow)
      by (left; lia).
    cbn [bind].
    rewrite (row_step_two parsed (length done) _ row _ Hh Hn Hrow)
      by (right; lia).
    cbn [bind].
    replace (2 * S (length done))%nat with (2 * length (done ++ [row]))%nat
      by (rewrite length_app; simpl; lia).
    rewrite IH by (now rewrite <- app_assoc).
    now rewrite <- !app_assoc.
Qed.

Lemma resample_two (lines : list str) (width height : Z) :
  lines <> [] ->
  Z.of_nat (length lines) < 2 ^ 52 -> width < 2 ^ 52 ->
  Forall small_row (map parse_ansi_line lines) ->
  resample lines width height f_2
  = Ok (twice (map row_two (map parse_ansi_line lines))).
Proof.
  intros Hne Hh Hwd Hs. unfold resample.
  set (parsed := map parse_ansi_line lines) in *.
  assert (Hlen : length parsed = length lines) by apply length_map.
  assert (Hpos : (1 <= length lines)%nat)
    by (destruct lines; [now elim Hne|simpl; lia]).
  replace (Z.of_nat (length parsed) =? 0) with false
    by (symmetry; apply Z.eqb_neq; lia).
  set (src_w := if _ =? 0 then Z.max 1 width else _).
  assert (Hsw : 0 <= src_w < 2 ^ 53).
  { change (2 ^ 53) with (2 * 2 ^ 52). subst src_w.
    destruct parsed as [|row rest] eqn:Ep; [simpl in Hlen; lia|].
    inversion Hs as [|? ? [_ Hr] _]; subst.
    destruct (Z.of_nat (length (fst row)) =? 0); lia. }
  rewrite (int_mul_two src_w Hsw). cbn [bind].
  rewrite int_mul_two by (change (2 ^ 53) with (2 * 2 ^ 52); lia).
  cbn [bind]. rewrite range_double by lia.
  exact (row_loop_two parsed ltac:(lia) Hs parsed [] [] eq_refl).
Qed.

Lemma scale_lines_two (lines : list str) (width height : Z) (term : terminal_size) :
  scale_lines lines width height f_2 false term = resample lines width height f_2.
Proof. reflexivity. Qed.

(** *** Glyphs, codes and colour runs of a row *)

Lemma transition_not_glyph (f : fg) : is_glyph (transition f) = false.
Proof. destruct f as [[r g b|idx]|]; reflexivity. Qed.

Lemma glyphs_emit_cells (prev : fg) (cells : list (ascii * fg)) :
  glyphs (emit_cells prev cells) = map (fun c => [fst c]) cells.
Proof.
  revert prev. induction cells as [|[ch f] t IH]; intros prev; [reflexivity|].
  cbn [emit_cells]. destruct (fg_eq_dec f prev) as [_|_]; unfold glyphs in *;
    cbn [filter]; rewrite ?transition_not_glyph; cbn [is_glyph map fst];
    now rewrite IH.
Qed.

Lemma codes_emit_cells (prev : fg) (cells : list (ascii * fg)) :
  length (codes (emit_cells prev cells)) = changes prev (map snd cells).
Proof.
  revert prev. induction cells as [|[ch f] t IH]; intros prev; [reflexivity|].
  cbn [emit_cells map snd changes]. destruct (fg_eq_dec f prev) as [->|_];
    unfold codes in *; cbn [filter]; rewrite ?transition_not_glyph;
    cbn [is_glyph negb length]; rewrite IH; reflexivity.
Qed.

Lemma changes_twice (prev : fg) (cells : list (ascii * fg)) :
  changes prev (map snd (twice cells)) = changes prev (map snd cells).
Proof.
  revert prev. induction cells as [|[ch f] t IH]; intros prev; [reflexivity|].
  change (twice ((ch, f) :: t)) with ((ch, f) :: (ch, f) :: twice t).
  cbn [map snd changes]. rewrite IH.
  destruct (fg_eq_dec f f) as [_|H]; [lia|now elim H].
Qed.

Lemma changes_runs (f : fg) (t : list fg) : S (changes f t) = runs (f :: t).
Proof.
  revert f. induction t as [|g t IH]; intros f; [reflexivity|].
  cbn [changes]. change (runs (f :: g :: t))
    with (if fg_eq_dec f g then runs (g :: t) else S (runs (g :: t))).
  rewrite <- IH.
  destruct (fg_eq_dec g f) as [H|H]; destruct (fg_eq_dec f g) as [E|E];
    try lia; congruence.
Qed.

Lemma changes_from_none (fgs : list fg) :
  changes None fgs
  = (runs fgs - match fgs with None :: _ => 1 | _ => 0 end)%nat.
Proof.
  destruct fgs as [|f t]; [reflexivity|].
  rewrite <- changes_runs. cbn [changes].
  destruct (fg_eq_dec f None) as [->|H]; [lia|].
  destruct f; [lia|now elim H].
Qed.

Lemma glyphs_twice (chars : list ascii) (fgs : list fg) :
  length chars = length fgs ->
  map (fun c : ascii * fg => [fst c]) (twice (combine chars fgs))
  = flat_map (fun ch => [[ch]; [ch]]) chars.
Proof.
  revert fgs. induction chars as [|c cs IH]; intros [|f fs] H; try discriminate;
    [reflexivity|].
  simpl in H. injection H as H. simpl. do 2 f_equal. now apply IH.
Qed.

Lemma nth_error_twice {A : Type} (l : list A) (i : nat) (x : A) :
  nth_error l i = Some x ->
  nth_error (twice l) (2 * i) = Some x /\ nth_error (twice l) (2 * i + 1) = Some x.
Proof.
  revert i. induction l as [|y l IH]; intros [|i] H; try discriminate.
  - injection H as ->. now split.
  - simpl in H. replace (2 * S i)%nat with (S (S (2 * i))) by lia.
    replace (S (S (2 * i)) + 1)%nat with (S (S (2 * i + 1))) by lia.
    now apply IH.
Qed.

Lemma map_snd_combine {A B : Type} (l : list A) (l' : list B) :
  length l = length l' -> map snd (combine l l') = l'.
Proof.
  revert l'. induction l as [|x l IH]; intros [|y l'] H; try discriminate;
    [reflexivity|].
  simpl in *. f_equal. apply IH. now injection H.
Qed.

Lemma small_rows (lines : list str) :
  Forall (fun l => Z.of_nat (length (fst (parse_ansi_line l))) < 2 ^ 52) lines ->
  Forall small_row (map parse_ansi_line lines).
Proof.
  intros H. apply Forall_map. eapply Forall_impl; [|exact H].
  intros l Hl. split; [apply parse_ansi_line_lengths|exact Hl].
Qed.

(** C3, as stated, fails.  The cursor starts at [None], which is a real
    colour: a row whose first cell has colour [None] gets no transition
    for its first run.  The row [ab] has one colour run and its resampled
    row has no transition code before the trailing reset. *)
Lemma first_run_none_counterexample :
  scale_lines [lit "ab"] 2 1 f_2 false term80x24
    = Ok [lit "aabb" ++ RESET; lit "aabb" ++ RESET] /\
  parse_ansi_line (lit "ab") = (lit "ab", [None; None]) /\
  row_parts f_2 (lit "ab") [None; None]
    = Ok ([lit "a"; lit "a"; lit "b"; lit "b"] ++ [RESET]) /\
  length (codes [lit "a"; lit "a"; lit "b"; lit "b"]) = 0%nat /\
  runs [None; None] = 1%nat.
Proof. repeat split; vm_compute; reflexivity. Qed.

(** C3, amended.  In a frame whose row count, row widths and declared
    width are below 2^52, scale 2.0 with fit off turns every source row
    of width W >= 1 into two equal target rows.  Each is the
    concatenation of the parts the column loop builds, followed by the
    reset code; the glyph parts are the glyphs of the source row, each
    one twice in a row, so there are int(W * 2.0) = 2W of them; and the
    number of transition codes, the trailing reset not counted, is the
    number of colour runs of the source row when the first cell is
    coloured and one less when the first cell has colour [None], because
    the cursor starts at [None].  *)
Theorem scale_two_row (lines : list str) (width height : Z)
    (term : terminal_size) (i : nat) (ln : str) :
  Z.of_nat (length lines) < 2 ^ 52 ->
  width < 2 ^ 52 ->
  Forall (fun l => Z.of_nat (length (fst (parse_ansi_line l))) < 2 ^ 52) lines ->
  nth_error lines i = Some ln ->
  (1 <= length (fst (parse_ansi_line ln)))%nat ->
  exists out parts,
    scale_lines lines width height f_2 false term = Ok out /\
    nth_error out (2 * i) = Some (join (parts ++ [RESET])) /\
    nth_error out (2 * i + 1) = Some (join (parts ++ [RESET])) /\
    row_parts f_2 (fst (parse_ansi_line ln)) (snd (parse_ansi_line ln))
      = Ok (parts ++ [RESET]) /\
    int_mul (Z.of_nat (length (fst (parse_ansi_line ln)))) f_2
      = Ok (Z.of_nat (length (glyphs parts))) /\
    glyphs parts
      = flat_map (fun ch => [[ch]; [ch]]) (fst (parse_ansi_line ln)) /\
    length (codes parts)
      = (runs (snd (parse_ansi_line ln))
         - match snd (parse_ansi_line ln) with None :: _ => 1 | _ => 0 end)%nat.
Proof.
  intros Hh Hwd Hrows Hi Hw.
  pose proof (parse_ansi_line_lengths ln) as Hl.
  assert (Hsmall : Z.of_nat (length (fst (parse_ansi_line ln))) < 2 ^ 52).
  { rewrite Forall_forall in Hrows. apply Hrows. eapply nth_error_In, Hi. }
  set (chars := fst (parse_ansi_line ln)) in *.
  set (fgs := snd (parse_ansi_line ln)) in *.
  exists (twice (map row_two (map parse_ansi_line lines))),
         (emit_cells None (twice (combine chars fgs))).
  assert (Hg : glyphs (emit_cells None (twice (combine chars fgs)))
               = flat_map (fun ch => [[ch]; [ch]]) chars)
    by (now rewrite glyphs_emit_cells, glyphs_twice).
  assert (Hrow : row_two (parse_ansi_line ln)
                 = join (emit_cells None (twice (combine chars fgs)) ++ [RESET])).
  { unfold row_two. fold chars fgs. destruct chars; [simpl in Hw; lia|reflexivity]. }
  assert (Hn : nth_error (map row_two (map parse_ansi_line lines)) i
               = Some (row_two (parse_ansi_line ln)))
    by (now rewrite !nth_error_map, Hi).
  destruct (nth_error_twice _ _ _ Hn) as [H0 H1]. rewrite Hrow in H0, H1.
  repeat split.
  - rewrite scale_lines_two. apply resample_two; try assumption.
    + intros ->. destruct i; discriminate Hi.
    + now apply small_rows.
  - exact H0.
  - exact H1.
  - now apply row_parts_two.
  - rewrite int_mul_two by (change (2 ^ 53) with (2 * 2 ^ 52); lia).
    f_equal. rewrite Hg.
    rewrite (flat_map_constant_length (c := 2%nat)) by reflexivity. lia.
  - exact Hg.
  - rewrite codes_emit_cells, changes_twice, map_snd_combine by exact Hl.
    apply changes_from_none.
Qed.

Lemma scale_two_row_witness :
  exists out parts,
    scale_lines [ESC :: lit "[38;5;7mab"] 2 1 f_2 false term80x24 = Ok out /\
    nth_error out (2 * 0) = Some (join (parts ++ [RESET])) /\
    nth_error out (2 * 0 + 1) = Some (join (parts ++ [RESET])) /\
    row_parts f_2 (fst (parse_ansi_line (ESC :: lit "[38;5;7mab")))
              (snd (parse_ansi_line (ESC :: lit "[38;5;7mab")))
      = Ok (parts ++ [RESET]) /\
    int_mul (Z.of_nat (length (fst (parse_ansi_line (ESC :: lit "[38;5;7mab")))))
            f_2
      = Ok (Z.of_nat (length (glyphs parts))) /\
    glyphs parts
      = flat_map (fun ch => [[ch]; [ch]])
                 (fst (parse_ansi_line (ESC :: lit "[38;5;7mab"))) /\
    length (codes parts)
      = (runs (snd (parse_ansi_line (ESC :: lit "[38;5;7mab")))
         - match snd (parse_ansi_line (ESC :: lit "[38;5;7mab")) with
           | None :: _ => 1
           | _ => 0
           end)%nat.
Proof.
  apply (scale_two_row [ESC :: lit "[38;5;7mab"] 2 1 term80x24 0
                       (ESC :: lit "[38;5;7mab")).
  - reflexivity.
  - reflexivity.
  - repeat constructor.
  - reflexivity.
  - vm_compute. lia.
Defined.

(** ** Claims about the resampler *)

Lemma index_nil {A : Type} (i : Z) : index (@nil A) i = Raise IndexError.
Proof.
  unfold index. cbn [length Z.of_nat]. rewrite Z.add_0_r.
  destruct (i <? 0) eqn:E.
  - replace (0 <=? i) with false by (symmetry; apply Z.leb_gt, Z.ltb_lt, E).
    reflexivity.
  - destruct (0 <=? i); [|reflexivity].
    replace (i <? 0) with false. reflexivity.
Qed.

Lemma range_first (n : Z) : exists t, range (Z.max 1 n) = 0 :: t.
Proof.
  unfold range. destruct (Z.to_nat (Z.max 1 n)) as [|k] eqn:E; [lia|].
  now exists (map Z.of_nat (seq 1 k)).
Qed.

(** C1: the code raises where the claim wants a normal return.  With an
    empty list of lines the pass falls back to [src_h = max(1, height)],
    so the row loop runs at least once and indexes the empty list
    [parsed].  Whatever the declared size and the scale, the resampling
    pass does not return; at scale 2.0 the exception is [IndexError]. *)
Theorem empty_frame_raises (width height : Z) (s : float) (term : terminal_size) :
  is_ok (resample [] width height s) = false /\
  scale_lines [] 80 24 f_2 false term = Raise IndexError.
Proof.
  split; [|reflexivity].
  unfold resample. cbn [map length Z.of_nat Z.eqb].
  destruct (int_mul (Z.max 1 width) s) as [w|e]; [|reflexivity].
  cbn [bind]. destruct (int_mul (Z.max 1 height) s) as [h|e]; [|reflexivity].
  cbn [bind]. destruct (range_first h) as [t ->]. cbn [for_each].
  unfold row_step at 1. destruct (int_div 0 s) as [q|e]; [|reflexivity].
  cbn [bind]. now rewrite index_nil.
Qed.

(** The other degenerate inputs return normally: a row without glyphs
    becomes a lone reset code, and a scale of -1.0 or 0.0 is raised to
    0.01, at which a frame shrinks to one row of one cell. *)
Example degenerate_rows :
  scale_lines [lit ""; lit "ab"] 2 2 f_2 false term80x24
    = Ok [RESET; RESET; lit "aabb" ++ RESET; lit "aabb" ++ RESET] /\
  scale_lines [lit "abc"; lit ""] 3 2 (S754_finite true 0x10000000000000 (-52))
              false term80x24
    = Ok [lit "a" ++ RESET] /\
  scale_lines [lit ""; lit "abc"] 0 0 f_0 false term80x24 = Ok [RESET].
Proof. repeat split; vm_compute; reflexivity. Qed.

(** C8.  When the scale [s] that lines 80-88 compute (with fit off it is
    [max(0.01, scale)]) passes the test [abs(s - 1.0) < 1e-6], the call
    returns the list of lines it was given: no line is decoded or encoded
    again. *)
Theorem identity_fast_path (lines : list str) (width height : Z) (scale : float)
    (fit_to_terminal : bool) (term : terminal_size) (s : float) :
  decide_scale width height scale fit_to_terminal term = Ok s ->
  flt (fabs (fsub s f_1)) f_1em6 = true ->
  (fit_to_terminal = false -> s = fmax f_0_01 scale) /\
  scale_lines lines width height scale fit_to_terminal term = Ok lines.
Proof.
  intros Hs Ht. split.
  - intros ->. simpl in Hs. now injection Hs.
  - unfold scale_lines. rewrite Hs. cbn [bind]. now rewrite Ht.
Qed.

Lemma identity_fast_path_witness :
  (false = false -> f_1_0000005 = fmax f_0_01 f_1_0000005) /\
  scale_lines [ESC :: lit "[1mab" ++ ESC :: lit "[38;5"] 2 1 f_1_0000005 false
              term80x24
  = Ok [ESC :: lit "[1mab" ++ ESC :: lit "[38;5"].
Proof.
  apply (identity_fast_path _ 2 1 f_1_0000005 false term80x24 f_1_0000005).
  - reflexivity.
  - vm_compute. reflexivity.
Defined.

(** ** The playback loop *)

Section PlaybackFacts.

Variable w : world.
Variable c : config.

Lemma emit_quiet (e : event) (o : io) :
  faults w (ticks o) = None ->
  emit w e o = ({| ticks := S (ticks o); written := written o ++ [e] |}, Ok tt).
Proof. intros H. unfold emit, call. now rewrite H. Qed.

Lemma cleanup_quiet (o : io) :
  quiet w (ticks o) 3 ->
  cleanup w o
  = ({| ticks := ticks o + 3;
        written := written o ++ [Write RESET; Write SHOW_CURSOR; Flush] |},
     Ok tt).
Proof.
  intros Hq. unfold cleanup, mbind, out_write, out_flush.
  rewrite emit_quiet by (apply Hq; lia). cbn [ticks written].
  rewrite emit_quiet by (apply Hq; cbn [ticks]; lia). cbn [ticks written].
  rewrite emit_quiet by (apply Hq; cbn [ticks]; lia). cbn [ticks written].
  rewrite <- !app_assoc. cbn [app].
  replace (S (S (S (ticks o)))) with (ticks o + 3)%nat by lia. reflexivity.
Qed.

End PlaybackFacts.

(** C6, as stated, fails.  The [finally] block is not protected: what
    arrives during its three calls ends it.  A second interrupt, at the
    call that would show the cursor again, ends the program with the
    cursor hidden; and once the output fails, the playback ends without
    even the reset code. *)
Lemma cleanup_interrupted_counterexample :
  (exists o,
     main (interrupt_twice 9 11) (demo_config true demo_frames) 5
     = Some (o, Raise KeyboardInterrupt) /\
     In (Write HIDE_CURSOR) (written o) /\
     ~ In (Write SHOW_CURSOR) (written o)) /\
  (exists o,
     main (broken_output 9) (demo_config true demo_frames) 5
     = Some (o, Raise OSError) /\
     ~ In (Write RESET) (written o) /\
     ~ In (Write SHOW_CURSOR) (written o)).
Proof.
  split; eexists; (split; [vm_compute; reflexivity|]); cbn [written]; split;
    try (now left);
    intros H; repeat (destruct H as [H|H]; [discriminate H|]); exact H.
Qed.

(** C6, amended.  However the body of [try] ends, by the [break] after
    the last frame, by a [KeyboardInterrupt] that arrives at any of its
    steps, or by any other exception raised in it, the [finally] block
    is entered right after what the loop had written.  Provided nothing
    more arrives from outside during its three calls, the playback ends
    having written the reset code, then the show-cursor code, and
    flushed; an interrupt is swallowed and any other exception is raised
    again after the cleanup.  In general the three calls are made in
    this order until something arrives: the playback ends having written
    the first [k] of them, and for [k < 3] it ends with the exception
    that arrived at the next call.  The playback has no other way to
    end: it returns exactly when the body of [try] does. *)
Theorem cleanup_on_every_exit (w : world) (c : config) (fuel : nat)
    (o o' : io) (r : result unit) :
  try_body w c fuel o = Some (o', r) ->
  (quiet w (ticks o') 3 ->
   playback w c fuel o
   = Some ({| ticks := ticks o' + 3;
              written := written o' ++ [Write RESET; Write SHOW_CURSOR; Flush] |},
           match r with
           | Raise KeyboardInterrupt => Ok tt
           | _ => r
           end))
  /\ (exists (k : nat) (o'' : io) (r'' : result unit),
        (k <= 3)%nat /\
        quiet w (ticks o') k /\
        playback w c fuel o = Some (o'', r'') /\
        written o''
        = written o' ++ firstn k [Write RESET; Write SHOW_CURSOR; Flush] /\
        ((k < 3)%nat ->
         exists e, faults w (ticks o' + k) = Some e /\ r'' = Raise e))
  /\ (forall fuel' o0, try_body w c fuel' o0 = None <-> playback w c fuel' o0 = None).
Proof.
  intros Hb. split; [|split].
  - intros Hq. unfold playback. rewrite Hb, (cleanup_quiet w o' Hq). reflexivity.
  - unfold playback. rewrite Hb.
    unfold cleanup, mbind, out_write, out_flush, emit, call. cbn [ticks written].
    destruct (faults w (ticks o')) as [e0|] eqn:F0.
    { exists 0%nat. eexists. eexists. split; [lia|]. split; [intros j Hj; lia|].
      split; [reflexivity|]. cbn [written firstn]. rewrite app_nil_r.
      split; [reflexivity|]. intros _. exists e0. now rewrite Nat.add_0_r. }
    cbn [ticks written].
    destruct (faults w (S (ticks o'))) as [e1|] eqn:F1.
    { exists 1%nat. eexists. eexists. split; [lia|]. split.
      - intros j Hj. replace j with (ticks o') by lia. exact F0.
      - split; [reflexivity|]. cbn [written firstn].
        split; [reflexivity|]. intros _. exists e1. now rewrite Nat.add_1_r. }
    cbn [ticks written].
    destruct (faults w (S (S (ticks o')))) as [e2|] eqn:F2.
    { exists 2%nat. eexists. eexists. split; [lia|]. split.
      - intros j Hj.
        destruct (Nat.eq_dec j (ticks o')) as [->|]; [exact F0|].
        replace j with (S (ticks o')) by lia. exact F1.
      - split; [reflexivity|]. cbn [written firstn]. rewrite <- app_assoc.
        split; [reflexivity|]. intros _. exists e2.
        now replace (ticks o' + 2)%nat with (S (S (ticks o'))) by lia. }
    exists 3%nat. eexists. eexists. split; [lia|]. split.
    + intros j Hj.
      destruct (Nat.eq_dec j (ticks o')) as [->|]; [exact F0|].
      destruct (Nat.eq_dec j (S (ticks o'))) as [->|]; [exact F1|].
      replace j with (S (S (ticks o'))) by lia. exact F2.
    + split; [reflexivity|]. cbn [written firstn]. rewrite <- !app_assoc.
      split; [reflexivity|]. intros H. lia.
  - intros fuel' o0. unfold playback.
    destruct (try_body w c fuel' o0) as [[o1 r1]|]; [|tauto].
    destruct (cleanup w o1) as [o2 [u|e]]; split; discriminate.
Qed.

Lemma cleanup_on_every_exit_witness :
  exists o' r,
    try_body (interrupt_at 9) (demo_config true demo_frames) 5 start = Some (o', r) /\
    quiet (interrupt_at 9) (ticks o') 3 /\
    playback (interrupt_at 9) (demo_config true demo_frames) 5 start
    = Some ({| ticks := ticks o' + 3;
               written := written o' ++ [Write RESET; Write SHOW_CURSOR; Flush] |},
            match r with
            | Raise KeyboardInterrupt => Ok tt
            | _ => r
            end).
Proof.
  eexists. eexists.
  assert (Hb : try_body (interrupt_at 9) (demo_config true demo_frames) 5 start
               = Some ({| ticks := 10;
                          written := [Write HOME; Write (lit "aabb" ++ RESET);
                                      Write [NL]; Write (lit "aabb" ++ RESET);
                                      Write [NL]; Flush] |},
                       Raise KeyboardInterrupt))
    by (vm_compute; reflexivity).
  assert (Hq : quiet (interrupt_at 9) 10 3).
  { intros j Hj. simpl. destruct (Nat.eqb_spec j 9); [lia|reflexivity]. }
  split; [exact Hb|]. split; [exact Hq|].
  exact (proj1 (cleanup_on_every_exit _ _ _ _ _ _ Hb) Hq).
Defined.

(** The three ways out of the loop, on concrete runs: the [break] after
    the last frame, an interrupt, and an [IndexError] raised by
    [scale_lines] on a frame without lines. *)
Example playback_completes :
  playback no_faults (demo_config false demo_frames) 2 start
  = Some ({| ticks := 23;
             written :=
               [Write HOME; Write (lit "aabb" ++ RESET); Write [NL];
                Write (lit "aabb" ++ RESET); Write [NL]; Flush;
                Sleep (S754_finite false 0x11111111111111 (-57));
                Write HOME; Write (lit "ccdd" ++ RESET); Write [NL];
                Write (lit "ccdd" ++ RESET); Write [NL]; Flush;
                Write RESET; Write SHOW_CURSOR; Flush] |},
          Ok tt).
Proof. vm_compute. reflexivity. Qed.

Example playback_interrupted :
  playback (interrupt_at 4) (demo_config true demo_frames) 1 start
  = Some ({| ticks := 8;
             written := [Write HOME; Write RESET; Write SHOW_CURSOR; Flush] |},
          Ok tt).
Proof. vm_compute. reflexivity. Qed.

Example playback_error :
  playback no_faults (demo_config true [ {| get_lines := None |} ]) 1 start
  = Some ({| ticks := 6;
             written := [Write RESET; Write SHOW_CURSOR; Flush] |},
          Raise IndexError).
Proof. vm_compute. reflexivity. Qed.

(** *** The loop ends *)

Ltac split_match H :=
  repeat match type of H with
         | context [match ?x with _ => _ end] =>
             let E := fresh "E" in destruct x eqn:E; try discriminate H
         end.

(** Without [--loop], an iteration that does not leave the loop moves to
    the next frame, and there is one. *)
Lemma iteration_next (w : world) (c : config) (idx : Z) (start_time : float)
    (o o' : io) (idx' : Z) (start_time' : float) :
  args_loop c = false ->
  iteration w c idx start_time o = (o', Ok (Some (idx', start_time'))) ->
  idx' = idx + 1 /\ idx + 1 < Z.of_nat (length (frames c)).
Proof.
  intros Hl H. unfold iteration in H. rewrite Hl in H.
  unfold mbind, ret in H.
  split_match H; injection H as _ <- _; split; try reflexivity;
    match goal with
    | E : (_ <=? _) = false |- _ => now apply Z.leb_gt in E
    end.
Qed.

Lemma while_true_ends (w : world) (c : config) :
  args_loop c = false ->
  forall (fuel : nat) (idx : Z) (start_time : float) (o : io),
    (1 <= fuel)%nat ->
    Z.of_nat (length (frames c)) - idx <= Z.of_nat fuel ->
    while_true w c fuel idx start_time o <> None.
Proof.
  intros Hl. induction fuel as [|fuel IH]; intros idx start_time o H1 Hf; [lia|].
  cbn [while_true].
  destruct (iteration w c idx start_time o) as [o' [[[idx' st']|]|e]] eqn:E;
    try discriminate.
  destruct (iteration_next _ _ _ _ _ _ _ _ Hl E) as [-> Hlt].
  apply IH; lia.
Qed.

(** Without [--loop] the playback ends, whatever happens outside: as
    many iterations as there are frames are enough. *)
Lemma playback_ends_without_loop (w : world) (c : config) (o : io) :
  args_loop c = false -> frames c <> [] ->
  playback w c (length (frames c)) o <> None.
Proof.
  intros Hl Hne. unfold playback.
  destruct (try_body w c (length (frames c)) o) as [[o' r]|] eqn:E.
  - destruct (cleanup w o') as [o'' [u|e]]; discriminate.
  - exfalso. unfold try_body in E.
    destruct (time_perf_counter w o) as [o1 [t|e]]; [|discriminate].
    revert E. apply while_true_ends; [exact Hl| |lia].
    destruct (frames c); [now elim Hne|simpl; lia].
Qed.

Section Progress.

Variable w : world.

Lemma one_step_advances {A : Type} (m : M A) : one_step w m -> advances w m.
Proof.
  intros H o o' r E. destruct (H o o' r E) as [Ht Hf]. split; [lia|].
  intros a Ha j Hj. replace j with (ticks o) by lia. now apply (Hf a).
Qed.

Lemma one_step_emit (e : event) : one_step w (emit w e).
Proof.
  intros o o' r E. unfold emit, call in E.
  destruct (faults w (ticks o)); injection E as <- <-; split; auto; discriminate.
Qed.

Lemma one_step_perf_counter : one_step w (time_perf_counter w).
Proof.
  intros o o' r E. unfold time_perf_counter, call in E.
  destruct (faults w (ticks o)); injection E as <- <-; split; auto; discriminate.
Qed.

Lemma one_step_compute {A : Type} (f : terminal_size -> result A) :
  one_step w (compute w f).
Proof.
  intros o o' r E. unfold compute, call in E.
  destruct (faults w (ticks o)); injection E as <- <-; split; auto; discriminate.
Qed.

Lemma advances_ret {A : Type} (a : A) : advances w (ret a).
Proof.
  intros o o' r E. injection E as <- <-. split; [lia|].
  intros _ _ j Hj. lia.
Qed.

Lemma advances_bind {A B : Type} (m : M A) (k : A -> M B) :
  advances w m -> (forall a, advances w (k a)) -> advances w (mbind m k).
Proof.
  intros Hm Hk o o' r E. unfold mbind in E.
  destruct (m o) as [o1 [a|e]] eqn:E1.
  - destruct (Hm o o1 _ E1) as [H1 Q1]. destruct (Hk a o1 o' r E) as [H2 Q2].
    split; [lia|]. intros b Hb j Hj.
    destruct (Nat.lt_ge_cases j (ticks o1)).
    + apply (Q1 a eq_refl). lia.
    + apply (Q2 b Hb). lia.
  - injection E as <- <-. destruct (Hm o o1 _ E1) as [H1 _]. split; [lia|].
    discriminate.
Qed.

Lemma advances_mfor_each {A : Type} (xs : list A) (body : A -> M unit) :
  (forall x, advances w (body x)) -> advances w (mfor_each xs body).
Proof.
  intros Hb. induction xs as [|x xs IH]; cbn [mfor_each].
  - apply advances_ret.
  - apply advances_bind; [apply Hb|intros _; exact IH].
Qed.

(** The first call of a sequence makes it take at least one step. *)
Lemma first_step {A B : Type} (m : M A) (k : A -> M B) :
  one_step w m -> (forall a, advances w (k a)) ->
  forall o o' r, mbind m k o = (o', r) ->
    (ticks o < ticks o')%nat /\
    (forall b, r = Ok b -> quiet w (ticks o) (ticks o' - ticks o)).
Proof.
  intros Hm Hk o o' r E.
  destruct (advances_bind m k (one_step_advances m Hm) Hk o o' r E) as [_ Q].
  split; [|exact Q]. unfold mbind in E.
  destruct (m o) as [o1 [a|e]] eqn:E1.
  - destruct (Hm o o1 _ E1) as [H1 _]. destruct (Hk a o1 o' r E) as [H2 _]. lia.
  - injection E as <- <-. destruct (Hm o o1 _ E1) as [H1 _]. lia.
Qed.

Variable c : config.

Lemma iteration_progress (idx : Z) (start_time : float) (o o' : io)
    (r : result (option (Z * float))) :
  iteration w c idx start_time o = (o', r) ->
  (ticks o < ticks o')%nat /\
  (forall b, r = Ok b -> quiet w (ticks o) (ticks o' - ticks o)).
Proof.
  unfold iteration. apply first_step; [apply one_step_compute|].
  intros fr.
  assert (Hpace : forall i st,
    advances w (mbind (compute w (fun _ => int_mul_float i (frame_dt c))) (fun d =>
              mbind (time_perf_counter w) (fun now =>
              mbind (if flt f_0 (fsub (fadd st d) now)
                     then time_sleep w (fsub (fadd st d) now) else ret tt)
                    (fun _ => ret (Some (i, st))))))).
  { intros i st.
    apply advances_bind; [apply one_step_advances, one_step_compute|intros d].
    apply advances_bind; [apply one_step_advances, one_step_perf_counter|intros now].
    apply advances_bind; [|intros _; apply advances_ret].
    destruct (flt f_0 _); [apply one_step_advances, one_step_emit|apply advances_ret]. }
  apply advances_bind.
  { destruct (args_fit c || _);
      [apply one_step_advances, one_step_compute|apply advances_ret]. }
  intros lines.
  apply advances_bind; [apply one_step_advances, one_step_emit|intros _].
  apply advances_bind.
  { apply advances_mfor_each. intros ln.
    apply advances_bind; [apply one_step_advances, one_step_emit|intros _].
    apply one_step_advances, one_step_emit. }
  intros _.
  apply advances_bind; [apply one_step_advances, one_step_emit|intros _].
  destruct (_ <=? _); [|apply Hpace].
  destruct (args_loop c); [|apply advances_ret].
  apply advances_bind; [apply one_step_advances, one_step_perf_counter|intros st].
  apply Hpace.
Qed.

(** An exception that arrives at step [k] ends the loop: it cannot be
    stepped over. *)
Lemma while_true_interrupted (k : nat) (e : exn) :
  faults w k = Some e ->
  forall (fuel : nat) (idx : Z) (start_time : float) (o : io),
    (ticks o <= k)%nat -> (k - ticks o < fuel)%nat ->
    while_true w c fuel idx start_time o <> None.
Proof.
  intros Hk. induction fuel as [|fuel IH]; intros idx start_time o Ho Hf; [lia|].
  cbn [while_true].
  destruct (iteration w c idx start_time o) as [o' [[[idx' st']|]|e']] eqn:E;
    try discriminate.
  destruct (iteration_progress _ _ _ _ _ E) as [Hlt Q].
  assert (ticks o' <= k)%nat.
  { destruct (Nat.lt_ge_cases k (ticks o')) as [Hlt'|]; [|assumption].
    specialize (Q _ eq_refl k ltac:(lia)). congruence. }
  apply IH; lia.
Qed.

Lemma playback_ends_on_interrupt (k : nat) (e : exn) (o : io) :
  faults w k = Some e -> (ticks o <= k)%nat ->
  playback w c (S (k - ticks o)) o <> None.
Proof.
  intros Hk Ho. unfold playback.
  destruct (try_body w c (S (k - ticks o)) o) as [[o' r]|] eqn:E.
  - destruct (cleanup w o') as [o'' [u|e']]; discriminate.
  - exfalso. unfold try_body in E.
    destruct (time_perf_counter w o) as [o1 [t|e']] eqn:E1; [|discriminate].
    destruct (one_step_perf_counter _ _ _ E1) as [H1 Hq].
    assert (ticks o <> k)
      by (intros Heq; specialize (Hq _ eq_refl); rewrite Heq in Hq; congruence).
    revert E. apply (while_true_interrupted k e Hk); lia.
Qed.

End Progress.

(* ===================================================================== *)
(** * Further properties                                                  *)
(* ===================================================================== *)

(** ** The decoder *)

(** X1.  The two lists the decoder returns have the same length: every
    glyph has its colour. *)
Theorem decoded_lists_same_length (ln : str) :
  length (fst (parse_ansi_line ln)) = length (snd (parse_ansi_line ln)).
Proof. now apply (parse_loop_lengths (length ln)). Qed.

Lemma parse_loop_no_newline (n : nat) :
  forall (ln : str) (active : fg) chars fgs,
    (length ln <= n)%nat -> ~ In NL chars ->
    ~ In NL (fst (parse_loop ln active chars fgs)).
Proof.
  induction n as [|n IH]; intros ln active chars fgs Hn Hc.
  - destruct ln; [|simpl in Hn; lia]. now rewrite parse_loop_nil.
  - destruct ln as [|ch rest]; [now rewrite parse_loop_nil|].
    simpl in Hn. rewrite parse_loop_equation_2.
    destruct (introducer ch rest).
    + destruct (find_m (tl rest)) as [k|]; [|exact Hc].
      apply IH; [|exact Hc]. rewrite length_skipn. destruct rest; simpl in *; lia.
    + destruct (Ascii.eqb_spec ch NL) as [->|Hne]; apply IH; try lia; try exact Hc.
      intros Hin. apply in_app_or in Hin as [Hin|[Hin|[]]]; [now apply Hc|].
      now apply Hne.
Qed.

(** X2.  A newline is never a glyph, wherever it stands in the line. *)
Theorem newline_never_a_glyph (ln : str) :
  ~ In NL (fst (parse_ansi_line ln)).
Proof. apply (parse_loop_no_newline (length ln)); [lia|intros []]. Qed.

Lemma subseq_refl {A : Type} (l : list A) : subseq l l.
Proof. induction l; constructor; assumption. Qed.

Lemma subseq_nil_l {A : Type} (l : list A) : subseq [] l.
Proof. induction l; constructor; assumption. Qed.

Lemma subseq_skipn {A : Type} (k : nat) (g l : list A) :
  subseq g (skipn k l) -> subseq g l.
Proof.
  revert l. induction k as [|k IH]; intros l H; [exact H|].
  destruct l as [|x l]; [exact H|]. constructor. now apply IH.
Qed.

Lemma subseq_length {A : Type} (g l : list A) :
  subseq g l -> (length g <= length l)%nat.
Proof. induction 1; simpl; lia. Qed.

Lemma subseq_In {A : Type} (g l : list A) (x : A) :
  subseq g l -> In x g -> In x l.
Proof.
  induction 1 as [|y g l _ IH|y g l _ IH]; intros Hin.
  - exact Hin.
  - destruct Hin as [->|Hin]; [now left|right; now apply IH].
  - right. now apply IH.
Qed.

Lemma parse_loop_subseq (n : nat) :
  forall (ln : str) (active : fg) chars fgs,
    (length ln <= n)%nat ->
    exists g, fst (parse_loop ln active chars fgs) = chars ++ g /\ subseq g ln.
Proof.
  induction n as [|n IH]; intros ln active chars fgs Hn.
  - destruct ln; [|simpl in Hn; lia]. exists []. rewrite parse_loop_nil.
    split; [now rewrite app_nil_r|constructor].
  - destruct ln as [|ch rest].
    { exists []. rewrite parse_loop_nil. split; [now rewrite app_nil_r|constructor]. }
    simpl in Hn. rewrite parse_loop_equation_2.
    destruct (introducer ch rest) eqn:Ei.
    + apply introducer_true in Ei as [-> [body ->]]. simpl tl.
      destruct (find_m body) as [k|].
      * destruct (IH (skipn (S k) body)
                     (sgr active (parts_of (firstn k body))) chars fgs)
          as (g & Hg & Hs).
        { rewrite length_skipn. simpl in Hn. lia. }
        exists g. split; [exact Hg|].
        do 2 constructor. now apply subseq_skipn in Hs.
      * exists []. split; [now rewrite app_nil_r|apply subseq_nil_l].
    + destruct (Ascii.eqb ch NL).
      * destruct (IH rest active chars fgs ltac:(lia)) as (g & Hg & Hs).
        exists g. split; [exact Hg|now constructor].
      * destruct (IH rest active (chars ++ [ch]) (fgs ++ [active]) ltac:(lia))
          as (g & Hg & Hs).
        exists (ch :: g). split; [now rewrite Hg, <- app_assoc|now constructor].
Qed.

(** X3.  The glyphs of a decoded line are characters of the line, in the
    order of the line: decoding leaves characters out (escape sequences,
    newlines, what follows an unterminated introducer) and never adds or
    reorders one.  So a decoded line is never longer than the line. *)
Theorem glyphs_come_from_the_line (ln : str) :
  subseq (fst (parse_ansi_line ln)) ln /\
  (length (fst (parse_ansi_line ln)) <= length ln)%nat /\
  (forall ch, In ch (fst (parse_ansi_line ln)) -> In ch ln).
Proof.
  destruct (parse_loop_subseq (length ln) ln None [] [] (le_n _)) as (g & Hg & Hs).
  unfold parse_ansi_line. rewrite Hg. simpl.
  split; [exact Hs|]. split; [now apply subseq_length|].
  intros ch. now apply subseq_In.
Qed.

Lemma parse_loop_no_escape (ln : str) :
  ~ In ESC ln ->
  forall (active : fg) chars fgs,
    parse_loop ln active chars fgs
    = (chars ++ without_newlines ln,
       fgs ++ repeat active (length (without_newlines ln))).
Proof.
  induction ln as [|ch rest IH]; intros He active chars fgs.
  - rewrite parse_loop_nil. simpl. now rewrite !app_nil_r.
  - assert (Hch : ch <> ESC) by (intros ->; apply He; now left).
    assert (Hrest : ~ In ESC rest) by (intros H; apply He; now right).
    rewrite parse_loop_equation_2, (introducer_plain ch rest Hch).
    unfold without_newlines. cbn [filter].
    destruct (Ascii.eqb ch NL); cbn [negb].
    + now apply IH.
    + rewrite (IH Hrest). unfold without_newlines. cbn [length repeat].
      now rewrite <- !app_assoc.
Qed.

(** X4.  A line without an [ESC] character decodes to itself with the
    newlines taken out, every glyph uncoloured. *)
Theorem line_without_escape_passes_through (ln : str) :
  ~ In ESC ln ->
  parse_ansi_line ln
  = (without_newlines ln, repeat None (length (without_newlines ln))).
Proof. intros H. unfold parse_ansi_line. now rewrite parse_loop_no_escape. Qed.

Lemma line_without_escape_passes_through_witness :
  parse_ansi_line (lit "a[0m" ++ [NL] ++ lit "b")
  = (without_newlines (lit "a[0m" ++ [NL] ++ lit "b"),
     repeat None (length (without_newlines (lit "a[0m" ++ [NL] ++ lit "b")))).
Proof.
  apply (line_without_escape_passes_through (lit "a[0m" ++ [NL] ++ lit "b")).
  simpl. intros [H|[H|[H|[H|[H|[H|[]]]]]]]; discriminate H.
Defined.

(** ** The encoder *)

Lemma decode_code_then_x (c : color) :
  parse_ansi_line (color_code_from_fg (Some c) ++ lit "x") = (lit "x", [Some c]).
Proof.
  unfold parse_ansi_line. rewrite parse_loop_color_code.
  change (lit "x") with ["x"%char].
  rewrite parse_loop_glyph by (reflexivity || discriminate).
  now rewrite parse_loop_nil.
Qed.

(** X5.  The encoder is injective: two colour states with the same code
    are the same, and only [None] has the empty code. *)
Theorem color_code_injective (f1 f2 : fg) :
  color_code_from_fg f1 = color_code_from_fg f2 -> f1 = f2.
Proof.
  destruct f1 as [c1|], f2 as [c2|]; intros H.
  - pose proof (decode_code_then_x c1) as H1.
    rewrite H, decode_code_then_x in H1. now injection H1 as ->.
  - destruct c1; discriminate H.
  - destruct c2; discriminate H.
  - reflexivity.
Qed.

Lemma color_code_injective_witness :
  Some (truecolor 1 2 3) = Some (truecolor 1 2 3).
Proof.
  apply (color_code_injective (Some (truecolor 1 2 3)) (Some (truecolor 1 2 3))).
  reflexivity.
Defined.

(** ** Recognised sequences with more parameters *)

Lemma sgr_ansi256_more (active : fg) (I : str) (more : list str) (idx : Z) :
  int_of_str I = Ok idx ->
  sgr active (lit "38" :: lit "5" :: I :: more) = Some (ansi256 idx).
Proof.
  intros Hi. unfold sgr.
  destruct (strs_eq_dec _ _) as [E|_]; [discriminate E|].
  unfold part. cbn [nth length Nat.leb].
  change (str_eqb (lit "38") (lit "38")) with true.
  change (str_eqb (lit "5") (lit "5")) with true.
  cbn [andb]. now rewrite Hi.
Qed.

Lemma sgr_truecolor_more (active : fg) (R G B : str) (more : list str) (r g b : Z) :
  int_of_str R = Ok r -> int_of_str G = Ok g -> int_of_str B = Ok b ->
  sgr active (lit "38" :: lit "2" :: R :: G :: B :: more) = Some (truecolor r g b).
Proof.
  intros Hr Hg Hb. unfold sgr.
  destruct (strs_eq_dec _ _) as [E|_]; [discriminate E|].
  unfold part. cbn [nth length Nat.leb].
  change (str_eqb (lit "38") (lit "38")) with true.
  change (str_eqb (lit "2") (lit "5")) with false.
  change (str_eqb (lit "2") (lit "2")) with true.
  cbn [andb bind]. rewrite Hr, Hg, Hb. reflexivity.
Qed.

(** X6.  Parameters after a recognised prefix do not matter: whatever
    follows [38;5;idx] or [38;2;r;g;b] up to the closing ["m"], the
    sequence sets the colour that the prefix names, as soon as [int()]
    accepts the fields of the prefix. *)
Theorem trailing_params_are_ignored (I R G B extra rest : str) (idx r g b : Z)
    (active : fg) chars fgs :
  int_of_str I = Ok idx ->
  int_of_str R = Ok r -> int_of_str G = Ok g -> int_of_str B = Ok b ->
  Forall (fun field => ~ In ";"%char field /\ ~ In "m"%char field) [I; R; G; B] ->
  ~ In "m"%char extra ->
  parse_loop (ESC :: lit "[38;5;" ++ I ++ ";"%char :: extra ++ "m"%char :: rest)
             active chars fgs
    = parse_loop rest (Some (ansi256 idx)) chars fgs /\
  parse_loop (ESC :: lit "[38;2;" ++ R ++ ";"%char :: G ++ ";"%char :: B
                  ++ ";"%char :: extra ++ "m"%char :: rest)
             active chars fgs
    = parse_loop rest (Some (truecolor r g b)) chars fgs.
Proof.
  intros Hi Hr Hg Hb Hf He.
  inversion Hf as [|? ? [HIs HIm] Hf1]; subst.
  inversion Hf1 as [|? ? [HRs HRm] Hf2]; subst.
  inversion Hf2 as [|? ? [HGs HGm] Hf3]; subst.
  inversion Hf3 as [|? ? [HBs HBm] _]; subst.
  split.
  - replace (ESC :: lit "[38;5;" ++ I ++ ";"%char :: extra ++ "m"%char :: rest)
      with (ESC :: "["%char ::
              (lit "38" ++ ";"%char :: lit "5" ++ ";"%char :: I ++ ";"%char :: extra)
              ++ "m"%char :: rest)
      by (simpl; repeat (rewrite <- app_assoc; simpl); reflexivity).
    rewrite parse_loop_sequence.
    + rewrite parts_of_nonempty by discriminate.
      rewrite !split_app by (assumption || absent).
      now rewrite (sgr_ansi256_more _ _ _ idx Hi).
    + repeat first [assumption | apply not_in_app
                   | apply not_in_cons; [discriminate|] | apply in_nil ].
  - replace (ESC :: lit "[38;2;" ++ R ++ ";"%char :: G ++ ";"%char :: B
                 ++ ";"%char :: extra ++ "m"%char :: rest)
      with (ESC :: "["%char ::
              (lit "38" ++ ";"%char :: lit "2" ++ ";"%char :: R ++ ";"%char ::
               G ++ ";"%char :: B ++ ";"%char :: extra)
              ++ "m"%char :: rest)
      by (simpl; repeat (rewrite <- app_assoc; simpl); reflexivity).
    rewrite parse_loop_sequence.
    + rewrite parts_of_nonempty by discriminate.
      rewrite !split_app by (assumption || absent).
      now rewrite (sgr_truecolor_more _ _ _ _ _ r g b Hr Hg Hb).
    + repeat first [assumption | apply not_in_app
                   | apply not_in_cons; [discriminate|] | apply in_nil ].
Qed.

Lemma trailing_params_are_ignored_witness :
  parse_loop (ESC :: lit "[38;5;" ++ lit "7" ++ ";"%char :: lit "99"
                  ++ "m"%char :: lit "x") None [] []
    = parse_loop (lit "x") (Some (ansi256 7)) [] [] /\
  parse_loop (ESC :: lit "[38;2;" ++ lit "1" ++ ";"%char :: lit "2" ++ ";"%char
                  :: lit "3" ++ ";"%char :: lit "99" ++ "m"%char :: lit "x")
             None [] []
    = parse_loop (lit "x") (Some (truecolor 1 2 3)) [] [].
Proof.
  apply (trailing_params_are_ignored (lit "7") (lit "1") (lit "2") (lit "3")
                                     (lit "99") (lit "x") 7 1 2 3 None [] []).
  - reflexivity.
  - reflexivity.
  - reflexivity.
  - reflexivity.
  - repeat (constructor; [split; simpl; intuition discriminate|]). constructor.
  - simpl; intuition discriminate.
Defined.

(** ** Decoding what the resampler writes *)

Lemma parse_loop_transition (f : fg) (rest : str) (active : fg) chars fgs :
  parse_loop (transition f ++ rest) active chars fgs = parse_loop rest f chars fgs.
Proof.
  destruct f as [c|]; [apply parse_loop_color_code|apply parse_loop_reset].
Qed.

(** The decoder, started with the cursor of the column loop as its active
    colour, reads back the cells the loop wrote. *)
Lemma parse_loop_emit_cells (cells : list (ascii * fg)) :
  Forall (fun cell => plain_char (fst cell)) cells ->
  forall (prev : fg) (rest : str) chars fgs,
  exists last_fg,
    parse_loop (join (emit_cells prev cells) ++ rest) prev chars fgs
    = parse_loop rest last_fg (chars ++ map fst cells) (fgs ++ map snd cells).
Proof.
  induction 1 as [|[ch f] t [He Hn] _ IH]; intros prev rest chars fgs.
  - exists prev. simpl. now rewrite !app_nil_r.
  - cbn [emit_cells fst] in *. destruct (fg_eq_dec f prev) as [->|Hne].
    + destruct (IH prev rest (chars ++ [ch]) (fgs ++ [prev])) as [l E].
      exists l. unfold join in *. cbn [concat app map fst snd].
      rewrite parse_loop_glyph by (auto using introducer_plain).
      rewrite E, <- !app_assoc. reflexivity.
    + destruct (IH f rest (chars ++ [ch]) (fgs ++ [f])) as [l E].
      exists l. unfold join in *. cbn [concat map fst snd].
      rewrite <- app_assoc, parse_loop_transition. cbn [app].
      rewrite parse_loop_glyph by (auto using introducer_plain).
      rewrite E, <- !app_assoc. reflexivity.
Qed.

Lemma map_fst_twice_combine (chars : list ascii) (fgs : list fg) :
  length chars = length fgs ->
  map fst (twice (combine chars fgs)) = twice chars /\
  map snd (twice (combine chars fgs)) = twice fgs.
Proof.
  revert fgs. induction chars as [|c cs IH]; intros [|f fs] H; try discriminate.
  - now split.
  - simpl in H. injection H as H. destruct (IH fs H) as [H1 H2].
    split; simpl; now rewrite ?H1, ?H2.
Qed.

Lemma decode_row_two (row : list ascii * list fg) :
  length (fst row) = length (snd row) ->
  Forall plain_char (fst row) ->
  parse_ansi_line (row_two row) = (twice (fst row), twice (snd row)).
Proof.
  destruct row as [chars fgs]. cbn [fst snd]. intros Hl Hp.
  unfold row_two. cbn [fst snd].
  destruct chars as [|c cs] eqn:Ec.
  - destruct fgs; [reflexivity|discriminate].
  - rewrite <- Ec in *. clear Ec c cs.
    assert (Hcells : Forall (fun cell : ascii * fg => plain_char (fst cell))
                            (twice (combine chars fgs))).
    { clear - Hl Hp. revert fgs Hl.
      induction Hp as [|c cs Hc _ IH]; intros [|f fs] Hl; try discriminate;
        [constructor|].
      simpl in Hl. injection Hl as Hl. simpl.
      constructor; [exact Hc|]. constructor; [exact Hc|]. now apply IH. }
    destruct (parse_loop_emit_cells _ Hcells None (RESET ++ []) [] []) as [l E].
    destruct (map_fst_twice_combine chars fgs Hl) as [H1 H2].
    unfold parse_ansi_line, join in *. rewrite concat_app. cbn [concat].
    rewrite E, parse_loop_reset, parse_loop_nil, H1, H2. reflexivity.
Qed.

(** X7.  Decoding what the resampler writes at scale 2.0 gives the
    decoded frame with every cell doubled in both directions.  Let the
    frame be non-empty, its sizes below 2^52, and no decoded glyph an
    [ESC].  Then [scale_lines] returns, and the decoded rows of its
    output are the decoded rows of the input, each row twice and in each
    row every glyph twice with its colour. *)
Theorem decode_of_scale_two (lines : list str) (width height : Z)
    (term : terminal_size) :
  lines <> [] ->
  Z.of_nat (length lines) < 2 ^ 52 ->
  width < 2 ^ 52 ->
  Forall (fun l => Z.of_nat (length (fst (parse_ansi_line l))) < 2 ^ 52) lines ->
  Forall (fun l => ~ In ESC (fst (parse_ansi_line l))) lines ->
  exists out,
    scale_lines lines width height f_2 false term = Ok out /\
    map parse_ansi_line out
    = twice (map (fun l => (twice (fst (parse_ansi_line l)),
                            twice (snd (parse_ansi_line l)))) lines).
Proof.
  intros Hne Hh Hw Hsmall Hesc.
  exists (twice (map row_two (map parse_ansi_line lines))). split.
  - rewrite scale_lines_two. apply resample_two; try assumption.
    now apply small_rows.
  - clear Hne Hh Hw Hsmall.
    induction Hesc as [|l t Hl _ IH]; [reflexivity|].
    cbn [map]. change (twice (?x :: ?r)) with (x :: x :: twice r).
    cbn [map]. rewrite IH. rewrite decode_row_two.
    + reflexivity.
    + apply parse_ansi_line_lengths.
    + apply Forall_forall. intros ch Hin. split.
      * intros ->. now apply Hl.
      * intros ->. revert Hin.
        apply (parse_loop_no_newline (length l)); [lia|intros []].
Qed.

Lemma decode_of_scale_two_witness :
  exists out,
    scale_lines [ESC :: lit "[38;5;7mab"; lit ""] 2 2 f_2 false term80x24 = Ok out /\
    map parse_ansi_line out
    = twice (map (fun l => (twice (fst (parse_ansi_line l)),
                            twice (snd (parse_ansi_line l))))
                 [ESC :: lit "[38;5;7mab"; lit ""]).
Proof.
  apply (decode_of_scale_two [ESC :: lit "[38;5;7mab"; lit ""] 2 2 term80x24).
  - discriminate.
  - reflexivity.
  - reflexivity.
  - repeat constructor.
  - repeat constructor; vm_compute; intuition discriminate.
Defined.

(** ** The resampling pass at any scale *)

Lemma emit_cells_snoc (a : list (ascii * fg)) (ch : ascii) (f prev : fg) :
  emit_cells prev (a ++ [(ch, f)])
  = emit_cells prev a
    ++ (if fg_eq_dec f (cursor prev a) then [[ch]] else [transition f; [ch]]).
Proof.
  revert prev. induction a as [|[c0 f0] t IH]; intros prev.
  - cbn [app emit_cells cursor]. now destruct (fg_eq_dec f prev).
  - cbn [app emit_cells cursor]. destruct (fg_eq_dec f0 prev) as [->|Hne].
    + now rewrite IH.
    + now rewrite IH.
Qed.

Lemma cursor_snoc (a : list (ascii * fg)) (ch : ascii) (f prev : fg) :
  cursor prev (a ++ [(ch, f)]) = f.
Proof.
  revert prev. induction a as [|[c0 f0] t IH]; intros prev; [reflexivity|].
  cbn [app cursor]. apply IH.
Qed.

Lemma index_nth_error {A : Type} (l : list A) (i : Z) (x : A) :
  index l i = Ok x ->
  exists j, nth_error l j = Some x /\
            Z.of_nat j = (if i <? 0 then i + Z.of_nat (length l) else i).
Proof.
  unfold index. intros H.
  set (j := if i <? 0 then i + Z.of_nat (length l) else i) in *.
  destruct ((0 <=? j) && (j <? Z.of_nat (length l))) eqn:E; [|discriminate].
  apply andb_prop in E as [E1 E2]. apply Z.leb_le in E1.
  destruct (nth_error l (Z.to_nat j)) as [a|] eqn:En; [|discriminate].
  injection H as ->. exists (Z.to_nat j). split; [exact En|lia].
Qed.

Lemma index_In {A : Type} (l : list A) (i : Z) (x : A) :
  index l i = Ok x -> In x l.
Proof.
  intros H. destruct (index_nth_error l i x H) as (j & Hj & _).
  eapply nth_error_In, Hj.
Qed.

Lemma index_combine {A B : Type} (l : list A) (l' : list B) (i : Z) (a : A) (b : B) :
  length l = length l' ->
  index l i = Ok a -> index l' i = Ok b -> In (a, b) (combine l l').
Proof.
  intros Hl Ha Hb.
  destruct (index_nth_error l i a Ha) as (j & Hj & Ej).
  destruct (index_nth_error l' i b Hb) as (j' & Hj' & Ej').
  assert (j = j') by (rewrite Hl in Ej; lia). subst j'.
  apply nth_error_In with (n := j).
  clear - Hj Hj'. revert l l' Hj Hj'.
  induction j as [|j IH]; intros [|x l] [|y l'] Hj Hj'; try discriminate.
  - simpl in *. congruence.
  - simpl in *. now apply IH.
Qed.

Lemma col_step_picks (s : float) (chars : list ascii) (fgs : list fg)
    (row_w co : Z) (parts parts' : list str) (prev prev' : fg) :
  length chars = length fgs ->
  col_step s chars fgs row_w co (parts, prev) = Ok (parts', prev') ->
  exists ch,
    In (ch, prev') (combine chars fgs) /\
    parts' = parts ++ (if fg_eq_dec prev' prev then [[ch]]
                       else [transition prev'; [ch]]).
Proof.
  intros Hl H. unfold col_step in H.
  destruct (int_div co s) as [q|e]; [|discriminate]. cbn [bind] in H.
  destruct (index fgs (Z.min (row_w - 1) q)) as [f|e] eqn:Ef; [|discriminate].
  cbn [bind] in H.
  destruct (index chars (Z.min (row_w - 1) q)) as [ch|e] eqn:Ec; [|discriminate].
  cbn [bind] in H. exists ch.
  pose proof (index_combine _ _ _ _ _ Hl Ec Ef) as Hin.
  destruct (fg_eq_dec f prev) as [->|Hne]; injection H as <- <-.
  - split; [exact Hin|]. now destruct (fg_eq_dec prev prev).
  - split; [exact Hin|]. destruct (fg_eq_dec f prev) as [E|_]; [now elim Hne|].
    unfold transition. destruct f; now rewrite <- app_assoc.
Qed.

Lemma col_loop_picks (s : float) (chars : list ascii) (fgs : list fg) (row_w : Z) :
  length chars = length fgs ->
  forall (xs : list Z) (picked : list (ascii * fg)) (st' : list str * fg),
    Forall (fun cell => In cell (combine chars fgs)) picked ->
    for_each xs (col_step s chars fgs row_w)
             (emit_cells None picked, cursor None picked) = Ok st' ->
    exists picked',
      fst st' = emit_cells None picked' /\
      Forall (fun cell => In cell (combine chars fgs)) picked' /\
      length picked' = (length picked + length xs)%nat.
Proof.
  intros Hl. induction xs as [|co xs IH]; intros picked st' Hp H.
  - injection H as <-. exists picked. cbn [fst length]. repeat split; [assumption|lia].
  - cbn [for_each] in H.
    destruct (col_step s chars fgs row_w co
                       (emit_cells None picked, cursor None picked))
      as [[parts1 prev1]|e] eqn:E; [|discriminate].
    cbn [bind] in H.
    destruct (col_step_picks _ _ _ _ _ _ _ _ _ Hl E) as (ch & Hin & Hparts).
    rewrite <- emit_cells_snoc in Hparts.
    rewrite Hparts in H.
    destruct (IH (picked ++ [(ch, prev1)]) st') as (picked' & H1 & H2 & H3).
    + apply Forall_app. split; [exact Hp|]. now constructor.
    + rewrite cursor_snoc. exact H.
    + exists picked'. repeat split; try assumption.
      rewrite H3, length_app. cbn [length]. lia.
Qed.

Lemma length_range (n : Z) : length (range n) = Z.to_nat n.
Proof. unfold range. now rewrite length_map, length_seq. Qed.

Lemma row_parts_picks (s : float) (chars : list ascii) (fgs : list fg)
    (parts : list str) :
  length chars = length fgs ->
  row_parts s chars fgs = Ok parts ->
  exists w picked,
    int_mul (Z.of_nat (length chars)) s = Ok w /\
    length picked = Z.to_nat (Z.max 1 w) /\
    Forall (fun cell => In cell (combine chars fgs)) picked /\
    parts = emit_cells None picked ++ [RESET].
Proof.
  intros Hl H. unfold row_parts in H.
  destruct (int_mul (Z.of_nat (length chars)) s) as [w|e]; [|discriminate].
  cbn [bind] in H.
  destruct (for_each (range (Z.max 1 w))
                     (col_step s chars fgs (Z.of_nat (length chars))) ([], None))
    as [st|e] eqn:E; [|discriminate].
  cbn [bind] in H. injection H as <-.
  destruct (col_loop_picks s chars fgs _ Hl (range (Z.max 1 w)) [] st
              (Forall_nil _) E) as (picked & H1 & H2 & H3).
  exists w, picked. rewrite length_range in H3. cbn [length] in H3.
  repeat split; try assumption. now rewrite H1.
Qed.

Lemma row_step_from (s : float) (parsed : list (list ascii * list fg))
    (src_h ro : Z) (new_lines new_lines' : list str) :
  Forall (fun row => length (fst row) = length (snd row)) parsed ->
  row_step s parsed src_h ro new_lines = Ok new_lines' ->
  exists src row,
    In src parsed /\ resampled_from s src row /\ new_lines' = new_lines ++ [row].
Proof.
  intros Hp H. unfold row_step in H.
  destruct (int_div ro s) as [q|e]; [|discriminate]. cbn [bind] in H.
  destruct (index parsed (Z.min (src_h - 1) q)) as [[chars fgs]|e] eqn:Ei;
    [|discriminate].
  cbn [bind] in H. apply index_In in Ei.
  assert (Hl : length chars = length fgs)
    by (rewrite Forall_forall in Hp; exact (Hp _ Ei)).
  exists (chars, fgs). destruct chars as [|c cs] eqn:Ec.
  - cbn [length Nat.eqb] in H. injection H as <-. exists RESET.
    repeat split; [exact Ei|left; now split].
  - rewrite <- Ec in *. replace (length chars =? 0)%nat with false in H
      by (subst chars; reflexivity).
    destruct (row_parts s chars fgs) as [parts|e] eqn:Er; [|discriminate].
    cbn [bind] in H. injection H as <-.
    destruct (row_parts_picks _ _ _ _ Hl Er) as (w & picked & H1 & H2 & H3 & H4).
    exists (join parts). repeat split; [exact Ei|].
    right. split; [subst chars; discriminate|].
    exists w, picked. cbn [fst snd]. unfold cells_of. cbn [fst snd].
    repeat split; try assumption. now rewrite H4.
Qed.

Lemma row_loop_from (s : float) (parsed : list (list ascii * list fg)) (src_h : Z) :
  Forall (fun row => length (fst row) = length (snd row)) parsed ->
  forall (xs : list Z) (new_lines out : list str),
    for_each xs (row_step s parsed src_h) new_lines = Ok out ->
    exists rows,
      out = new_lines ++ rows /\ length rows = length xs /\
      Forall (fun row => exists src, In src parsed /\ resampled_from s src row) rows.
Proof.
  intros Hp. induction xs as [|ro xs IH]; intros new_lines out H.
  - injection H as <-. exists []. now rewrite app_nil_r.
  - cbn [for_each] in H.
    destruct (row_step s parsed src_h ro new_lines) as [nl1|e] eqn:E; [|discriminate].
    cbn [bind] in H.
    destruct (row_step_from _ _ _ _ _ _ Hp E) as (src & row & Hin & Hfrom & ->).
    destruct (IH _ _ H) as (rows & -> & Hlen & Hrows).
    exists (row :: rows). rewrite <- app_assoc. cbn [app length].
    repeat split; [now rewrite Hlen|]. constructor; [now exists src|exact Hrows].
Qed.

Lemma parsed_lengths (lines : list str) :
  Forall (fun row : list ascii * list fg => length (fst row) = length (snd row))
         (map parse_ansi_line lines).
Proof.
  apply Forall_map, Forall_forall. intros l _. apply parse_ansi_line_lengths.
Qed.

Lemma resample_nil (width height : Z) (s : float) :
  is_ok (resample [] width height s) = false.
Proof.
  unfold resample. cbn [map length Z.of_nat Z.eqb].
  destruct (int_mul (Z.max 1 width) s) as [w|e]; [|reflexivity].
  cbn [bind]. destruct (int_mul (Z.max 1 height) s) as [h|e]; [|reflexivity].
  cbn [bind]. destruct (range_first h) as [t ->]. cbn [for_each].
  unfold row_step at 1. destruct (int_div 0 s) as [q|e]; [|reflexivity].
  cbn [bind]. now rewrite index_nil.
Qed.

(** The rows of a successful resampling pass. *)
Lemma resample_rows (lines : list str) (width height : Z) (s : float)
    (out : list str) :
  resample lines width height s = Ok out ->
  lines <> [] /\
  (exists h, int_mul (Z.of_nat (length lines)) s = Ok h /\
             length out = Z.to_nat (Z.max 1 h)) /\
  Forall (fun row => exists l, In l lines /\
                               resampled_from s (parse_ansi_line l) row) out.
Proof.
  intros H.
  assert (Hne : lines <> []).
  { intros ->. pose proof (resample_nil width height s) as Hn.
    rewrite H in Hn. discriminate. }
  split; [exact Hne|].
  unfold resample in H. rewrite length_map in H.
  replace (Z.of_nat (length lines) =? 0) with false in H
    by (symmetry; apply Z.eqb_neq; destruct lines; [now elim Hne|simpl; lia]).
  match type of H with bind ?m _ = _ => destruct m as [w|e]; [|discriminate] end.
  cbn [bind] in H.
  destruct (int_mul (Z.of_nat (length lines)) s) as [h|e]; [|discriminate].
  cbn [bind] in H.
  destruct (row_loop_from s _ _ (parsed_lengths lines) _ _ _ H)
    as (rows & -> & Hlen & Hrows).
  cbn [app]. split.
  - exists h. split; [reflexivity|]. now rewrite Hlen, length_range.
  - eapply Forall_impl; [|exact Hrows].
    intros row (src & Hin & Hfrom). apply in_map_iff in Hin as (l & <- & Hl).
    now exists l.
Qed.

Lemma scale_lines_pass (lines : list str) (width height : Z) (scale : float)
    (fit_to_terminal : bool) (term : terminal_size) (out : list str) :
  scale_lines lines width height scale fit_to_terminal term = Ok out ->
  exists s,
    decide_scale width height scale fit_to_terminal term = Ok s /\
    (if near_one s then out = lines else resample lines width height s = Ok out).
Proof.
  unfold scale_lines, near_one. intros H.
  destruct (decide_scale width height scale fit_to_terminal term) as [s|e];
    [|discriminate].
  cbn [bind] in H. exists s. split; [reflexivity|].
  destruct (flt (fabs (fsub s f_1)) f_1em6); [now injection H|exact H].
Qed.

Lemma resampled_from_ends (s : float) (src : list ascii * list fg) (row : str) :
  resampled_from s src row -> ends_with_reset row.
Proof.
  intros [[_ ->]|(_ & w & picked & _ & _ & _ & ->)].
  - now exists [].
  - exists (join (emit_cells None picked)). unfold join.
    rewrite concat_app. cbn [concat]. now rewrite app_nil_r.
Qed.

(** X8.  Whenever [scale_lines] goes through the resampling pass and
    returns, whatever the scale: the frame it was given was not empty;
    its output has max(1, int(H * s)) rows, H being the number of lines
    given; and every output row ends with the reset code, so that no
    colour runs over into the next terminal line. *)
Theorem resampled_frame_shape (lines : list str) (width height : Z)
    (scale : float) (fit_to_terminal : bool) (term : terminal_size)
    (s : float) (out : list str) :
  decide_scale width height scale fit_to_terminal term = Ok s ->
  near_one s = false ->
  scale_lines lines width height scale fit_to_terminal term = Ok out ->
  lines <> [] /\ out <> [] /\
  (exists h, int_mul (Z.of_nat (length lines)) s = Ok h /\
             Z.of_nat (length out) = Z.max 1 h) /\
  Forall ends_with_reset out.
Proof.
  intros Hs Hn H.
  destruct (scale_lines_pass _ _ _ _ _ _ _ H) as (s' & Hs' & Hpass).
  rewrite Hs in Hs'. injection Hs' as <-. rewrite Hn in Hpass.
  destruct (resample_rows _ _ _ _ _ Hpass) as (Hne & (h & Hh & Hlen) & Hrows).
  split; [exact Hne|]. split.
  - intros ->. simpl in Hlen. lia.
  - split; [exists h; split; [exact Hh|lia]|].
    eapply Forall_impl; [|exact Hrows].
    intros row (l & _ & Hfrom). eapply resampled_from_ends, Hfrom.
Qed.

Lemma combine_fst_snd {A B : Type} (l : list (A * B)) :
  combine (map fst l) (map snd l) = l.
Proof. induction l as [|[a b] l IH]; simpl; [reflexivity|now rewrite IH]. Qed.

Lemma decode_emitted_row (picked : list (ascii * fg)) :
  Forall (fun cell => plain_char (fst cell)) picked ->
  parse_ansi_line (join (emit_cells None picked ++ [RESET]))
  = (map fst picked, map snd picked).
Proof.
  intros Hp.
  destruct (parse_loop_emit_cells _ Hp None (RESET ++ []) [] []) as [l E].
  unfold parse_ansi_line, join in *. rewrite concat_app. cbn [concat].
  now rewrite E, parse_loop_reset, parse_loop_nil.
Qed.

Lemma decoded_glyph_not_newline (l : str) (ch : ascii) :
  In ch (fst (parse_ansi_line l)) -> ch <> NL.
Proof.
  intros Hin ->. revert Hin.
  apply (parse_loop_no_newline (length l)); [lia|intros []].
Qed.

(** X9.  At any scale the resampler only copies cells.  When
    [scale_lines] goes through the resampling pass and returns, and no
    decoded glyph of the input is an [ESC], every output row decodes to
    cells of one input row, each glyph with the colour it had there; an
    input row without glyphs gives a row without glyphs, and an input row
    of W >= 1 glyphs gives a row of max(1, int(W * s)) glyphs. *)
Theorem resampled_cells_from_source (lines : list str) (width height : Z)
    (scale : float) (fit_to_terminal : bool) (term : terminal_size)
    (s : float) (out : list str) :
  decide_scale width height scale fit_to_terminal term = Ok s ->
  near_one s = false ->
  scale_lines lines width height scale fit_to_terminal term = Ok out ->
  Forall (fun l => ~ In ESC (fst (parse_ansi_line l))) lines ->
  Forall (fun row =>
            exists l, In l lines /\
              Forall (fun cell => In cell (cells_of (parse_ansi_line l)))
                     (cells_of (parse_ansi_line row)) /\
              ((fst (parse_ansi_line l) = [] /\ fst (parse_ansi_line row) = []) \/
               (fst (parse_ansi_line l) <> [] /\
                exists w,
                  int_mul (Z.of_nat (length (fst (parse_ansi_line l)))) s = Ok w /\
                  Z.of_nat (length (fst (parse_ansi_line row))) = Z.max 1 w)))
         out.
Proof.
  intros Hs Hn H Hesc.
  destruct (scale_lines_pass _ _ _ _ _ _ _ H) as (s' & Hs' & Hpass).
  rewrite Hs in Hs'. injection Hs' as <-. rewrite Hn in Hpass.
  destruct (resample_rows _ _ _ _ _ Hpass) as (_ & _ & Hrows).
  eapply Forall_impl; [|exact Hrows].
  intros row (l & Hl & Hfrom). exists l. split; [exact Hl|].
  destruct Hfrom as [[He ->]|(Hne & w & picked & Hw & Hlen & Hpick & ->)].
  - split; [constructor|]. left. now split.
  - assert (Hplain : Forall (fun cell : ascii * fg => plain_char (fst cell)) picked).
    { eapply Forall_impl; [|exact Hpick]. intros [ch f] Hin.
      apply in_combine_l in Hin. cbn [fst]. split.
      - intros ->. rewrite Forall_forall in Hesc. now apply (Hesc l Hl).
      - now apply (decoded_glyph_not_newline l). }
    rewrite (decode_emitted_row picked Hplain). unfold cells_of at 2.
    cbn [fst snd]. rewrite combine_fst_snd. split; [exact Hpick|].
    right. split; [exact Hne|]. exists w. split; [exact Hw|].
    rewrite length_map, Hlen. lia.
Qed.

Lemma resampled_frame_shape_witness :
  [lit "abc"; lit ""] <> [] /\
  [lit "a" ++ RESET] <> [] /\
  (exists h, int_mul (Z.of_nat (length [lit "abc"; lit ""])) f_0_01 = Ok h /\
             Z.of_nat (length [lit "a" ++ RESET]) = Z.max 1 h) /\
  Forall ends_with_reset [lit "a" ++ RESET].
Proof.
  apply (resampled_frame_shape [lit "abc"; lit ""] 3 2 f_0 false term80x24
                               f_0_01 [lit "a" ++ RESET]).
  - reflexivity.
  - vm_compute. reflexivity.
  - vm_compute. reflexivity.
Defined.

Lemma resampled_cells_from_source_witness :
  Forall (fun row =>
            exists l, In l [ESC :: lit "[38;5;7mabc"; lit ""] /\
              Forall (fun cell => In cell (cells_of (parse_ansi_line l)))
                     (cells_of (parse_ansi_line row)) /\
              ((fst (parse_ansi_line l) = [] /\ fst (parse_ansi_line row) = []) \/
               (fst (parse_ansi_line l) <> [] /\
                exists w,
                  int_mul (Z.of_nat (length (fst (parse_ansi_line l)))) f_0_01 = Ok w /\
                  Z.of_nat (length (fst (parse_ansi_line row))) = Z.max 1 w)))
         [ESC :: lit "[38;5;7ma" ++ RESET].
Proof.
  apply (resampled_cells_from_source [ESC :: lit "[38;5;7mabc"; lit ""] 3 2 f_0
           false term80x24 f_0_01 [ESC :: lit "[38;5;7ma" ++ RESET]).
  - reflexivity.
  - vm_compute. reflexivity.
  - vm_compute. reflexivity.
  - repeat constructor; vm_compute; intuition discriminate.
Defined.

(** ** The scale is positive *)

Lemma iter_pos_inv {A : Type} (P : A -> Prop) (f : A -> A) :
  (forall x, P x -> P (f x)) -> forall (p : positive) (x : A), P x -> P (iter_pos f p x).
Proof.
  intros Hf. induction p as [p IH|p IH|]; intros x Hx; cbn [iter_pos]; auto.
Qed.

Lemma shr_1_nonneg (r : shr_record) : 0 <= shr_m r -> 0 <= shr_m (shr_1 r).
Proof.
  destruct r as [m rb sb]. cbn [shr_m]. intros H.
  destruct m as [|[p|p|]|p]; cbn; lia.
Qed.

Lemma shr_nonneg (r : shr_record) (e n : Z) :
  0 <= shr_m r -> 0 <= shr_m (fst (shr r e n)).
Proof.
  intros H. unfold shr. destruct n as [|p|p]; cbn [fst]; try assumption.
  now apply (iter_pos_inv (fun r => 0 <= shr_m r) shr_1 shr_1_nonneg).
Qed.

Lemma shr_record_of_loc_m (m : Z) (l : location) : shr_m (shr_record_of_loc m l) = m.
Proof. destruct l as [|[]]; reflexivity. Qed.

Lemma round_nearest_even_nonneg (m : Z) (l : location) :
  0 <= m -> 0 <= round_nearest_even m l.
Proof.
  intros H. unfold round_nearest_even.
  destruct l as [|[]]; try assumption; [destruct (Z.even m)|]; lia.
Qed.

(** Rounding a non-negative mantissa gives a zero, a finite number or an
    infinity of the sign asked for, never a NaN. *)
Lemma binary_round_aux_signed (sx : bool) (mx ex : Z) (lx : location) :
  0 <= mx -> signed sx (binary_round_aux prec emax sx mx ex lx).
Proof.
  intros H. unfold binary_round_aux, shr_fexp.
  match goal with |- context [shr ?r ?e ?n] =>
    pose proof (shr_nonneg r e n) as H1; destruct (shr r e n) as [mrs' e'] end.
  rewrite shr_record_of_loc_m in H1. specialize (H1 H). cbn [fst] in H1.
  match goal with |- context [shr ?r ?e ?n] =>
    pose proof (shr_nonneg r e n) as H2; destruct (shr r e n) as [mrs'' e''] end.
  rewrite shr_record_of_loc_m in H2.
  specialize (H2 (round_nearest_even_nonneg _ _ H1)). cbn [fst] in H2.
  destruct (shr_m mrs'') as [|m|m]; [reflexivity| |lia].
  destruct (e'' <=? emax - prec); reflexivity.
Qed.

Lemma div_core_nonneg (m1 e1 m2 e2 : Z) :
  0 <= m1 -> 0 < m2 ->
  0 <= fst (fst (SFdiv_core_binary prec emax m1 e1 m2 e2)).
Proof.
  intros H1 H2. unfold SFdiv_core_binary.
  match goal with |- context [Z.div_eucl ?a ?b] =>
    assert (Ha : 0 <= a);
    [|pose proof (Z.div_pos a b Ha H2) as Hq; unfold Z.div in Hq;
      destruct (Z.div_eucl a b) as [q r]; exact Hq]
  end.
  match goal with |- context [match ?s with _ => _ end] => destruct s end;
    try lia.
  apply Z.shiftl_nonneg. exact H1.
Qed.

(** [a / b] on ints, when it returns, is a number. *)
Lemma int_truediv_number (a b : Z) (f : float) :
  int_truediv a b = Ok f -> is_number f.
Proof.
  unfold int_truediv. destruct (b =? 0) eqn:Eb; [discriminate|].
  apply Z.eqb_neq in Eb.
  destruct (a =? 0); [intros [= <-]; exact I|].
  pose proof (div_core_nonneg (Z.abs a) 0 (Z.abs b) 0 ltac:(lia) ltac:(lia)) as Hq.
  destruct (SFdiv_core_binary prec emax (Z.abs a) 0 (Z.abs b) 0) as [[q e] l].
  cbn [fst] in Hq.
  pose proof (binary_round_aux_signed (xorb (a <? 0) (b <? 0)) q e l Hq) as Hs.
  destruct (binary_round_aux prec emax (xorb (a <? 0) (b <? 0)) q e l);
    intros [= <-]; try exact I; contradiction.
Qed.

Lemma positive_cases (s : float) :
  flt f_0 s = true <->
  (exists m e, s = S754_finite false m e) \/ s = S754_infinity false.
Proof.
  split.
  - destruct s as [b|[]| |[] m e]; try discriminate; eauto.
  - intros [(m & e & ->)| ->]; reflexivity.
Qed.

Lemma not_le_zero_positive (s : float) :
  is_number s -> fle s f_0 = false -> flt f_0 s = true.
Proof. destruct s as [b|b| |[] m e]; try contradiction; intros _; now cbn. Qed.

Lemma fmin_number (a b : float) : is_number a -> is_number b -> is_number (fmin a b).
Proof. intros Ha Hb. unfold fmin. now destruct (flt b a). Qed.

(** The scale of lines 80-88 is above zero. *)
Lemma scale_is_positive_aux (width height : Z) (scale : float)
    (fit_to_terminal : bool) (term : terminal_size) (s : float) :
  decide_scale width height scale fit_to_terminal term = Ok s ->
  flt f_0 s = true.
Proof.
  intros H. unfold decide_scale in H. destruct fit_to_terminal.
  - destruct (int_truediv (term_columns term) (Z.max 1 width)) as [s_w|e] eqn:Ew;
      [|discriminate].
    cbn [bind] in H.
    destruct (int_truediv (Z.max 1 (term_lines term - 1)) (Z.max 1 height))
      as [s_h|e] eqn:Eh; [|discriminate].
    cbn [bind] in H. injection H as <-.
    destruct (fle (fmin s_w s_h) f_0) eqn:E; [reflexivity|].
    apply not_le_zero_positive; [|exact E].
    apply fmin_number; eapply int_truediv_number; eassumption.
  - injection H as <-. unfold fmax.
    destruct (flt f_0_01 scale) eqn:E; [|reflexivity].
    destruct scale as [b|[]| |[] m e]; try discriminate; reflexivity.
Qed.

(** X10.  The scale that lines 80-88 compute is strictly positive,
    whatever the arguments: a negative, zero or NaN [--scale] is raised
    to 0.01, and in fit mode a scale that is not above zero (a terminal
    of zero columns) is replaced by 1.0.  So the divisions [ro / s] and
    [co / s] never divide by zero. *)
Theorem scale_is_positive (width height : Z) (scale : float)
    (fit_to_terminal : bool) (term : terminal_size) (s : float) :
  decide_scale width height scale fit_to_terminal term = Ok s ->
  flt f_0 s = true /\
  (forall n, int_div_float n s <> Raise ZeroDivisionError).
Proof.
  intros H.
  pose proof (scale_is_positive_aux _ _ _ _ _ _ H) as Hpos.
  split; [exact Hpos|].
  intros n. unfold int_div_float.
  destruct (float_of_int n) as [f|e] eqn:Ef.
  - cbn [bind]. apply positive_cases in Hpos as [(m & e & ->)| ->]; discriminate.
  - cbn [bind]. unfold float_of_int in Ef.
    destruct (binary_normalize prec emax n 0 false); try discriminate;
      injection Ef as <-; discriminate.
Qed.

Lemma scale_is_positive_witness :
  flt f_0 f_1 = true /\
  (forall n, int_div_float n f_1 <> Raise ZeroDivisionError).
Proof.
  apply (scale_is_positive 80 24 f_2 true {| term_columns := 0; term_lines := 0 |} f_1).
  vm_compute. reflexivity.
Defined.

(** ** The only exception of a non-empty frame *)

Lemma shr_1_div2 (r : shr_record) :
  0 <= shr_m r -> shr_m (shr_1 r) = shr_m r / 2.
Proof.
  destruct r as [m rb sb]. cbn [shr_m]. intros H. rewrite <- Z.div2_div.
  destruct m as [|[p|p|]|p]; try reflexivity; lia.
Qed.

Lemma iter_shr_1_div (k : positive) :
  forall r, 0 <= shr_m r ->
    0 <= shr_m (iter_pos shr_1 k r) /\
    shr_m (iter_pos shr_1 k r) = shr_m r / 2 ^ Zpos k.
Proof.
  assert (Hp : forall j, 0 < 2 ^ Zpos j) by (intros j; apply Z.pow_pos_nonneg; lia).
  induction k as [k IH|k IH|]; intros r Hr; cbn [iter_pos].
  - pose proof (shr_1_nonneg r Hr) as H0. pose proof (shr_1_div2 r Hr) as E0.
    destruct (IH _ H0) as [H1 E1]. destruct (IH _ H1) as [H2 E2].
    split; [exact H2|]. rewrite E2, E1, E0.
    replace (Zpos k~1) with (1 + Zpos k + Zpos k) by lia.
    rewrite !Z.pow_add_r by lia. change (2 ^ 1) with 2.
    pose proof (Hp k).
    rewrite !Z.div_div by lia. f_equal. ring.
  - destruct (IH _ Hr) as [H1 E1]. destruct (IH _ H1) as [H2 E2].
    split; [exact H2|]. rewrite E2, E1.
    replace (Zpos k~0) with (Zpos k + Zpos k) by lia.
    rewrite !Z.pow_add_r by lia. pose proof (Hp k).
    rewrite !Z.div_div by lia. reflexivity.
  - split; [now apply shr_1_nonneg|]. now rewrite shr_1_div2.
Qed.

(** Shifting a positive mantissa to its place leaves it positive when the
    exponent is not below the subnormal range. *)
Lemma shr_fexp_pos (p : positive) (e : Z) (l : location) :
  -1073 <= e ->
  0 < shr_m (fst (shr_fexp prec emax (Zpos p) e l)) /\
  e <= snd (shr_fexp prec emax (Zpos p) e l).
Proof.
  intros He. unfold shr_fexp, fexp, emin, prec, emax. cbn [Zdigits2].
  set (d := Zpos (digits2_pos p)).
  set (n := Z.max (d + e - 53) (3 - 1024 - 53) - e).
  destruct (digits2_pos_bounds p) as [Hlo _]. fold d in Hlo.
  assert (Hn : n <= d - 1) by (subst n d; lia).
  unfold shr. destruct n as [|k|k] eqn:En; cbn [fst snd];
    rewrite ?shr_record_of_loc_m; try lia.
  destruct (iter_shr_1_div k (shr_record_of_loc (Zpos p) l)) as [_ E].
  { rewrite shr_record_of_loc_m. lia. }
  rewrite E, shr_record_of_loc_m. split; [|lia].
  apply Z.div_str_pos. split; [apply Z.pow_pos_nonneg; lia|].
  transitivity (2 ^ (d - 1)); [apply Z.pow_le_mono_r; lia|exact Hlo].
Qed.

Lemma round_nearest_even_pos (m : Z) (l : location) :
  0 < m -> 0 < round_nearest_even m l.
Proof.
  intros H. unfold round_nearest_even.
  destruct l as [|[]]; try assumption; [destruct (Z.even m)|]; lia.
Qed.

(** Rounding a positive mantissa at such an exponent gives a finite
    number or overflows: it does not vanish. *)
Lemma binary_round_aux_pos (sx : bool) (p : positive) (ex : Z) (lx : location) :
  -1073 <= ex ->
  (exists m e, binary_round_aux prec emax sx (Zpos p) ex lx = S754_finite sx m e) \/
  binary_round_aux prec emax sx (Zpos p) ex lx = S754_infinity sx.
Proof.
  intros He. unfold binary_round_aux.
  destruct (shr_fexp_pos p ex lx He) as [H1 E1].
  destruct (shr_fexp prec emax (Zpos p) ex lx) as [mrs' e']. cbn [fst snd] in H1, E1.
  pose proof (round_nearest_even_pos _ (loc_of_shr_record mrs') H1) as H2.
  destruct (round_nearest_even (shr_m mrs') (loc_of_shr_record mrs')) as [|q|q];
    try lia.
  destruct (shr_fexp_pos q e' loc_Exact ltac:(lia)) as [H3 _].
  destruct (shr_fexp prec emax (Zpos q) e' loc_Exact) as [mrs'' e''].
  cbn [fst] in H3.
  destruct (shr_m mrs'') as [|m|m]; try lia.
  destruct (e'' <=? emax - prec); [left; eauto|now right].
Qed.

(** [float(n)] for [n >= 1]: a positive finite number, or [OverflowError]. *)
Lemma float_of_int_pos (n : Z) :
  1 <= n ->
  (exists m e, float_of_int n = Ok (S754_finite false m e)) \/
  float_of_int n = Raise OverflowError.
Proof.
  intros Hn. destruct n as [|p|p]; try lia.
  unfold float_of_int, binary_normalize, binary_round, shl_align.
  set (ez := fexp prec emax (Zpos (digits2_pos p) + 0)).
  assert (Hez : -52 <= ez) by (subst ez; unfold fexp, emin, prec, emax; lia).
  destruct (ez - 0) as [|k|k] eqn:Ek.
  - destruct (binary_round_aux_pos false p 0 loc_Exact ltac:(lia))
      as [(m & e & ->)| ->]; [left; eauto|now right].
  - destruct (binary_round_aux_pos false p 0 loc_Exact ltac:(lia))
      as [(m & e & ->)| ->]; [left; eauto|now right].
  - destruct (binary_round_aux_pos false (Pos.iter xO p k) ez loc_Exact ltac:(lia))
      as [(m & e & ->)| ->]; [left; eauto|now right].
Qed.

Lemma float_of_int_nonneg (n : Z) :
  0 <= n ->
  (exists f, float_of_int n = Ok f /\ signed false f /\ is_number f) \/
  float_of_int n = Raise OverflowError.
Proof.
  intros Hn. destruct (Z.eq_dec n 0) as [->|Hz].
  - left. exists f_0. now repeat split.
  - destruct (float_of_int_pos n ltac:(lia)) as [(m & e & ->)| ->];
      [left; eexists; now repeat split|now right].
Qed.

Lemma int_of_float_signed (x : float) :
  signed false x ->
  (exists v, int_of_float x = Ok v /\ 0 <= v) \/
  int_of_float x = Raise OverflowError.
Proof.
  destruct x as [b|b| |b m e]; cbn [signed]; intros H; try contradiction; subst.
  - left. exists 0. now split.
  - now right.
  - left. cbn [int_of_float]. eexists. split; [reflexivity|].
    destruct (0 <=? e) eqn:E.
    + apply Z.mul_nonneg_nonneg; [lia|apply Z.pow_nonneg; lia].
    + apply Z.leb_gt in E. apply Z.div_pos; [lia|apply Z.pow_pos_nonneg; lia].
Qed.

Lemma fdiv_signed (x s : float) :
  signed false x -> is_number x -> flt f_0 s = true -> signed false (fdiv x s).
Proof.
  intros Hx Hn Hs. apply positive_cases in Hs as [(m & e & ->)| ->];
    destruct x as [b|b| |b mx ex]; cbn [signed is_number] in *;
    try contradiction; subst; try reflexivity.
  unfold fdiv, SFdiv. cbn [xorb].
  pose proof (div_core_nonneg (Zpos mx) ex (Zpos m) e ltac:(lia) ltac:(lia)) as Hq.
  destruct (SFdiv_core_binary prec emax (Zpos mx) ex (Zpos m) e) as [[q e'] l].
  now apply binary_round_aux_signed.
Qed.

Lemma fmul_signed (m : positive) (e : Z) (s : float) :
  flt f_0 s = true -> signed false (fmul (S754_finite false m e) s).
Proof.
  intros Hs. apply positive_cases in Hs as [(m' & e' & ->)| ->]; [|reflexivity].
  unfold fmul, SFmul. cbn [xorb]. apply binary_round_aux_signed. lia.
Qed.

(** [int(n / s)] for [n >= 0] and a positive [s]: a non-negative integer,
    or [OverflowError]. *)
Lemma int_div_cases (n : Z) (s : float) :
  0 <= n -> flt f_0 s = true ->
  (exists q, int_div n s = Ok q /\ 0 <= q) \/ int_div n s = Raise OverflowError.
Proof.
  intros Hn Hs. unfold int_div, int_div_float.
  destruct (float_of_int_nonneg n Hn) as [(f & -> & Hf & Hnum)| ->]; [|now right].
  cbn [bind].
  replace (is_zero s) with false
    by (apply positive_cases in Hs as [(m & e & ->)| ->]; reflexivity).
  cbn [bind]. apply int_of_float_signed. now apply fdiv_signed.
Qed.

(** [int(n * s)] for [n >= 1] and a positive [s]: an integer, or
    [OverflowError]. *)
Lemma int_mul_cases (n : Z) (s : float) :
  1 <= n -> flt f_0 s = true ->
  (exists w, int_mul n s = Ok w) \/ int_mul n s = Raise OverflowError.
Proof.
  intros Hn Hs. unfold int_mul, int_mul_float.
  destruct (float_of_int_pos n Hn) as [(m & e & ->)| ->]; [|now right].
  cbn [bind].
  destruct (int_of_float_signed _ (fmul_signed m e s Hs)) as [(v & -> & _)| ->];
    [left; eauto|now right].
Qed.

Lemma for_each_raise {A S : Type} (P : exn -> Prop) (body : A -> S -> result S) :
  forall (xs : list A),
    (forall x st e, In x xs -> body x st = Raise e -> P e) ->
    forall st e, for_each xs body st = Raise e -> P e.
Proof.
  induction xs as [|x xs IH]; intros Hb st e H; [discriminate|].
  cbn [for_each] in H. destruct (body x st) as [st1|e1] eqn:E.
  - cbn [bind] in H. eapply IH; [|exact H].
    intros y st' e' Hy. apply Hb. now right.
  - cbn [bind] in H. injection H as <-. eapply Hb; [now left|exact E].
Qed.

Lemma in_range_nonneg (n x : Z) : In x (range n) -> 0 <= x.
Proof. unfold range. intros H. apply in_map_iff in H as (k & <- & _). lia. Qed.

Lemma index_in_bounds {A : Type} (l : list A) (i : Z) :
  0 <= i < Z.of_nat (length l) -> exists x, index l i = Ok x.
Proof.
  intros H. destruct (nth_error l (Z.to_nat i)) as [x|] eqn:E.
  - exists x. rewrite <- (Z2Nat.id i) by lia. now apply index_nth.
  - apply nth_error_None in E. lia.
Qed.

Lemma col_step_raise (s : float) (chars : list ascii) (fgs : list fg) (co : Z)
    (st : list str * fg) (e : exn) :
  flt f_0 s = true -> length chars = length fgs -> (1 <= length chars)%nat ->
  0 <= co ->
  col_step s chars fgs (Z.of_nat (length chars)) co st = Raise e ->
  e = OverflowError.
Proof.
  intros Hs Hl Hw Hco H. unfold col_step in H. destruct st as [parts prev].
  destruct (int_div_cases co s Hco Hs) as [(q & Eq & Hq)|Eq]; rewrite Eq in H;
    cbn [bind] in H; [|now injection H].
  destruct (index_in_bounds fgs (Z.min (Z.of_nat (length chars) - 1) q)
              ltac:(lia)) as [f Ef].
  destruct (index_in_bounds chars (Z.min (Z.of_nat (length chars) - 1) q)
              ltac:(lia)) as [ch Ec].
  rewrite Ef, Ec in H. cbn [bind] in H.
  destruct (fg_eq_dec f prev); discriminate H.
Qed.

Lemma row_parts_raise (s : float) (chars : list ascii) (fgs : list fg) (e : exn) :
  flt f_0 s = true -> length chars = length fgs -> (1 <= length chars)%nat ->
  row_parts s chars fgs = Raise e -> e = OverflowError.
Proof.
  intros Hs Hl Hw H. unfold row_parts in H.
  destruct (int_mul_cases (Z.of_nat (length chars)) s ltac:(lia) Hs)
    as [(w & Ew)|Ew]; rewrite Ew in H; cbn [bind] in H; [|now injection H].
  match type of H with
  | bind ?m _ = _ => destruct m as [st|e1] eqn:E; cbn [bind] in H; [discriminate|]
  end.
  injection H as <-.
  apply (for_each_raise (fun e => e = OverflowError) _ _) in E; [exact E|].
  intros co st e Hin. apply col_step_raise; try assumption.
  eapply in_range_nonneg, Hin.
Qed.

Lemma row_step_raise (s : float) (parsed : list (list ascii * list fg)) (ro : Z)
    (new_lines : list str) (e : exn) :
  flt f_0 s = true ->
  Forall (fun row => length (fst row) = length (snd row)) parsed ->
  parsed <> [] -> 0 <= ro ->
  row_step s parsed (Z.of_nat (length parsed)) ro new_lines = Raise e ->
  e = OverflowError.
Proof.
  intros Hs Hp Hne Hro H. unfold row_step in H.
  destruct (int_div_cases ro s Hro Hs) as [(q & Eq & Hq)|Eq]; rewrite Eq in H;
    cbn [bind] in H; [|now injection H].
  assert (1 <= length parsed)%nat by (destruct parsed; [now elim Hne|simpl; lia]).
  destruct (index_in_bounds parsed (Z.min (Z.of_nat (length parsed) - 1) q)
              ltac:(lia)) as [[chars fgs] Ei].
  rewrite Ei in H. cbn [bind] in H.
  assert (Hl : length chars = length fgs).
  { apply index_In in Ei. rewrite Forall_forall in Hp. exact (Hp _ Ei). }
  destruct (length chars =? 0)%nat eqn:E0; [discriminate|].
  apply Nat.eqb_neq in E0.
  destruct (row_parts s chars fgs) as [parts|e1] eqn:Er; cbn [bind] in H;
    [discriminate|].
  injection H as <-. eapply row_parts_raise; try eassumption. lia.
Qed.

Lemma resample_raise (lines : list str) (width height : Z) (s : float) (e : exn) :
  flt f_0 s = true -> lines <> [] ->
  resample lines width height s = Raise e -> e = OverflowError.
Proof.
  intros Hs Hne H. unfold resample in H.
  set (parsed := map parse_ansi_line lines) in *.
  assert (Hpne : parsed <> [])
    by (subst parsed; destruct lines; [now elim Hne|discriminate]).
  assert (Hlen : (1 <= length parsed)%nat)
    by (destruct parsed; [now elim Hpne|simpl; lia]).
  replace (Z.of_nat (length parsed) =? 0) with false in H
    by (symmetry; apply Z.eqb_neq; lia).
  match type of H with
  | bind (int_mul ?sw s) _ = _ =>
      assert (Hsw : 1 <= sw);
      [|destruct (int_mul_cases sw s Hsw Hs) as [(w & Ew)|Ew]; rewrite Ew in H;
        cbn [bind] in H; [|now injection H]]
  end.
  { destruct parsed as [|row rest]; [now elim Hpne|].
    destruct (Z.of_nat (length (fst row)) =? 0) eqn:E0; [lia|].
    apply Z.eqb_neq in E0. lia. }
  destruct (int_mul_cases (Z.of_nat (length parsed)) s ltac:(lia) Hs)
    as [(h & Eh)|Eh]; rewrite Eh in H; cbn [bind] in H; [|now injection H].
  apply (for_each_raise (fun e => e = OverflowError) _ _) in H; [exact H|].
  intros ro st e' Hin. apply row_step_raise; try assumption.
  - subst parsed. apply parsed_lengths.
  - eapply in_range_nonneg, Hin.
Qed.

Lemma int_truediv_raise (a b : Z) (e : exn) :
  b <> 0 -> int_truediv a b = Raise e -> e = OverflowError.
Proof.
  intros Hb. unfold int_truediv. apply Z.eqb_neq in Hb. rewrite Hb.
  destruct (a =? 0); [discriminate|].
  destruct (SFdiv_core_binary prec emax (Z.abs a) 0 (Z.abs b) 0) as [[q e'] l].
  destruct (binary_round_aux prec emax (xorb (a <? 0) (b <? 0)) q e' l);
    try discriminate. now intros [= <-].
Qed.

Lemma decide_scale_raise (width height : Z) (scale : float)
    (fit_to_terminal : bool) (term : terminal_size) (e : exn) :
  decide_scale width height scale fit_to_terminal term = Raise e ->
  e = OverflowError.
Proof.
  unfold decide_scale. destruct fit_to_terminal; [|discriminate].
  destruct (int_truediv (term_columns term) (Z.max 1 width)) as [s_w|e1] eqn:Ew.
  - cbn [bind].
    destruct (int_truediv (Z.max 1 (term_lines term - 1)) (Z.max 1 height))
      as [s_h|e2] eqn:Eh; cbn [bind]; [discriminate|].
    intros [= <-]. eapply int_truediv_raise; [|exact Eh]. lia.
  - cbn [bind]. intros [= <-]. eapply int_truediv_raise; [|exact Ew]. lia.
Qed.

(** X11.  On a frame that has at least one line, [scale_lines] raises
    nothing but [OverflowError], whatever its arguments: it never indexes
    outside a row or outside the frame, never divides by zero and never
    converts a NaN.  [OverflowError] is what [int()] raises on an
    infinite product or quotient, as with [--scale inf]. *)
Theorem nonempty_frame_only_overflows (lines : list str) (width height : Z)
    (scale : float) (fit_to_terminal : bool) (term : terminal_size) (e : exn) :
  lines <> [] ->
  scale_lines lines width height scale fit_to_terminal term = Raise e ->
  e = OverflowError.
Proof.
  intros Hne H. unfold scale_lines in H.
  destruct (decide_scale width height scale fit_to_terminal term) as [s|e1] eqn:Es.
  - cbn [bind] in H.
    destruct (flt (fabs (fsub s f_1)) f_1em6); [discriminate|].
    pose proof (scale_is_positive_aux _ _ _ _ _ _ Es) as Hs.
    now apply (resample_raise lines width height s e Hs Hne).
  - cbn [bind] in H. injection H as <-. now apply decide_scale_raise in Es.
Qed.

Lemma nonempty_frame_only_overflows_witness : OverflowError = OverflowError.
Proof.
  apply (nonempty_frame_only_overflows [lit "ab"] 2 1 (S754_infinity false) false
           term80x24 OverflowError).
  - discriminate.
  - vm_compute. reflexivity.
Defined.

(** ** The resampler at scale 0.5 *)

Lemma fmul_half (m : positive) (e : Z) :
  digits2_pos m = 53%positive -> -1073 <= e <= 971 ->
  fmul (S754_finite false m e) f_half = S754_finite false m (e - 1).
Proof.
  intros Hd He. unfold fmul, f_half, SFmul. cbn [xorb].
  rewrite Pos.mul_comm. cbn [Pos.mul].
  unfold binary_round_aux, shr_fexp, fexp, emin, prec, emax.
  cbn [Zdigits2 shr_record_of_loc digits2_pos]. rewrite Hd.
  cbn [Pos.succ].
  match goal with |- context [Z.max ?a ?b - ?c] =>
    replace (Z.max a b - c) with 52 by lia end.
  cbn [shr iter_pos shr_1 orb shr_m loc_of_shr_record round_nearest_even
       Zdigits2 shr_record_of_loc shr_r shr_s].
  rewrite Hd.
  match goal with |- context [Z.max ?a ?b - ?c] =>
    replace (Z.max a b - c) with 0 by lia end.
  cbn [shr shr_m].
  replace (e + -53 + 52 <=? 1024 - 53) with true by (symmetry; apply Z.leb_le; lia).
  f_equal. lia.
Qed.

Lemma fdiv_half (m : positive) (e : Z) :
  digits2_pos m = 53%positive -> -1074 <= e <= 970 ->
  fdiv (S754_finite false m e) f_half = S754_finite false m (e + 1).
Proof.
  intros Hd He. unfold fdiv, f_half, SFdiv, SFdiv_core_binary. cbn [xorb].
  unfold fexp, emin, prec, emax.
  cbn [Zdigits2 digits2_pos]. rewrite Hd. cbn [Pos.succ].
  match goal with |- context [Z.min ?a ?b] =>
    replace (Z.min a b) with e by lia end.
  replace (e - -53 - e) with 53 by lia.
  cbn [Z.shiftl Pos.iter Z.mul Pos.mul].
  assert (Hq : Z.div_eucl (Zpos m * 2 ^ 53) 4503599627370496 = (Zpos m~0, 0)).
  { pose proof (Z.div_eucl_eq (Zpos m * 2 ^ 53) 4503599627370496 ltac:(lia)) as H.
    pose proof (Z.mod_pos_bound (Zpos m * 2 ^ 53) 4503599627370496 ltac:(lia)) as Hb.
    unfold Z.modulo in Hb.
    destruct (Z.div_eucl (Zpos m * 2 ^ 53) 4503599627370496) as [q r].
    change (2 ^ 53) with 9007199254740992 in *.
    f_equal; lia. }
  match goal with |- context [Z.div_eucl ?a ?b] =>
    replace a with (Zpos m * 2 ^ 53) by (change (2 ^ 53) with 9007199254740992; lia)
  end.
  rewrite Hq.
  cbn [new_location Z.even new_location_even Z.eqb].
  unfold binary_round_aux, shr_fexp, fexp, emin, prec, emax.
  cbn [Zdigits2 shr_record_of_loc digits2_pos]. rewrite Hd.
  cbn [Pos.succ].
  match goal with |- context [Z.max ?a ?b - ?c] =>
    replace (Z.max a b - c) with 1 by lia end.
  cbn [shr iter_pos shr_1 orb shr_m loc_of_shr_record round_nearest_even
       Zdigits2 shr_record_of_loc shr_r shr_s].
  rewrite Hd.
  match goal with |- context [Z.max ?a ?b - ?c] =>
    replace (Z.max a b - c) with 0 by lia end.
  cbn [shr shr_m].
  replace (e + 1 <=? 1024 - 53) with true by (symmetry; apply Z.leb_le; lia).
  reflexivity.
Qed.

Lemma int_mul_half (n : Z) : 0 <= n < 2 ^ 53 -> int_mul n f_half = Ok (n / 2).
Proof.
  intros [H0 Hn]. destruct (Z.eq_dec n 0) as [->|Hz]; [reflexivity|].
  destruct (float_of_int_exact n ltac:(lia)) as (m & e & Hf & Hd & He & Hv).
  unfold int_mul, int_mul_float. rewrite Hf. cbn [bind].
  rewrite fmul_half by (assumption || lia).
  unfold int_of_float. f_equal.
  replace (0 <=? e - 1) with false by (symmetry; apply Z.leb_gt; lia).
  rewrite Hv.
  replace (- (e - 1)) with (- e + 1) by lia.
  rewrite Z.pow_add_r by lia. change (2 ^ 1) with 2.
  rewrite Z.mul_comm, Z.div_mul_cancel_l; [reflexivity|lia|].
  apply Z.pow_nonzero; lia.
Qed.

Lemma int_div_half (n : Z) : 0 <= n < 2 ^ 53 -> int_div n f_half = Ok (2 * n).
Proof.
  intros [H0 Hn]. destruct (Z.eq_dec n 0) as [->|Hz]; [reflexivity|].
  destruct (float_of_int_exact n ltac:(lia)) as (m & e & Hf & Hd & He & Hv).
  unfold int_div, int_div_float. rewrite Hf. cbn [bind is_zero f_half].
  change (S754_finite false 4503599627370496 (-53)) with f_half.
  rewrite fdiv_half by (assumption || lia).
  unfold int_of_float. f_equal.
  destruct (0 <=? e + 1) eqn:E.
  - apply Z.leb_le in E. rewrite Hv.
    assert (e = 0 \/ e = -1) as [-> | ->] by lia.
    + change (2 ^ (- 0)) with 1. change (2 ^ (0 + 1)) with 2. lia.
    + change (2 ^ (- -1)) with 2. change (2 ^ (-1 + 1)) with 1. lia.
  - apply Z.leb_gt in E. rewrite Hv.
    replace (- e) with (1 + - (e + 1)) by lia.
    rewrite Z.pow_add_r by lia. change (2 ^ 1) with 2.
    rewrite Z.mul_assoc, Z.div_mul; [lia|].
    apply Z.pow_nonzero; lia.
Qed.

Lemma every_second_map {A B : Type} (f : A -> B) (l : list A) :
  every_second (map f l) = map f (every_second l).
Proof.
  unfold every_second. rewrite length_map.
  induction (seq 0 (Nat.max 1 (length l / 2))) as [|i xs IH]; [reflexivity|].
  cbn [flat_map]. rewrite map_app, IH, nth_error_map.
  now destruct (nth_error l (2 * i)).
Qed.

Lemma every_second_In {A : Type} (l : list A) (x : A) :
  In x (every_second l) -> In x l.
Proof.
  unfold every_second. intros H. apply in_flat_map in H as (i & _ & H).
  destruct (nth_error l (2 * i)) as [y|] eqn:E; [|contradiction].
  destruct H as [<-|[]]. eapply nth_error_In, E.
Qed.

(** The positions the loops visit at scale 0.5 exist. *)
Lemma half_position (n i : nat) :
  (i < Nat.max 1 (n / 2))%nat -> (1 <= n)%nat -> (2 * i < n)%nat.
Proof.
  intros Hi Hn. destruct (Nat.le_gt_cases 2 n) as [H2|H2].
  - pose proof (Nat.Div0.mul_div_le n 2).
    assert (1 <= n / 2)%nat by (apply Nat.div_le_lower_bound; lia). lia.
  - assert (n = 1)%nat by lia. subst n. simpl in Hi. lia.
Qed.

Lemma col_step_half (chars : list ascii) (fgs : list fg) (i : nat)
    (ch : ascii) (f prev : fg) (parts : list str) :
  Z.of_nat (length chars) < 2 ^ 52 ->
  nth_error chars (2 * i) = Some ch -> nth_error fgs (2 * i) = Some f ->
  col_step f_half chars fgs (Z.of_nat (length chars)) (Z.of_nat i) (parts, prev)
  = Ok (parts ++ (if fg_eq_dec f prev then [[ch]] else [transition f; [ch]]), f).
Proof.
  intros Hw Hc Hf.
  assert (2 * i < length chars)%nat by (apply nth_error_Some; congruence).
  unfold col_step.
  rewrite int_div_half by (change (2 ^ 53) with (2 * 2 ^ 52); lia).
  cbn [bind]. rewrite Z.min_r by lia.
  replace (2 * Z.of_nat i) with (Z.of_nat (2 * i)) by lia.
  rewrite (index_nth _ _ _ Hf), (index_nth _ _ _ Hc). cbn [bind].
  destruct (fg_eq_dec f prev) as [->|Hne]; [reflexivity|].
  unfold transition. destruct f; now rewrite <- app_assoc.
Qed.

Lemma nth_error_combine {A B : Type} (l : list A) (l' : list B) (k : nat) :
  nth_error (combine l l') k
  = match nth_error l k, nth_error l' k with
    | Some a, Some b => Some (a, b)
    | _, _ => None
    end.
Proof.
  revert l l'. induction k as [|k IH]; intros [|x l] [|y l']; simpl; auto.
  now destruct (nth_error l k).
Qed.

Lemma col_loop_half (chars : list ascii) (fgs : list fg) :
  length chars = length fgs ->
  Z.of_nat (length chars) < 2 ^ 52 ->
  forall (idxs : list nat) (picked : list (ascii * fg)),
    (forall i, In i idxs -> (2 * i < length chars)%nat) ->
    for_each (map Z.of_nat idxs)
             (col_step f_half chars fgs (Z.of_nat (length chars)))
             (emit_cells None picked, cursor None picked)
    = Ok (emit_cells None
            (picked ++ flat_map (fun i => match nth_error (combine chars fgs) (2 * i) with
                                          | Some x => [x]
                                          | None => []
                                          end) idxs),
          cursor None
            (picked ++ flat_map (fun i => match nth_error (combine chars fgs) (2 * i) with
                                          | Some x => [x]
                                          | None => []
                                          end) idxs)).
Proof.
  intros Hl Hw. induction idxs as [|i idxs IH]; intros picked Hi.
  - cbn [map for_each flat_map]. now rewrite app_nil_r.
  - assert (Hlt : (2 * i < length chars)%nat) by (apply Hi; now left).
    destruct (nth_error chars (2 * i)) as [ch|] eqn:Ec;
      [|apply nth_error_None in Ec; lia].
    destruct (nth_error fgs (2 * i)) as [f|] eqn:Ef;
      [|apply nth_error_None in Ef; lia].
    cbn [map for_each flat_map].
    rewrite (col_step_half chars fgs i ch f _ _ Hw Ec Ef). cbn [bind].
    rewrite nth_error_combine, Ec, Ef.
    match goal with
    | |- for_each _ _ ?st = _ =>
        replace st with (emit_cells None (picked ++ [(ch, f)]),
                         cursor None (picked ++ [(ch, f)]))
          by (now rewrite emit_cells_snoc, cursor_snoc)
    end.
    rewrite IH by (intros j Hj; apply Hi; now right).
    now rewrite <- !app_assoc.
Qed.

Lemma row_parts_half (chars : list ascii) (fgs : list fg) :
  length chars = length fgs ->
  (1 <= length chars)%nat -> Z.of_nat (length chars) < 2 ^ 52 ->
  row_parts f_half chars fgs
  = Ok (emit_cells None (every_second (combine chars fgs)) ++ [RESET]).
Proof.
  intros Hl H1 Hw. unfold row_parts.
  rewrite int_mul_half by (change (2 ^ 53) with (2 * 2 ^ 52); lia).
  cbn [bind]. unfold range.
  replace (Z.to_nat (Z.max 1 (Z.of_nat (length chars) / 2)))
    with (Nat.max 1 (length chars / 2))
    by (rewrite <- (Nat2Z.inj_div _ 2); lia).
  pose proof (col_loop_half chars fgs Hl Hw (seq 0 (Nat.max 1 (length chars / 2))) [])
    as E.
  cbn [app emit_cells cursor] in E.
  match goal with
  | |- bind ?x _ = _ =>
      replace x with (Ok (emit_cells None (every_second (combine chars fgs)),
                          cursor None (every_second (combine chars fgs))))
  end.
  - reflexivity.
  - symmetry. unfold every_second. rewrite length_combine, <- Hl, Nat.min_id.
    apply E. intros i Hi. apply in_seq in Hi. apply half_position; lia.
Qed.

Lemma row_step_half (parsed : list (list ascii * list fg)) (i : nat)
    (row : list ascii * list fg) (new_lines : list str) :
  Z.of_nat (length parsed) < 2 ^ 52 ->
  nth_error parsed (2 * i) = Some row -> small_row row ->
  row_step f_half parsed (Z.of_nat (length parsed)) (Z.of_nat i) new_lines
  = Ok (new_lines ++ [row_half row]).
Proof.
  intros Hh Hr [Hl Hw].
  assert (2 * i < length parsed)%nat by (apply nth_error_Some; congruence).
  unfold row_step.
  rewrite int_div_half by (change (2 ^ 53) with (2 * 2 ^ 52); lia).
  cbn [bind]. rewrite Z.min_r by lia.
  replace (2 * Z.of_nat i) with (Z.of_nat (2 * i)) by lia.
  rewrite (index_nth _ _ _ Hr). cbn [bind].
  destruct row as [chars_row fgs_row]. unfold row_half, cells_of. cbn [fst snd] in *.
  destruct chars_row as [|c cs] eqn:Ec; [reflexivity|].
  rewrite <- Ec in *.
  replace (length chars_row =? 0)%nat with false by (subst; reflexivity).
  rewrite row_parts_half by (try assumption; subst; cbn [length]; lia).
  subst. reflexivity.
Qed.

Lemma row_loop_half (parsed : list (list ascii * list fg)) :
  Z.of_nat (length parsed) < 2 ^ 52 ->
  Forall small_row parsed ->
  forall (idxs : list nat) (new_lines : list str),
    (forall i, In i idxs -> (2 * i < length parsed)%nat) ->
    for_each (map Z.of_nat idxs)
             (row_step f_half parsed (Z.of_nat (length parsed))) new_lines
    = Ok (new_lines
          ++ flat_map (fun i => match nth_error (map row_half parsed) (2 * i) with
                                | Some x => [x]
                                | None => []
                                end) idxs).
Proof.
  intros Hh Hs. induction idxs as [|i idxs IH]; intros new_lines Hi.
  - cbn [map for_each flat_map]. now rewrite app_nil_r.
  - assert (Hlt : (2 * i < length parsed)%nat) by (apply Hi; now left).
    destruct (nth_error parsed (2 * i)) as [row|] eqn:Er;
      [|apply nth_error_None in Er; lia].
    assert (Hrow : small_row row).
    { rewrite Forall_forall in Hs. eapply Hs, nth_error_In, Er. }
    cbn [map for_each flat_map].
    rewrite (row_step_half parsed i row new_lines Hh Er Hrow). cbn [bind].
    rewrite IH by (intros j Hj; apply Hi; now right).
    rewrite nth_error_map, Er. cbn [option_map]. now rewrite <- app_assoc.
Qed.

Lemma resample_half (lines : list str) (width height : Z) :
  lines <> [] ->
  Z.of_nat (length lines) < 2 ^ 52 -> width < 2 ^ 52 ->
  Forall small_row (map parse_ansi_line lines) ->
  resample lines width height f_half
  = Ok (map row_half (every_second (map parse_ansi_line lines))).
Proof.
  intros Hne Hh Hwd Hs. unfold resample.
  set (parsed := map parse_ansi_line lines) in *.
  assert (Hlen : length parsed = length lines) by apply length_map.
  assert (Hpos : (1 <= length lines)%nat)
    by (destruct lines; [now elim Hne|simpl; lia]).
  replace (Z.of_nat (length parsed) =? 0) with false
    by (symmetry; apply Z.eqb_neq; lia).
  set (src_w := if _ =? 0 then Z.max 1 width else _).
  assert (Hsw : 0 <= src_w < 2 ^ 53).
  { change (2 ^ 53) with (2 * 2 ^ 52). subst src_w.
    destruct parsed as [|row rest] eqn:Ep; [simpl in Hlen; lia|].
    inversion Hs as [|? ? [_ Hr] _]; subst.
    destruct (Z.of_nat (length (fst row)) =? 0); lia. }
  rewrite (int_mul_half src_w Hsw). cbn [bind].
  rewrite int_mul_half by (change (2 ^ 53) with (2 * 2 ^ 52); lia).
  cbn [bind]. unfold range.
  replace (Z.to_nat (Z.max 1 (Z.of_nat (length parsed) / 2)))
    with (Nat.max 1 (length parsed / 2))
    by (rewrite <- (Nat2Z.inj_div _ 2); lia).
  rewrite (row_loop_half parsed ltac:(lia) Hs).
  - cbn [app]. f_equal. rewrite <- every_second_map. unfold every_second.
    now rewrite length_map.
  - intros i Hi. apply in_seq in Hi. apply half_position; lia.
Qed.

Lemma decode_row_half (row : list ascii * list fg) :
  length (fst row) = length (snd row) ->
  Forall plain_char (fst row) ->
  parse_ansi_line (row_half row) = (every_second (fst row), every_second (snd row)).
Proof.
  destruct row as [chars fgs]. cbn [fst snd]. intros Hl Hp.
  unfold row_half, cells_of. cbn [fst snd].
  destruct chars as [|c cs] eqn:Ec.
  - destruct fgs; [reflexivity|discriminate].
  - rewrite <- Ec in *. clear Ec c cs.
    rewrite decode_emitted_row.
    + rewrite <- !every_second_map. f_equal; f_equal.
      * clear Hp. revert fgs Hl. induction chars as [|c cs IH]; intros [|f fs] H;
          try discriminate; [reflexivity|].
        simpl in *. f_equal. apply IH. now injection H.
      * now apply map_snd_combine.
    + apply Forall_forall. intros [ch f] Hin. apply every_second_In in Hin.
      apply in_combine_l in Hin. rewrite Forall_forall in Hp. now apply Hp.
Qed.

(** X12.  Decoding what the resampler writes at scale 0.5 gives every
    second row of the decoded frame and, in each of them, every second
    cell: the rows and cells at the even positions, half as many as there
    were (rounded down, and at least one).  The frame is not empty, its
    sizes are below 2^52 and no decoded glyph is an [ESC]. *)
Theorem decode_of_scale_half (lines : list str) (width height : Z)
    (term : terminal_size) :
  lines <> [] ->
  Z.of_nat (length lines) < 2 ^ 52 ->
  width < 2 ^ 52 ->
  Forall (fun l => Z.of_nat (length (fst (parse_ansi_line l))) < 2 ^ 52) lines ->
  Forall (fun l => ~ In ESC (fst (parse_ansi_line l))) lines ->
  exists out,
    scale_lines lines width height f_half false term = Ok out /\
    map parse_ansi_line out
    = map (fun l => (every_second (fst (parse_ansi_line l)),
                     every_second (snd (parse_ansi_line l))))
          (every_second lines).
Proof.
  intros Hne Hh Hw Hsmall Hesc.
  exists (map row_half (every_second (map parse_ansi_line lines))). split.
  - change (scale_lines lines width height f_half false term)
      with (resample lines width height f_half).
    apply resample_half; try assumption. now apply small_rows.
  - rewrite every_second_map, !map_map. apply map_ext_in.
    intros l Hl. apply every_second_In in Hl. apply decode_row_half.
    + apply parse_ansi_line_lengths.
    + apply Forall_forall. intros ch Hin. split.
      * intros ->. rewrite Forall_forall in Hesc. now apply (Hesc l Hl).
      * now apply (decoded_glyph_not_newline l).
Qed.

Lemma decode_of_scale_half_witness :
  exists out,
    scale_lines [ESC :: lit "[38;5;7mabcde"; lit "xy"; lit "z"] 5 3 f_half false
                term80x24 = Ok out /\
    map parse_ansi_line out
    = map (fun l => (every_second (fst (parse_ansi_line l)),
                     every_second (snd (parse_ansi_line l))))
          (every_second [ESC :: lit "[38;5;7mabcde"; lit "xy"; lit "z"]).
Proof.
  apply (decode_of_scale_half [ESC :: lit "[38;5;7mabcde"; lit "xy"; lit "z"] 5 3
                              term80x24).
  - discriminate.
  - reflexivity.
  - reflexivity.
  - repeat constructor.
  - repeat constructor; vm_compute; intuition discriminate.
Defined.

(** ** More on the playback loop *)

Lemma render_is_output (ls : list str) : filter is_output (render ls) = render ls.
Proof.
  unfold render. cbn [filter is_output]. f_equal. rewrite filter_app.
  cbn [filter is_output]. f_equal.
  induction ls as [|x xs IHx]; [reflexivity|].
  cbn [flat_map app filter is_output]. now rewrite IHx.
Qed.

Section QuietWorld.

Variable w : world.
Variable c : config.
Hypothesis no_fault : forall k, faults w k = None.

Lemma call_quiet {A : Type} (f : io -> io * result A) (o : io) :
  call w f o = f {| ticks := S (ticks o); written := written o |}.
Proof. unfold call. now rewrite no_fault. Qed.

Lemma emit_all_quiet (e : event) (o : io) :
  emit w e o = ({| ticks := S (ticks o); written := written o ++ [e] |}, Ok tt).
Proof. apply emit_quiet, no_fault. Qed.

Lemma mfor_each_quiet (ls : list str) (o : io) :
  exists n,
    mfor_each ls (fun ln => mbind (out_write w ln) (fun _ => out_write w [NL])) o
    = ({| ticks := n;
          written := written o ++ flat_map (fun ln => [Write ln; Write [NL]]) ls |},
       Ok tt).
Proof.
  revert o. induction ls as [|ln ls IH]; intros o.
  - exists (ticks o). cbn [mfor_each flat_map]. rewrite app_nil_r. now destruct o.
  - cbn [mfor_each]. unfold mbind at 1. unfold mbind at 1.
    unfold out_write at 1 2. rewrite emit_all_quiet, emit_all_quiet.
    destruct (IH {| ticks := S (S (ticks o));
                    written := (written o ++ [Write ln]) ++ [Write [NL]] |})
      as [n E].
    cbn [ticks written] in *. rewrite E. exists n. cbn [flat_map written].
    now rewrite <- !app_assoc.
Qed.

(** One iteration in a world where nothing arrives: it writes the frame
    and goes to the next one, to the first one again, or out. *)
Lemma iteration_quiet (idx : nat) (start_time : float) (o : io) (fr : frame)
    (ls : list str) :
  nth_error (frames c) idx = Some fr ->
  Z.of_nat (length (frames c)) < 2 ^ 53 ->
  display_lines c (get_terminal_size w (S (ticks o))) fr = Ok ls ->
  exists o' next,
    iteration w c (Z.of_nat idx) start_time o = (o', Ok next) /\
    filter is_output (written o') = filter is_output (written o) ++ render ls /\
    (next = None <-> (length (frames c) <= S idx)%nat /\ args_loop c = false) /\
    (forall i st, next = Some (i, st) ->
       (0 <= i < Z.of_nat (length (frames c))) /\
       ((S idx < length (frames c))%nat -> i = Z.of_nat (S idx) /\ st = start_time)).
Proof.
  intros Hfr Hlen Hls.
  assert (Hidx : (idx < length (frames c))%nat) by (apply nth_error_Some; congruence).
  unfold iteration. unfold mbind at 1. unfold compute at 1. rewrite call_quiet.
  rewrite (index_nth _ _ _ Hfr). cbn [ticks written].
  unfold mbind at 1.
  unfold display_lines in Hls.
  assert (Hl : exists t o1,
    (if args_fit c || flt f_1em6 (fabs (fsub (args_scale c) f_1))
     then compute w (scale_lines
                       match get_lines fr with Some l => l | None => [] end
                       (width c) (height c) (args_scale c) (args_fit c))
     else ret match get_lines fr with Some l => l | None => [] end)
      {| ticks := S (ticks o); written := written o |}
    = (o1, Ok ls) /\ ticks o1 = t /\ written o1 = written o).
  { destruct (args_fit c || flt f_1em6 (fabs (fsub (args_scale c) f_1))).
    - unfold compute. rewrite call_quiet. cbn [ticks written]. rewrite Hls.
      eexists. eexists. repeat split.
    - injection Hls as <-. eexists. eexists. repeat split. }
  destruct Hl as (t & o1 & -> & Ht & Hw1).
  unfold mbind at 1. unfold out_write at 1. rewrite emit_all_quiet.
  unfold mbind at 1.
  destruct (mfor_each_quiet ls
              {| ticks := S (ticks o1); written := written o1 ++ [Write HOME] |})
    as [n En].
  rewrite En. cbn [written].
  unfold mbind at 1. unfold out_flush. rewrite emit_all_quiet. cbn [ticks written].
  set (wr := ((written o1 ++ [Write HOME])
              ++ flat_map (fun ln => [Write ln; Write [NL]]) ls) ++ [Flush]).
  assert (Hwr : wr = written o ++ render ls).
  { subst wr. unfold render. rewrite Hw1, <- !app_assoc. reflexivity. }
  pose proof (render_is_output ls) as Hrender.
  (* pacing *)
  assert (Hpace : forall (i : Z) (o2 : io) (st : float),
    0 <= i < Z.of_nat (length (frames c)) -> written o2 = wr ->
    exists o',
      mbind (compute w (fun _ => int_mul_float i (frame_dt c))) (fun d =>
      mbind (time_perf_counter w) (fun now =>
      mbind (if flt f_0 (fsub (fadd st d) now)
             then time_sleep w (fsub (fadd st d) now) else ret tt)
            (fun _ => ret (Some (i, st))))) o2 = (o', Ok (Some (i, st))) /\
      filter is_output (written o') = filter is_output (written o) ++ render ls).
  { intros i o2 st Hi Hw2.
    assert (Hf : exists f, float_of_int i = Ok f).
    { destruct (Z.eq_dec i 0) as [->|Hz]; [now exists f_0|].
      destruct (float_of_int_exact i ltac:(lia)) as (m & e & Hf & _). eauto. }
    destruct Hf as [f Hf].
    unfold mbind at 1. unfold compute. rewrite call_quiet.
    unfold int_mul_float. rewrite Hf. cbn [bind ticks written].
    unfold mbind at 1. unfold time_perf_counter. rewrite call_quiet.
    cbn [ticks written]. unfold mbind at 1.
    match goal with |- context [flt f_0 ?d] => destruct (flt f_0 d) eqn:Ed end.
    - unfold time_sleep. rewrite emit_all_quiet. cbn [ticks written ret].
      eexists. split; [reflexivity|]. cbn [written]. rewrite Hw2, Hwr.
      rewrite !filter_app, Hrender. cbn [filter is_output]. now rewrite app_nil_r.
    - cbn [ret]. eexists. split; [reflexivity|]. cbn [written]. rewrite Hw2, Hwr.
      now rewrite filter_app, Hrender. }
  replace (Z.of_nat idx + 1) with (Z.of_nat (S idx)) by lia.
  destruct (Z.of_nat (length (frames c)) <=? Z.of_nat (S idx)) eqn:Elast.
  - apply Z.leb_le in Elast. destruct (args_loop c) eqn:Eloop.
    + unfold mbind at 1. unfold time_perf_counter at 1. rewrite call_quiet.
      cbn [ticks written].
      destruct (Hpace 0 {| ticks := S (S n); written := wr |}
                      (perf_counter w (S n)) ltac:(lia) eq_refl)
        as (o' & E & Hw').
      rewrite E. exists o', (Some (0, perf_counter w (S n))).
      split; [reflexivity|]. split; [exact Hw'|]. split.
      * split; [discriminate|]. intros [_ H]. discriminate H.
      * intros i st [= <- <-]. split; [lia|]. intros Hlt. lia.
    + cbn [ret]. eexists. exists None. split; [reflexivity|]. cbn [written].
      rewrite Hwr, filter_app, Hrender. split; [reflexivity|].
      split; [split; [intros _; split; [lia|reflexivity]|reflexivity]|].
      intros i st H. discriminate H.
  - apply Z.leb_gt in Elast.
    destruct (Hpace (Z.of_nat (S idx)) {| ticks := S n; written := wr |}
                    start_time ltac:(lia) eq_refl)
      as (o' & E & Hw').
    rewrite E. exists o', (Some (Z.of_nat (S idx), start_time)).
    split; [reflexivity|]. split; [exact Hw'|]. split.
    + split; [discriminate|]. intros [H _]. lia.
    + intros i st [= <- <-]. split; [lia|]. intros _. now split.
Qed.

Lemma setup_quiet :
  exists n,
    mbind (out_write w HIDE_CURSOR) (fun _ =>
    mbind (if args_no_clear c then ret tt else out_write w CLS) (fun _ =>
    mbind (out_write w HOME) (fun _ => out_flush w)))
      {| ticks := 0; written := [] |}
    = ({| ticks := n; written := setup_events c |}, Ok tt).
Proof.
  unfold mbind, out_write, out_flush, setup_events. rewrite emit_all_quiet.
  destruct (args_no_clear c); cbn [ret ticks written];
    rewrite ?emit_all_quiet; cbn [ticks written];
    rewrite ?emit_all_quiet; cbn [ticks written];
    rewrite ?emit_all_quiet; cbn [ticks written app];
    eexists; reflexivity.
Qed.

End QuietWorld.

Section QuietPlayback.

Variable w : world.
Variable c : config.
Hypothesis no_fault : forall k, faults w k = None.
Hypothesis displays :
  forall fr k, In fr (frames c) ->
    exists ls, display_lines c (get_terminal_size w k) fr = Ok ls.
Hypothesis few_frames : Z.of_nat (length (frames c)) < 2 ^ 53.

Lemma while_true_plays :
  args_loop c = false ->
  forall (rest done : list frame) (start_time : float) (o : io),
    frames c = done ++ rest -> rest <> [] ->
    exists o' shown,
      while_true w c (length rest) (Z.of_nat (length done)) start_time o
      = Some (o', Ok tt) /\
      Forall2 (displayed w c) rest shown /\
      filter is_output (written o')
      = filter is_output (written o) ++ flat_map render shown.
Proof.
  intros Hloop. induction rest as [|fr rest IH]; intros done start_time o Hf Hne.
  - now elim Hne.
  - assert (Hn : nth_error (frames c) (length done) = Some fr).
    { rewrite Hf, nth_error_app2, Nat.sub_diag by lia. reflexivity. }
    assert (Hin : In fr (frames c)) by (eapply nth_error_In, Hn).
    destruct (displays fr (S (ticks o)) Hin) as [ls Hls].
    destruct (iteration_quiet w c no_fault (length done) start_time o fr ls Hn
                few_frames Hls)
      as (o1 & next & E & Hw & Hnone & Hsome).
    assert (Hlen : length (frames c) = (length done + S (length rest))%nat)
      by (rewrite Hf, length_app; reflexivity).
    assert (Hd : displayed w c fr ls) by (now exists (S (ticks o))).
    cbn [length while_true]. rewrite E.
    destruct next as [[i st]|].
    + destruct (Hsome i st eq_refl) as [_ Hnext].
      destruct rest as [|fr2 rest2].
      { exfalso. cbn [length] in Hlen.
        assert (Some (i, st) = None) by (apply Hnone; split; [lia|assumption]).
        discriminate. }
      destruct Hnext as [-> ->]; [cbn [length] in Hlen; lia|].
      destruct (IH (done ++ [fr]) start_time o1) as (o' & shown & E' & Hs & Hw').
      * now rewrite <- app_assoc.
      * discriminate.
      * rewrite length_app in E'. cbn [length] in E'.
        replace (length done + 1)%nat with (S (length done)) in E' by lia.
        exists o', (ls :: shown). split; [exact E'|].
        split; [now constructor|].
        rewrite Hw', Hw, <- app_assoc. reflexivity.
    + destruct rest as [|fr2 rest2].
      * exists o1, [ls]. split; [reflexivity|].
        split; [now repeat constructor|].
        cbn [flat_map]. now rewrite app_nil_r.
      * exfalso. destruct Hnone as [Hn1 _]. destruct (Hn1 eq_refl) as [Hle _].
        cbn [length] in Hlen. lia.
Qed.

Lemma while_true_forever :
  args_loop c = true ->
  forall (fuel idx : nat) (start_time : float) (o : io),
    (idx < length (frames c))%nat ->
    while_true w c fuel (Z.of_nat idx) start_time o = None.
Proof.
  intros Hloop. induction fuel as [|fuel IH]; intros idx start_time o Hidx;
    [reflexivity|].
  destruct (nth_error (frames c) idx) as [fr|] eqn:Hn;
    [|apply nth_error_None in Hn; lia].
  assert (Hin : In fr (frames c)) by (eapply nth_error_In, Hn).
  destruct (displays fr (S (ticks o)) Hin) as [ls Hls].
  destruct (iteration_quiet w c no_fault idx start_time o fr ls Hn few_frames Hls)
    as (o1 & next & E & _ & Hnone & Hsome).
  cbn [while_true]. rewrite E. destruct next as [[i st]|].
  - destruct (Hsome i st eq_refl) as [Hi _].
    rewrite <- (Z2Nat.id i) by lia. apply IH. lia.
  - destruct Hnone as [Hn1 _]. destruct (Hn1 eq_refl) as [_ Hf]. congruence.
Qed.

End QuietPlayback.

(** X13.  Without [--loop], with or without [--fit], in a world where
    nothing is raised from outside and every frame can be displayed at
    the terminal sizes the world reports, [main] returns normally after
    as many iterations as there are frames.  Sleeps aside, it has written
    the set-up codes, then for each frame, once and in order, the
    cursor-home code, the lines the frame is displayed as at the terminal
    size of some step, each followed by a newline, and one flush, and
    last the reset code, the show-cursor code and a flush. *)
Theorem frames_played_once_in_order (w : world) (c : config) :
  (forall k, faults w k = None) ->
  (forall fr k, In fr (frames c) ->
     exists ls, display_lines c (get_terminal_size w k) fr = Ok ls) ->
  Z.of_nat (length (frames c)) < 2 ^ 53 ->
  frames c <> [] ->
  args_loop c = false ->
  exists o shown,
    main w c (length (frames c)) = Some (o, Ok tt) /\
    Forall2 (displayed w c) (frames c) shown /\
    filter is_output (written o)
    = setup_events c
      ++ flat_map render shown
      ++ [Write RESET; Write SHOW_CURSOR; Flush].
Proof.
  intros Hq Hd Hfew Hne Hloop. unfold main.
  destruct (setup_quiet w c Hq) as [n ->].
  unfold playback, try_body, time_perf_counter. rewrite (call_quiet w Hq).
  cbn [ticks written].
  destruct (while_true_plays w c Hq Hd Hfew Hloop (frames c) []
              (perf_counter w n) {| ticks := S n; written := setup_events c |}
              eq_refl Hne) as (o' & shown & E & Hs & Hw).
  cbn [length Z.of_nat] in E. rewrite E.
  rewrite (cleanup_quiet w o') by (intros j _; apply Hq).
  eexists. exists shown. split; [reflexivity|]. split; [exact Hs|].
  cbn [written].
  rewrite filter_app, Hw. cbn [written filter is_output].
  assert (Hse : filter is_output (setup_events c) = setup_events c)
    by (unfold setup_events; now destruct (args_no_clear c)).
  now rewrite Hse, <- app_assoc.
Qed.

(** X14.  With [--loop], with or without [--fit], in a world where
    nothing is raised from outside and every frame can be displayed at
    the terminal sizes the world reports, [main] never returns: only an
    interrupt or an error ends a looping playback. *)
Theorem looping_playback_never_returns (w : world) (c : config) (fuel : nat) :
  (forall k, faults w k = None) ->
  (forall fr k, In fr (frames c) ->
     exists ls, display_lines c (get_terminal_size w k) fr = Ok ls) ->
  Z.of_nat (length (frames c)) < 2 ^ 53 ->
  frames c <> [] ->
  args_loop c = true ->
  main w c fuel = None.
Proof.
  intros Hq Hd Hfew Hne Hloop. unfold main.
  destruct (setup_quiet w c Hq) as [n ->].
  unfold playback, try_body, time_perf_counter. rewrite (call_quiet w Hq).
  cbn [ticks written].
  change 0 with (Z.of_nat 0).
  rewrite (while_true_forever w c Hq Hd Hfew Hloop); [reflexivity|].
  destruct (frames c); [now elim Hne|simpl; lia].
Qed.

Lemma fit_config_displays (loop : bool) (k0 : nat) :
  forall fr k, In fr (frames (fit_config loop)) ->
    exists ls,
      display_lines (fit_config loop) (get_terminal_size (resized_at k0) k) fr
      = Ok ls.
Proof.
  intros fr k Hin. cbn [get_terminal_size resized_at].
  destruct (k <? k0)%nat; destruct Hin as [<-|[<-|[]]];
    eexists; vm_compute; reflexivity.
Qed.

Lemma frames_played_once_in_order_witness :
  exists o shown,
    main (resized_at 12) (fit_config false) (length (frames (fit_config false)))
    = Some (o, Ok tt) /\
    Forall2 (displayed (resized_at 12) (fit_config false))
            (frames (fit_config false)) shown /\
    filter is_output (written o)
    = setup_events (fit_config false)
      ++ flat_map render shown
      ++ [Write RESET; Write SHOW_CURSOR; Flush].
Proof.
  apply (frames_played_once_in_order (resized_at 12) (fit_config false)).
  - intros k. reflexivity.
  - exact (fit_config_displays false 12).
  - reflexivity.
  - discriminate.
  - reflexivity.
Defined.

Lemma looping_playback_never_returns_witness :
  main (resized_at 12) (fit_config true) 7 = None.
Proof.
  apply (looping_playback_never_returns (resized_at 12) (fit_config true) 7).
  - intros k. reflexivity.
  - exact (fit_config_displays true 12).
  - reflexivity.
  - discriminate.
  - reflexivity.
Defined.

(** The playback with [--fit] while the terminal is resized: the first
    frame is shown at scale 2.0, the second at scale 4.0. *)
Example playback_resized :
  option_map (fun p => filter is_output (written (fst p)))
             (main (resized_at 12) (fit_config false) 2)
  = Some (setup_events (fit_config false)
          ++ render [lit "aabb" ++ RESET; lit "aabb" ++ RESET]
          ++ render [lit "ccccdddd" ++ RESET; lit "ccccdddd" ++ RESET;
                     lit "ccccdddd" ++ RESET; lit "ccccdddd" ++ RESET]
          ++ [Write RESET; Write SHOW_CURSOR; Flush]).
Proof. vm_compute. reflexivity. Qed.

(** *** Sleeps *)

Section Sleeps.

Variable w : world.

Lemma keeps_ret {A : Type} (a : A) : keeps_sound (ret a).
Proof. intros o o' r [= <- <-]. auto. Qed.

Lemma keeps_bind {A B : Type} (m : M A) (k : A -> M B) :
  keeps_sound m -> (forall a, keeps_sound (k a)) -> keeps_sound (mbind m k).
Proof.
  intros Hm Hk o o' r E Ho. unfold mbind in E.
  destruct (m o) as [o1 [a|e]] eqn:E1.
  - eapply Hk; [exact E|]. eapply Hm; eassumption.
  - injection E as <- <-. eapply Hm; eassumption.
Qed.

Lemma keeps_emit (e : event) : sound_event e -> keeps_sound (emit w e).
Proof.
  intros He o o' r E Ho. unfold emit, call in E.
  destruct (faults w (ticks o)); injection E as <- <-; cbn [written]; auto.
  apply Forall_app. split; [exact Ho|]. now constructor.
Qed.

Lemma keeps_perf_counter : keeps_sound (time_perf_counter w).
Proof.
  intros o o' r E Ho. unfold time_perf_counter, call in E.
  destruct (faults w (ticks o)); injection E as <- <-; exact Ho.
Qed.

Lemma keeps_compute {A : Type} (f : terminal_size -> result A) :
  keeps_sound (compute w f).
Proof.
  intros o o' r E Ho. unfold compute, call in E.
  destruct (faults w (ticks o)); injection E as <- <-; exact Ho.
Qed.

Lemma keeps_mfor_each {A : Type} (xs : list A) (body : A -> M unit) :
  (forall x, keeps_sound (body x)) -> keeps_sound (mfor_each xs body).
Proof.
  intros Hb. induction xs as [|x xs IH]; cbn [mfor_each].
  - apply keeps_ret.
  - apply keeps_bind; [apply Hb|intros _; exact IH].
Qed.

Variable c : config.

Lemma keeps_iteration (idx : Z) (start_time : float) :
  keeps_sound (iteration w c idx start_time).
Proof.
  unfold iteration.
  assert (Hpace : forall i st,
    keeps_sound (mbind (compute w (fun _ => int_mul_float i (frame_dt c))) (fun d =>
                 mbind (time_perf_counter w) (fun now =>
                 mbind (if flt f_0 (fsub (fadd st d) now)
                        then time_sleep w (fsub (fadd st d) now) else ret tt)
                       (fun _ => ret (Some (i, st))))))).
  { intros i st.
    apply keeps_bind; [apply keeps_compute|intros d].
    apply keeps_bind; [apply keeps_perf_counter|intros now].
    apply keeps_bind; [|intros _; apply keeps_ret].
    destruct (flt f_0 _) eqn:E; [apply keeps_emit; exact E|apply keeps_ret]. }
  apply keeps_bind; [apply keeps_compute|intros fr].
  apply keeps_bind.
  { destruct (args_fit c || _); [apply keeps_compute|apply keeps_ret]. }
  intros lines.
  apply keeps_bind; [now apply keeps_emit|intros _].
  apply keeps_bind.
  { apply keeps_mfor_each. intros ln.
    apply keeps_bind; [now apply keeps_emit|intros _]. now apply keeps_emit. }
  intros _.
  apply keeps_bind; [now apply keeps_emit|intros _].
  destruct (_ <=? _); [|apply Hpace].
  destruct (args_loop c); [|apply keeps_ret].
  apply keeps_bind; [apply keeps_perf_counter|intros st].
  apply Hpace.
Qed.

Lemma keeps_while_true (fuel : nat) :
  forall (idx : Z) (start_time : float) (o o' : io) (r : result unit),
    while_true w c fuel idx start_time o = Some (o', r) ->
    Forall sound_event (written o) -> Forall sound_event (written o').
Proof.
  induction fuel as [|fuel IH]; intros idx start_time o o' r H Ho; [discriminate|].
  cbn [while_true] in H.
  destruct (iteration w c idx start_time o) as [o1 [[[i st]|]|e]] eqn:E;
    pose proof (keeps_iteration _ _ _ _ _ E Ho) as H1.
  - eapply IH; eassumption.
  - now injection H as <- <-.
  - now injection H as <- <-.
Qed.

Lemma keeps_cleanup : keeps_sound (cleanup w).
Proof.
  unfold cleanup.
  apply keeps_bind; [now apply keeps_emit|intros _].
  apply keeps_bind; [now apply keeps_emit|intros _]. now apply keeps_emit.
Qed.

End Sleeps.

(** X15.  Whatever happens from outside and however the playback ends,
    [time.sleep] is only ever called with a duration above zero: never
    with zero, a negative number or a NaN. *)
Theorem sleeps_are_positive (w : world) (c : config) (fuel : nat) (o : io)
    (r : result unit) :
  main w c fuel = Some (o, r) ->
  Forall sound_event (written o).
Proof.
  unfold main. intros H.
  match type of H with
  | match ?m ?o0 with _ => _ end = _ =>
      assert (Hs : keeps_sound m);
      [|destruct (m o0) as [o1 [u|e]] eqn:E;
        pose proof (Hs _ _ _ E (Forall_nil _)) as H1]
  end.
  { apply keeps_bind; [now apply keeps_emit|intros _].
    apply keeps_bind.
    { destruct (args_no_clear c); [apply keeps_ret|now apply keeps_emit]. }
    intros _. apply keeps_bind; [now apply keeps_emit|intros _].
    now apply keeps_emit. }
  - unfold playback, try_body in H.
    destruct (time_perf_counter w o1) as [o2 [t|e]] eqn:Et;
      pose proof (keeps_perf_counter w _ _ _ Et H1) as H2.
    + destruct (while_true w c fuel 0 t o2) as [[o3 r3]|] eqn:Ew; [|discriminate].
      pose proof (keeps_while_true w c fuel _ _ _ _ _ Ew H2) as H3.
      destruct (cleanup w o3) as [o4 [u4|e4]] eqn:Ec;
        pose proof (keeps_cleanup w _ _ _ Ec H3) as H4;
        now injection H as <- _.
    + destruct (cleanup w o2) as [o4 [u4|e4]] eqn:Ec;
        pose proof (keeps_cleanup w _ _ _ Ec H2) as H4;
        now injection H as <- _.
  - now injection H as <- _.
Qed.

Lemma sleeps_are_positive_witness :
  exists o r,
    main no_faults (demo_config false demo_frames) 2 = Some (o, r) /\
    Exists (fun e => is_output e = false) (written o) /\
    Forall sound_event (written o).
Proof.
  destruct (main no_faults (demo_config false demo_frames) 2) as [[o r]|] eqn:E;
    [|vm_compute in E; discriminate].
  exists o, r. split; [reflexivity|]. split.
  - vm_compute in E. injection E as <- _.
    repeat first [apply Exists_cons_hd; reflexivity | apply Exists_cons_tl].
  - exact (sleeps_are_positive no_faults (demo_config false demo_frames) 2 o r E).
Defined.

(* ===================================================================== *)
(** * The decoder, followed from the start of the line                   *)
(* ===================================================================== *)

Lemma parts_three (parts : list str) :
  (3 <= length parts)%nat ->
  exists more, parts = part parts 0 :: part parts 1 :: part parts 2 :: more.
Proof.
  destruct parts as [|a [|b [|d more]]]; simpl; intros H; try lia.
  now exists more.
Qed.

Lemma parts_five (parts : list str) :
  (5 <= length parts)%nat ->
  exists more, parts = part parts 0 :: part parts 1 :: part parts 2
                       :: part parts 3 :: part parts 4 :: more.
Proof.
  destruct parts as [|a [|b [|d [|e [|f more]]]]]; simpl; intros H; try lia.
  now exists more.
Qed.

(** A sequence leaves the colour as it was or sets the one read from
    its fields. *)
Lemma sgr_read_from (active : fg) (params : str) (c : color) :
  sgr active (parts_of params) = Some c ->
  active = Some c \/ read_from params c.
Proof.
  unfold sgr.
  destruct (strs_eq_dec (parts_of params) [lit "0"]) as [_|_]; [discriminate|].
  destruct ((3 <=? length (parts_of params))%nat && _ && _) eqn:E5.
  - apply andb_prop in E5 as [E5 E1]. apply andb_prop in E5 as [El E0].
    apply Nat.leb_le in El. apply str_eqb_eq in E0, E1.
    destruct (parts_three _ El) as [more Hp]. rewrite E0, E1 in Hp.
    destruct (int_of_str (part (parts_of params) 2)) as [idx|e] eqn:Ei;
      [|now left].
    intros [= <-]. right. simpl. eauto.
  - destruct ((5 <=? length (parts_of params))%nat && _ && _) eqn:E2;
      [|now left].
    apply andb_prop in E2 as [E2 E1]. apply andb_prop in E2 as [El E0].
    apply Nat.leb_le in El. apply str_eqb_eq in E0, E1.
    destruct (parts_five _ El) as [more Hp]. rewrite E0, E1 in Hp.
    destruct (int_of_str (part (parts_of params) 2)) as [r|e] eqn:Er; [|now left].
    destruct (int_of_str (part (parts_of params) 3)) as [g|e] eqn:Eg; [|now left].
    destruct (int_of_str (part (parts_of params) 4)) as [b|e] eqn:Eb; [|now left].
    simpl. intros [= <-]. right. simpl. eauto 10.
Qed.

(** The decoder's loop, followed from the start of the line: every
    colour it pairs with a glyph was set by a sequence it arrived at. *)
Lemma parse_loop_set_by (ln : str) (n : nat) :
  forall (pre suffix : str) (active : fg) chars fgs,
    (length suffix <= n)%nat ->
    ln = pre ++ suffix ->
    (forall tail, hd_error tail = hd_error suffix ->
       parse_loop (pre ++ tail) None [] [] = parse_loop tail active chars fgs) ->
    (forall c, active = Some c -> set_by_sequence ln c) ->
    (forall c, In (Some c) fgs -> set_by_sequence ln c) ->
    forall c, In (Some c) (snd (parse_loop suffix active chars fgs)) ->
              set_by_sequence ln c.
Proof.
  induction n as [|n IH]; intros pre suffix active chars fgs Hn Hln Hat Ha Hf c.
  - destruct suffix; [|simpl in Hn; lia]. rewrite parse_loop_nil. apply Hf.
  - destruct suffix as [|ch rest]; [rewrite parse_loop_nil; apply Hf|].
    simpl in Hn. rewrite parse_loop_equation_2.
    assert (Hstep : forall a' chars' fgs',
      (forall tail, hd_error tail = hd_error rest ->
         parse_loop (ch :: tail) active chars fgs = parse_loop tail a' chars' fgs') ->
      forall tail, hd_error tail = hd_error rest ->
        parse_loop ((pre ++ [ch]) ++ tail) None [] []
        = parse_loop tail a' chars' fgs').
    { intros a' chars' fgs' H tail Ht. rewrite <- app_assoc. cbn [app].
      rewrite (Hat (ch :: tail)) by reflexivity. now apply H. }
    assert (Hintro : forall tail, hd_error tail = hd_error rest ->
              introducer ch tail = introducer ch rest).
    { intros tail Ht. unfold introducer.
      destruct tail, rest; simpl in Ht; try discriminate; try reflexivity.
      now injection Ht as ->. }
    destruct (introducer ch rest) eqn:Ei.
    + apply introducer_true in Ei as [-> [body ->]]. simpl tl.
      destruct (find_m body) as [k|] eqn:Ek; [|apply Hf].
      destruct (find_m_some _ _ Ek) as (post & Hbody & Hskip & Hm & _).
      set (params := firstn k body) in *. rewrite Hskip.
      assert (Hscan : scans pre active chars fgs).
      { intros tail. now apply Hat. }
      apply (IH (pre ++ ESC :: "["%char :: params ++ ["m"%char])).
      * rewrite <- Hskip, length_skipn. simpl in Hn. lia.
      * rewrite Hln, Hbody, <- app_assoc. cbn [app]. rewrite <- app_assoc.
        reflexivity.
      * intros tail _. rewrite <- app_assoc. cbn [app]. rewrite <- app_assoc.
        cbn [app]. rewrite Hscan. now apply parse_loop_sequence.
      * intros c' Hc'. apply sgr_read_from in Hc' as [Hc'|Hc']; [now apply Ha|].
        exists pre, params, post, active, chars, fgs.
        split; [now rewrite Hln, Hbody|]. auto.
      * exact Hf.
    + destruct (Ascii.eqb_spec ch NL) as [->|Hnl].
      * apply (IH (pre ++ [NL])); try assumption; try lia.
        -- rewrite Hln, <- app_assoc. reflexivity.
        -- apply Hstep. intros tail _. apply parse_loop_newline.
      * apply (IH (pre ++ [ch])); try assumption; try lia.
        -- rewrite Hln, <- app_assoc. reflexivity.
        -- apply Hstep. intros tail Ht. apply parse_loop_glyph; [|exact Hnl].
           now rewrite Hintro.
        -- intros c' Hc'. apply in_app_or in Hc' as [Hc'|[Hc'|[]]];
             [now apply Hf|now apply Ha].
Qed.

(** C5, as stated, fails.  The decoder keeps whatever integer [int()]
    reads: 999 as a palette index, and -1 and 256 as colour channels. *)
Lemma out_of_range_counterexample :
  parse_ansi_line (ESC :: lit "[38;5;999mx") = (lit "x", [Some (ansi256 999)]) /\
  parse_ansi_line (ESC :: lit "[38;2;-1;256;0mx")
    = (lit "x", [Some (truecolor (-1) 256 0)]) /\
  ~ (0 <= 999 <= 255) /\ ~ (0 <= -1 <= 255).
Proof. repeat split; try reflexivity; lia. Qed.

(** C5, amended.  Every colour the decoder pairs with a glyph is [None],
    [truecolor r g b] or [ansi256 idx], and one that is not [None] was
    set by an escape sequence [ESC [ params m] of the line that the
    decoder arrived at: idx is what [int()] reads from the whole third
    field of [38;5;...], and r, g, b what it reads from the third, fourth
    and fifth fields of [38;2;...].  No range check is applied: every
    integer, negative or above 255 as well, is decoded from its decimal
    numeral, so a component lies in [0,255] exactly when the field it
    was read from does. *)
Theorem decoded_components_from_fields (c : color) :
  (forall ln, In (Some c) (snd (parse_ansi_line ln)) -> set_by_sequence ln c) /\
  (forall idx : Z,
     parse_ansi_line (ESC :: lit "[38;5;" ++ str_of_int idx ++ lit "mx")
     = (lit "x", [Some (ansi256 idx)])) /\
  (forall r g b : Z,
     parse_ansi_line (ESC :: lit "[38;2;" ++ str_of_int r ++ lit ";"
                          ++ str_of_int g ++ lit ";" ++ str_of_int b ++ lit "mx")
     = (lit "x", [Some (truecolor r g b)])).
Proof.
  split; [|split].
  - intros ln Hc.
    apply (parse_loop_set_by ln (length ln) [] ln None [] []); auto.
    + discriminate.
    + intros c' [].
  - intros idx. unfold parse_ansi_line.
    replace (ESC :: lit "[38;5;" ++ str_of_int idx ++ lit "mx")
      with (color_code_from_fg (Some (ansi256 idx)) ++ lit "x")
      by (simpl; repeat (rewrite <- app_assoc; simpl); reflexivity).
    rewrite parse_loop_color_code. change (lit "x") with ["x"%char].
    rewrite parse_loop_glyph by (reflexivity || discriminate).
    apply parse_loop_nil.
  - intros r g b. unfold parse_ansi_line.
    replace (ESC :: lit "[38;2;" ++ str_of_int r ++ lit ";"
                 ++ str_of_int g ++ lit ";" ++ str_of_int b ++ lit "mx")
      with (color_code_from_fg (Some (truecolor r g b)) ++ lit "x")
      by (simpl; repeat (rewrite <- app_assoc; simpl); reflexivity).
    rewrite parse_loop_color_code. change (lit "x") with ["x"%char].
    rewrite parse_loop_glyph by (reflexivity || discriminate).
    apply parse_loop_nil.
Qed.

Lemma decoded_components_from_fields_witness :
  set_by_sequence (ESC :: lit "[38;5;999mx") (ansi256 999).
Proof.
  apply (proj1 (decoded_components_from_fields (ansi256 999))).
  vm_compute. left. reflexivity.
Defined.

Lemma first_m_unique (p p' q q' : str) :
  ~ In "m"%char p -> ~ In "m"%char p' ->
  p ++ "m"%char :: q = p' ++ "m"%char :: q' -> p = p' /\ q = q'.
Proof.
  revert p'. induction p as [|c p IH]; intros [|c' p'] Hp Hp' H; simpl in H.
  - now injection H.
  - injection H as <- _. elim Hp'. now left.
  - injection H as -> _. elim Hp. now left.
  - injection H as <- H. destruct (IH p') as [-> ->]; auto.
    + intros Hin. apply Hp. now right.
    + intros Hin. apply Hp'. now right.
Qed.

(** A field is read whole: the line [ESC[38;5;999mx] has no sequence
    that the colour [ansi256 99] is read from, although ["99"] occurs in
    it. *)
Example field_read_whole :
  ~ set_by_sequence (ESC :: lit "[38;5;999mx") (ansi256 99).
Proof.
  intros (pre & params & post & a & gs & cols & Hln & Hm & _ & I & more & Hp & Hi).
  destruct pre as [|ch pre].
  - cbn [app] in Hln. injection Hln as Hln.
    apply (first_m_unique (lit "38;5;999") params (lit "x") post) in Hln as [<- _];
      [|simpl; intuition discriminate|exact Hm].
    vm_compute in Hp. injection Hp as <- _. vm_compute in Hi. discriminate Hi.
  - cbn [app] in Hln. injection Hln as _ Hln.
    assert (Hin : In ESC (pre ++ ESC :: "["%char :: params ++ "m"%char :: post))
      by (apply in_or_app; right; now left).
    rewrite <- Hln in Hin. simpl in Hin. intuition discriminate.
Qed.

(** *** A lone [ESC] *)

Lemma parse_loop_extends (n : nat) :
  forall (ln : str) (active : fg) chars fgs,
    (length ln <= n)%nat ->
    exists chars' fgs',
      parse_loop ln active chars fgs = (chars ++ chars', fgs ++ fgs').
Proof.
  induction n as [|n IH]; intros ln active chars fgs Hn.
  - destruct ln; [|simpl in Hn; lia]. rewrite parse_loop_nil.
    exists [], []. now rewrite !app_nil_r.
  - destruct ln as [|ch rest].
    { rewrite parse_loop_nil. exists [], []. now rewrite !app_nil_r. }
    simpl in Hn. rewrite parse_loop_equation_2.
    destruct (introducer ch rest) eqn:Ei.
    + destruct (find_m (tl rest)) as [k|].
      * apply IH. rewrite length_skipn. destruct rest; simpl in *; lia.
      * exists [], []. now rewrite !app_nil_r.
    + destruct (Ascii.eqb ch NL).
      * apply IH. lia.
      * destruct (IH rest active (chars ++ [ch]) (fgs ++ [active]) ltac:(lia))
          as (chars' & fgs' & ->).
        exists (ch :: chars'), (active :: fgs'). now rewrite <- !app_assoc.
Qed.

Lemma lone_esc_step (rest : str) (active : fg) chars fgs :
  hd_error rest <> Some "["%char ->
  parse_loop (ESC :: rest) active chars fgs
  = parse_loop rest active (chars ++ [ESC]) (fgs ++ [active]).
Proof.
  intros H. apply parse_loop_glyph; [|discriminate].
  unfold introducer. destruct rest as [|c t]; [reflexivity|].
  simpl. destruct (Ascii.eqb_spec c "[") as [->|_]; [|reflexivity].
  now elim H.
Qed.

Lemma scans_lengths (pre : str) (active : fg) chars fgs :
  scans pre active chars fgs -> length chars = length fgs.
Proof.
  intros Hs. pose proof (parse_ansi_line_lengths (pre ++ [ESC])) as H.
  unfold parse_ansi_line in H. rewrite Hs in H.
  rewrite lone_esc_step, parse_loop_nil in H by discriminate.
  cbn [fst snd] in H. rewrite !length_app in H. simpl in H. lia.
Qed.

Lemma combine_app_same {A B : Type} (l1 l2 : list A) (m1 m2 : list B) :
  length l1 = length m1 ->
  combine (l1 ++ l2) (m1 ++ m2) = combine l1 m1 ++ combine l2 m2.
Proof.
  revert m1. induction l1 as [|x l1 IH]; intros [|y m1] H; try discriminate H.
  - reflexivity.
  - simpl. f_equal. apply IH. now injection H.
Qed.

Lemma twice_app {A : Type} (l1 l2 : list A) : twice (l1 ++ l2) = twice l1 ++ twice l2.
Proof. apply flat_map_app. Qed.

Lemma emit_cells_app (a b : list (ascii * fg)) (prev : fg) :
  emit_cells prev (a ++ b) = emit_cells prev a ++ emit_cells (cursor prev a) b.
Proof.
  revert prev. induction a as [|[ch f] t IH]; intros prev; [reflexivity|].
  cbn [app emit_cells cursor]. destruct (fg_eq_dec f prev) as [->|Hne].
  - now rewrite IH.
  - now rewrite IH.
Qed.

Lemma join_app (a b : list str) : join (a ++ b) = join a ++ join b.
Proof. apply concat_app. Qed.

(** The doubled cell of a glyph: the code of its colour when the colour
    changes, and the glyph twice. *)
Lemma emit_cells_pair (ch : ascii) (f prev : fg) (t : list (ascii * fg)) :
  join (emit_cells prev ((ch, f) :: (ch, f) :: t))
  = (if fg_eq_dec f prev then [] else transition f)
    ++ ch :: ch :: join (emit_cells f t).
Proof.
  cbn [emit_cells]. destruct (fg_eq_dec f prev) as [->|Hne].
  - destruct (fg_eq_dec prev prev); [reflexivity|congruence].
  - destruct (fg_eq_dec f f); [|congruence]. unfold join. cbn [concat app].
    reflexivity.
Qed.

Lemma emit_cells_In (ch : ascii) (f prev : fg) (cells : list (ascii * fg)) :
  In (ch, f) cells -> In [ch] (emit_cells prev cells).
Proof.
  revert prev. induction cells as [|[c0 f0] t IH]; intros prev H; [destruct H|].
  cbn [emit_cells]. destruct H as [[= -> ->]|H].
  - destruct (fg_eq_dec f prev); [now left|right; now left].
  - destruct (fg_eq_dec f0 prev); [right|right; right]; now apply IH.
Qed.

(** C10, as stated, fails.  An [ESC] that is not followed by ["["] is a
    glyph only where the decoder arrives at it.  Inside the parameters
    of a sequence it is read as parameter text: in [ESC[3 ESC 1mx] the
    second [ESC] is followed by ["1"] and is not decoded as a glyph.
    After an unterminated introducer nothing is decoded: the last
    character of [a ESC[12 ESC] is an [ESC] and the line decodes to
    [a]. *)
Lemma esc_not_reached_counterexample :
  nth_error (ESC :: lit "[3" ++ ESC :: lit "1mx") 3 = Some ESC /\
  nth_error (ESC :: lit "[3" ++ ESC :: lit "1mx") 4 = Some "1"%char /\
  parse_ansi_line (ESC :: lit "[3" ++ ESC :: lit "1mx") = (lit "x", [None]) /\
  ~ In ESC (fst (parse_ansi_line (ESC :: lit "[3" ++ ESC :: lit "1mx"))) /\
  parse_ansi_line (lit "a" ++ ESC :: lit "[12" ++ [ESC]) = (lit "a", [None]).
Proof.
  repeat split; try reflexivity.
  vm_compute. intros [H|[]]. discriminate H.
Qed.

(** C10, amended.  An [ESC] that the decoder arrives at and that is not
    immediately followed by ["["], the last character of the line
    included, is not an introducer: in the lists the decoder returns for
    the line it is the next glyph after those decoded so far, paired with
    the active colour.  The resampler writes such a glyph like any other.
    At scale 2.0, when the line is line [i] of a frame, the rows [2i] and
    [2i+1] hold, between what is written for the cells before and after
    it, the code of its colour if the colour changes there and then the
    raw [ESC] byte twice.  At any scale, with or without fit, the output
    is the frame as it was given or every row of it is written from
    cells picked from one decoded line, and a row for which the cell of
    the [ESC] is picked has the raw one-character part [ESC]. *)
Theorem lone_esc_is_glyph (pre rest : str) (active : fg) chars fgs :
  scans pre active chars fgs ->
  hd_error rest <> Some "["%char ->
  exists chars' fgs',
    parse_ansi_line (pre ++ ESC :: rest)
    = (chars ++ ESC :: chars', fgs ++ active :: fgs') /\
    length chars = length fgs /\
    (forall (lines : list str) (width height : Z) (term : terminal_size) (i : nat),
       Z.of_nat (length lines) < 2 ^ 52 ->
       width < 2 ^ 52 ->
       Forall (fun l => Z.of_nat (length (fst (parse_ansi_line l))) < 2 ^ 52) lines ->
       nth_error lines i = Some (pre ++ ESC :: rest) ->
       let before := twice (combine chars fgs) in
       let after := twice (combine chars' fgs') in
       let row :=
         join (emit_cells None before)
         ++ (if fg_eq_dec active (cursor None before) then [] else transition active)
         ++ ESC :: ESC :: join (emit_cells active after) ++ RESET in
       exists out,
         scale_lines lines width height f_2 false term = Ok out /\
         nth_error out (2 * i) = Some row /\
         nth_error out (2 * i + 1) = Some row) /\
    (forall (lines : list str) (width height : Z) (scale : float)
            (fit_to_terminal : bool) (term : terminal_size) (out : list str),
       In (pre ++ ESC :: rest) lines ->
       scale_lines lines width height scale fit_to_terminal term = Ok out ->
       out = lines \/
       Forall (fun row =>
                 exists l picked,
                   In l lines /\
                   Forall (fun cell => In cell (cells_of (parse_ansi_line l)))
                          picked /\
                   row = join (emit_cells None picked ++ [RESET]) /\
                   (In (ESC, active) picked ->
                    In [ESC] (emit_cells None picked)))
              out).
Proof.
  intros Hs Hr.
  destruct (parse_loop_extends (length rest) rest active (chars ++ [ESC])
              (fgs ++ [active]) (le_n _)) as (chars' & fgs' & E).
  assert (Hp : parse_ansi_line (pre ++ ESC :: rest)
               = (chars ++ ESC :: chars', fgs ++ active :: fgs')).
  { unfold parse_ansi_line. rewrite Hs, (lone_esc_step _ _ _ _ Hr), E.
    now rewrite <- !app_assoc. }
  pose proof (scans_lengths _ _ _ _ Hs) as Hlen.
  exists chars', fgs'. split; [exact Hp|]. split; [exact Hlen|]. split.
  - intros lines width height term i Hh Hwd Hrows Hi before after row.
    exists (twice (map row_two (map parse_ansi_line lines))).
    assert (Hrow : row_two (parse_ansi_line (pre ++ ESC :: rest)) = row).
    { rewrite Hp. unfold row_two. cbn [fst snd].
      destruct (chars ++ ESC :: chars') eqn:Ec; [now destruct chars|].
      rewrite <- Ec. clear Ec.
      rewrite combine_app_same by exact Hlen. cbn [combine].
      rewrite twice_app. change (twice ((ESC, active) :: combine chars' fgs'))
        with ((ESC, active) :: (ESC, active) :: twice (combine chars' fgs')).
      rewrite join_app, emit_cells_app, join_app, emit_cells_pair.
      subst row before after. change (join [RESET]) with (RESET ++ []).
      rewrite app_nil_r, <- !app_assoc. cbn [app].
      destruct (fg_eq_dec active _); rewrite <- ?app_assoc; reflexivity. }
    assert (Hn : nth_error (map row_two (map parse_ansi_line lines)) i
                 = Some (row_two (parse_ansi_line (pre ++ ESC :: rest))))
      by (now rewrite !nth_error_map, Hi).
    destruct (nth_error_twice _ _ _ Hn) as [H0 H1]. rewrite Hrow in H0, H1.
    split; [|now split].
    rewrite scale_lines_two. apply resample_two; try assumption.
    + intros ->. destruct i; discriminate Hi.
    + now apply small_rows.
  - intros lines width height scale fit_to_terminal term out _ Hout.
    destruct (scale_lines_pass _ _ _ _ _ _ _ Hout) as (s & _ & Hpass).
    destruct (near_one s); [now left|right].
    destruct (resample_rows _ _ _ _ _ Hpass) as (_ & _ & Hfrom).
    eapply Forall_impl; [|exact Hfrom].
    intros row (l & Hl & [[_ ->]|(_ & w & picked & _ & _ & Hpicked & ->)]).
    + exists l, []. split; [exact Hl|]. split; [constructor|].
      split; [|intros []]. cbn [emit_cells app]. unfold join. cbn [concat].
      now rewrite app_nil_r.
    + exists l, picked. split; [exact Hl|]. split; [exact Hpicked|].
      split; [reflexivity|]. apply emit_cells_In.
Qed.

(** Text under one colour, followed by an [ESC]: the decoder arrives at
    the [ESC] with the text decoded. *)
Lemma scans_coloured_text (f : fg) (glyphs : str) :
  plain glyphs ->
  scans (color_code_from_fg f ++ glyphs) f glyphs (repeat f (length glyphs)).
Proof.
  intros Hg tail. rewrite <- app_assoc. destruct f as [c|].
  - rewrite parse_loop_color_code. now rewrite parse_loop_plain.
  - cbn [color_code_from_fg app]. now rewrite parse_loop_plain.
Qed.

Lemma plain_a : plain (lit "a").
Proof. repeat constructor; discriminate. Qed.

Lemma lone_esc_is_glyph_witness :
  exists chars' fgs',
    parse_ansi_line ((color_code_from_fg (Some (ansi256 7)) ++ lit "a") ++ [ESC])
    = (lit "a" ++ ESC :: chars', [Some (ansi256 7)] ++ Some (ansi256 7) :: fgs') /\
    length (lit "a") = length [Some (ansi256 7)].
Proof.
  destruct (lone_esc_is_glyph (color_code_from_fg (Some (ansi256 7)) ++ lit "a") []
                              (Some (ansi256 7)) (lit "a") [Some (ansi256 7)])
    as (chars' & fgs' & H1 & H2 & _).
  - exact (scans_coloured_text (Some (ansi256 7)) (lit "a") plain_a).
  - simpl. discriminate.
  - exists chars', fgs'. now split.
Defined.

(** The line [ESC[38;5;7m a ESC], alone in a frame, at scale 2.0. *)
Example lone_esc_resampled :
  scale_lines [(color_code_from_fg (Some (ansi256 7)) ++ lit "a") ++ [ESC]]
              1 1 f_2 false term80x24
  = Ok [ESC :: lit "[38;5;7maa" ++ [ESC; ESC] ++ RESET;
        ESC :: lit "[38;5;7maa" ++ [ESC; ESC] ++ RESET].
Proof. vm_compute. reflexivity. Qed.
